(** * frostml: the training driver [train.py]

    A shallow embedding of the command-line parser, the resume logic, the
    epoch loop and the train / valid passes of [train.py], with the
    properties of the driver stated over that embedding.

    Conventions of the model:
    - an [argparse.Namespace] is a finite map from attribute names to
      Python values; reading an unbound attribute raises [AttributeError];
    - the metrics of a batch (loss, accuracies) and their averages are
      idealised as rationals ([Q]): the driver only compares them;
    - a learning rate is a binary64 float, represented by the rational it
      denotes: a float read by the parser is the double nearest to its
      numeral, and the products and powers of the scheduler are rounded
      to the nearest double, ties to even, as IEEE 754 has them;
    - side effects on the opaque collaborators (model, optimizer, tracker,
      telemetry writer, checkpoint files) are recorded as a trace of
      events, in program order;
    - an exception aborts the computation and keeps the trace emitted so
      far. *)

From stdpp Require Import gmap strings list.
From Stdlib Require Import Ascii QArith Qpower ZArith Lia Sorted.

Local Open Scope string_scope.
Local Open Scope Z_scope.

(** ** Python values, exceptions *)

Inductive value : Type :=
| VNone
| VBool (b : bool)
| VInt (z : Z)
| VFloat (q : Q)
| VStr (s : string)
| VWriter (log_dir : string).

(** Python truthiness, as used by [if args.resume:], [if args.save_dir:],
    [if args.tensorboard_dir:] and [if args.writer:]. A [SummaryWriter]
    defines neither [__bool__] nor [__len__], hence is always true. *)
Definition truthy (v : value) : bool :=
  match v with
  | VNone => false
  | VBool b => b
  | VInt z => negb (z =? 0)
  | VFloat q => negb (Qeq_bool q 0)
  | VStr s => negb (String.eqb s "")
  | VWriter _ => true
  end.

(** ** Binary64 floats *)

(** [n / d] rounded to the nearest integer, ties to the even one, for
    [0 ≤ n] and [0 < d]. *)
Definition round_half_even (n d : Z) : Z :=
  let q := n / d in
  match 2 * (n mod d) ?= d with
  | Lt => q
  | Gt => q + 1
  | Eq => if Z.even q then q else q + 1
  end.

(** [n / d / 2 ^ e] as a fraction of integers. *)
Definition scaled (n d e : Z) : Z * Z :=
  if 0 <=? e then (n, d * 2 ^ e) else (n * 2 ^ (- e), d).

(** The double nearest to [x], ties to even: a significand of 53 bits
    over the exponent of the unit in the last place, which is at least
    [-1074] (below the normal range the doubles are evenly spaced). The
    exponent is not bounded above: the model has no infinities. *)
Definition binary64 (x : Q) : Q :=
  let n := Z.abs (Qnum x) in
  let d := Zpos (Qden x) in
  if n =? 0 then 0%Q
  else
    let e0 := Z.log2 n - Z.log2 d - 53 in
    let '(n0, d0) := scaled n d e0 in
    let e1 := if n0 <? 2 ^ 53 * d0 then e0 else e0 + 1 in
    let e := Z.max e1 (-1074) in
    let '(n1, d1) := scaled n d e in
    let m := Z.sgn (Qnum x) * round_half_even n1 d1 in
    Qred (inject_Z m * 2 ^ e)%Q.

(** [x * y] on floats. The product with [1.0] is exact whatever [x] is;
    every other product is rounded. *)
Definition fmul (x y : Q) : Q :=
  if Qeq_bool y 1 then x else binary64 (x * y).

(** [x ** k] on a float and an integer: [x ** 0] is [1.0] and [x ** 1] is
    [x], exactly; every other power is the exact one, rounded. *)
Definition fpow (x : Q) (k : Z) : Q :=
  if k =? 0 then 1%Q else if k =? 1 then x else binary64 (x ^ k).

#[global] Arguments binary64 : simpl never.
#[global] Arguments fmul : simpl never.
#[global] Arguments fpow : simpl never.

Inductive exn : Type :=
| AttributeError (attr : string)
| KeyError (key : string)
| TypeError (what : string)
| FileNotFoundError (path : string)
| ZeroDivisionError
| NoObservations (metric : string).

Inductive result (A : Type) : Type :=
| Ok (a : A)
| Raise (e : exn).
Arguments Ok {A} a.
Arguments Raise {A} e.

Abbreviation Namespace := (gmap string value).

(** [args.name] *)
Definition getattr (args : Namespace) (name : string) : result value :=
  match args !! name with
  | Some v => Ok v
  | None => Raise (AttributeError name)
  end.

(** [args.name = v] *)
Definition setattr (name : string) (v : value) (args : Namespace) : Namespace :=
  <[name := v]> args.

(** [hasattr(args, name)] *)
Definition hasattr (args : Namespace) (name : string) : bool :=
  match args !! name with Some _ => true | None => false end.

(** ** The argument parser *)

Module Argparse.

Inductive arg_type : Type := type_str | type_int | type_float.

(** The three action classes [init_parser] uses: the default [store],
    [store_true] and [store_false]. *)
Inductive action_class : Type :=
| store (type : arg_type)
| store_true
| store_false.

Record Action : Type := {
  option_strings : list string;   (* empty for a positional *)
  dest : string;
  action : action_class;
  default : value;
}.

Record ArgumentParser : Type := {
  actions : list Action;                 (* in registration order *)
  defaults : list (string * value);      (* parser-level defaults *)
}.

Definition empty_parser : ArgumentParser :=
  {| actions := []; defaults := [] |}.

(** [s.lstrip('-')] *)
Fixpoint lstrip_dash (s : string) : string :=
  match s with
  | String c s' => if Ascii.eqb c "-"%char then lstrip_dash s' else s
  | EmptyString => EmptyString
  end.

(** [s.replace('-', '_')] *)
Fixpoint replace_dash (s : string) : string :=
  match s with
  | String c s' =>
      String (if Ascii.eqb c "-"%char then "_"%char else c) (replace_dash s')
  | EmptyString => EmptyString
  end.

Definition assoc {A : Type} (k : string) (l : list (string * A)) : option A :=
  snd <$> List.find (λ kv, String.eqb (fst kv) k) l.

(** [parser.add_argument(name, action=..., dest=..., default=...)].
    A positional keeps its name as [dest]. An optional uses the [dest]
    keyword verbatim when it is given, and otherwise derives it from the
    option string by stripping the leading dashes and replacing the inner
    ones by underscores. Without a [default] keyword the parser-level
    default for [dest] applies if there is one, then the action's own
    ([None], [False] for [store_true], [True] for [store_false]). *)
Definition add_argument (name : string) (act : action_class)
    (dest_kw : option string) (default_kw : option value)
    (p : ArgumentParser) : ArgumentParser :=
  let positional := negb (String.prefix "-" name) in
  let d :=
    if positional then name
    else match dest_kw with
         | Some d => d
         | None => replace_dash (lstrip_dash name)
         end in
  let dflt :=
    match default_kw with
    | Some v => v
    | None =>
        match assoc d (defaults p) with
        | Some v => v
        | None =>
            match act with
            | store _ => VNone
            | store_true => VBool false
            | store_false => VBool true
            end
        end
    end in
  {| actions := actions p ++
       [{| option_strings := if positional then [] else [name];
           dest := d; action := act; default := dflt |}];
     defaults := defaults p |}.

(** [parser.set_defaults(dest=v)]: records the parser-level default and
    overrides the default of every registered action with that [dest]. *)
Definition set_defaults (d : string) (v : value) (p : ArgumentParser)
    : ArgumentParser :=
  {| actions :=
       map (λ a, if String.eqb (dest a) d
                 then {| option_strings := option_strings a; dest := dest a;
                         action := action a; default := v |}
                 else a) (actions p);
     defaults := defaults p ++ [(d, v)] |}.

(** *** Parsing a command line *)

(** Type coercion of an argument string is Python's [str], [int] and
    [float]; the two numeric readers are parameters of the model, and
    [float] yields the double nearest to the number read. *)
Record Coercions : Type := {
  py_int : string → option Z;
  py_float : string → option Q;
}.

Definition get_value (cv : Coercions) (ty : arg_type) (s : string)
    : option value :=
  match ty with
  | type_str => Some (VStr s)
  | type_int => VInt <$> py_int cv s
  | type_float => (λ q, VFloat (binary64 q)) <$> py_float cv s
  end.

(** Invoking an action: [store] converts its one argument and binds [dest]
    to it, [store_true] / [store_false] take no argument and bind [dest] to
    their constant. *)
Definition take_action (cv : Coercions) (a : Action) (arg : option string)
    (ns : Namespace) : option Namespace :=
  match action a, arg with
  | store ty, Some s => v ← get_value cv ty s; Some (setattr (dest a) v ns)
  | store_true, None => Some (setattr (dest a) (VBool true) ns)
  | store_false, None => Some (setattr (dest a) (VBool false) ns)
  | _, _ => None
  end.

Definition add_default (d : string) (v : value) (ns : Namespace) : Namespace :=
  if hasattr ns d then ns else setattr d v ns.

(** The namespace before any token is read: every action default, then
    every parser-level default, each only where the attribute is unbound. *)
Definition initial_namespace (p : ArgumentParser) : Namespace :=
  let ns := fold_left (λ ns a, add_default (dest a) (default a) ns)
                      (actions p) ∅ in
  fold_left (λ ns dv, add_default (fst dv) (snd dv) ns) (defaults p) ns.

Definition option_string_actions (p : ArgumentParser)
    : list (string * Action) :=
  flat_map (λ a, map (λ s, (s, a)) (option_strings a)) (actions p).

(** [s.split('=', 1)] when [s] contains ['='] *)
Fixpoint split_eq (s : string) : option (string * string) :=
  match s with
  | EmptyString => None
  | String c s' =>
      if Ascii.eqb c "="%char then Some (EmptyString, s')
      else match split_eq s' with
           | Some (a, b) => Some (String c a, b)
           | None => None
           end
  end.

Fixpoint contains_space (s : string) : bool :=
  match s with
  | EmptyString => false
  | String c s' => Ascii.eqb c " "%char || contains_space s'
  end.

Definition is_digit (c : ascii) : bool :=
  let n := nat_of_ascii c in (48 <=? n)%nat && (n <=? 57)%nat.

Fixpoint digits1 (s : string) : bool :=       (* \d+ *)
  match s with
  | EmptyString => false
  | String c EmptyString => is_digit c
  | String c s' => is_digit c && digits1 s'
  end.

Fixpoint digits_dot_digits (s : string) : bool :=   (* \d*\.\d+ *)
  match s with
  | EmptyString => false
  | String c s' =>
      if Ascii.eqb c "."%char then digits1 s'
      else is_digit c && digits_dot_digits s'
  end.

(** The negative-number matcher [^-\d+$|^-\d*\.\d+$]. *)
Definition negative_number (s : string) : bool :=
  match s with
  | String c s' => Ascii.eqb c "-"%char && (digits1 s' || digits_dot_digits s')
  | EmptyString => false
  end.

(** Abbreviations: the registered option strings the token may stand for. *)
Definition get_option_tuples (p : ArgumentParser) (arg_string : string)
    : list (Action * option string) :=
  if String.prefix "--" arg_string then
    let '(option_prefix, explicit_arg) :=
      match split_eq arg_string with
      | Some (o, e) => (o, Some e)
      | None => (arg_string, None)
      end in
    map (λ oa, (snd oa, explicit_arg))
        (List.filter (λ oa, String.prefix option_prefix (fst oa))
                     (option_string_actions p))
  else
    flat_map (λ oa,
        if String.eqb (fst oa) (String.substring 0 2 arg_string)
        then [(snd oa,
               Some (String.substring 2 (String.length arg_string - 2) arg_string))]
        else if String.prefix arg_string (fst oa) then [(snd oa, None)]
        else [])
      (option_string_actions p).

Inductive token_class : Type :=
| tok_A                                           (* a positional *)
| tok_O (a : Action) (explicit_arg : option string)   (* an option *)
| tok_error.                       (* ambiguous or unknown option *)

(** How one token of the command line is read. *)
Definition parse_optional (p : ArgumentParser) (arg_string : string)
    : token_class :=
  if negb (String.prefix "-" arg_string) then tok_A
  else
    match assoc arg_string (option_string_actions p) with
    | Some a => tok_O a None
    | None =>
      if (String.length arg_string =? 1)%nat then tok_A
      else
        let by_prefix :=
          match get_option_tuples p arg_string with
          | [] =>
              if negative_number arg_string then tok_A
              else if contains_space arg_string then tok_A
              else tok_error
          | [(a, e)] => tok_O a e
          | _ => tok_error
          end in
        match split_eq arg_string with
        | Some (o, e) =>
            match assoc o (option_string_actions p) with
            | Some a => tok_O a (Some e)
            | None => by_prefix
            end
        | None => by_prefix
        end
    end.

Definition positionals (p : ArgumentParser) : list Action :=
  List.filter (λ a, match option_strings a with [] => true | _ => false end)
              (actions p).

(** After [--] every token is a positional. *)
Fixpoint consume_positionals (cv : Coercions) (pos : list Action)
    (toks : list string) (ns : Namespace) : option Namespace :=
  match toks, pos with
  | [], [] => Some ns
  | t :: toks', a :: pos' =>
      ns' ← take_action cv a (Some t) ns;
      consume_positionals cv pos' toks' ns'
  | _, _ => None               (* a required positional is missing, or
                                  an argument is left unrecognised *)
  end.

(** The token loop. [pos] are the positionals still to be filled. An
    option that takes a value reads it from its [=]-suffix or from the
    next token, which must then be a positional-looking one. *)
Fixpoint consume (cv : Coercions) (p : ArgumentParser) (pos : list Action)
    (toks : list string) (ns : Namespace) : option Namespace :=
  match toks with
  | [] => match pos with [] => Some ns | _ => None end
  | t :: toks' =>
      if String.eqb t "--" then consume_positionals cv pos toks' ns
      else
        match parse_optional p t with
        | tok_error => None
        | tok_A =>
            match pos with
            | a :: pos' =>
                ns' ← take_action cv a (Some t) ns;
                consume cv p pos' toks' ns'
            | [] => None
            end
        | tok_O a (Some e) =>
            ns' ← take_action cv a (Some e) ns;
            consume cv p pos toks' ns'
        | tok_O a None =>
            match action a with
            | store _ =>
                match toks' with
                | v :: toks'' =>
                    match parse_optional p v with
                    | tok_A =>
                        if String.eqb v "--" then None
                        else ns' ← take_action cv a (Some v) ns;
                             consume cv p pos toks'' ns'
                    | _ => None
                    end
                | [] => None
                end
            | _ =>
                ns' ← take_action cv a None ns;
                consume cv p pos toks' ns'
            end
        end
  end.

(** [parser.parse_args(argv)]; [None] stands for the parser's error exit. *)
Definition parse_args (cv : Coercions) (p : ArgumentParser)
    (argv : list string) : option Namespace :=
  consume cv p (positionals p) argv (initial_namespace p).

End Argparse.

Import Argparse.

(** [init_parser()], one line per [add_argument] call of the source. *)
Definition init_parser : ArgumentParser :=
  let p := empty_parser in
  (* required argument *)
  let p := add_argument "data" (store type_str) None (Some VNone) p in
  (* arguments *)
  let p := add_argument "--device" (store type_str) None (Some (VStr "cuda")) p in
  let p := add_argument "--epochs" (store type_int) None (Some (VInt 300)) p in
  let p := add_argument "--resume" (store type_str) None (Some VNone) p in
  let p := add_argument "--start-epoch" (store type_int) None (Some (VInt 0)) p in
  let p := add_argument "--seed" (store type_int) None (Some VNone) p in
  let p := add_argument "--save-dir" (store type_str) None (Some VNone) p in
  let p := add_argument "--tensorboard-dir" (store type_str) None (Some VNone) p in
  (* arguments for model *)
  let p := add_argument "--num-classes" (store type_int) None (Some (VInt 1000)) p in
  (* arguments for dataloader *)
  let p := add_argument "--batch-size" (store type_int) None (Some (VInt 64)) p in
  let p := add_argument "--workers" (store type_int) None (Some (VInt 8)) p in
  let p := add_argument "--pin-memory" store_true None None p in
  let p := add_argument "--no-pin-memory" store_false (Some "pin-memory") None p in
  let p := set_defaults "pin_memory" (VBool true) p in
  (* arguments for optimizer *)
  let p := add_argument "--lr" (store type_float) None (Some (VFloat (binary64 (1 # 1000)))) p in
  (* arguments for learning scheduler *)
  let p := add_argument "--step-size" (store type_int) None (Some (VInt 30)) p in
  let p := add_argument "--gamma" (store type_float) None (Some (VFloat (binary64 (1 # 10)))) p in
  (* arguments for distributed data parallel mode *)
  let p := add_argument "--world-size" (store type_int) None (Some (VInt 1)) p in
  let p := add_argument "--dist-url" (store type_str) None (Some (VStr "env://")) p in
  p.

(** ** Computations of the driver: a trace of events and an outcome *)

Definition result_bind {A B : Type} (f : A → result B) (r : result A)
    : result B :=
  match r with
  | Ok a => f a
  | Raise e => Raise e
  end.

#[global] Instance result_mret : MRet result := @Ok.
#[global] Instance result_mbind : MBind result := @result_bind.

(** A batch as the driver sees it: the scalars that the opaque model,
    criterion and evaluator deliver on it. *)
Record batch : Type := { b_loss : Q; b_acc1 : Q; b_acc5 : Q }.

(** The model's parameters, abstracted to the number of updates applied. *)
Record Model : Type := { weights : nat }.

(** [torch.optim.AdamW] with one parameter group: its learning rate and
    the step counter of its state (the moment estimates, which the driver
    never reads, follow that counter). *)
Record Optimizer : Type := { opt_lr : Q; opt_step : nat }.

Definition AdamW (lr : Q) : Optimizer := {| opt_lr := lr; opt_step := 0 |}.

Definition optimizer_step (o : Optimizer) : Optimizer :=
  {| opt_lr := opt_lr o; opt_step := S (opt_step o) |}.

Definition apply_update (m : Model) : Model := {| weights := S (weights m) |}.

(** [torch.optim.lr_scheduler.StepLR]: decays the learning rate by [gamma]
    every [step_size] epochs. The record holds what determines the rate;
    the call counter [_step_count] of the scheduler, which only feeds a
    warning, is left out. *)
Record StepLR : Type := {
  step_size : Z;
  gamma : Q;
  base_lr : Q;
  last_epoch : Z;
}.

(** A checkpoint dictionary; a key may be absent in a file that is loaded. *)
Record Checkpoint : Type := {
  ck_epoch : option Z;
  ck_model : option Model;
  ck_optimizer : option Optimizer;
  ck_scheduler : option StepLR;
}.

Inductive pass : Type := TRAIN | EVAL.

Inductive event : Type :=
| EvEnsureDir (path : string)               (* os.makedirs if missing *)
| EvSetEpoch (epoch : Z)                    (* trainsampler.set_epoch *)
| EvMode (p : pass)                         (* model.train() / model.eval() *)
| EvToDevice (p : pass) (idx : nat)
| EvForward (p : pass) (idx : nat)          (* model(inputs) *)
| EvCriterion (p : pass) (idx : nat)        (* criterion(outputs, targets) *)
| EvEvaluator (p : pass) (idx : nat)        (* evaluator(outputs, targets) *)
| EvZeroGrad (idx : nat)                    (* optimizer.zero_grad *)
| EvBackward (idx : nat)                    (* loss.backward() *)
| EvOptimizerStep (idx : nat)               (* optimizer.step() *)
| EvUpdate (p : pass) (metric : string) (v : Q)     (* tracker.update *)
| EvDisplay (p : pass) (epoch : Z) (idx : nat)      (* tracker.display *)
| EvAddScalar (tag : string) (v : Q) (global_steps : Z)
| EvSynchronize (p : pass)       (* tracker.synchronize_between_processes *)
| EvSummarize (p : pass) (epoch : Z)        (* tracker.summarize *)
| EvSchedulerStep (epoch : option Z)        (* scheduler.step(...) *)
| EvWrite (path : string) (ck : Checkpoint). (* torch.save, main process *)

Record M (A : Type) : Type := mkM { trace : list event; outcome : result A }.
Arguments mkM {A} trace outcome.
Arguments trace {A} m.
Arguments outcome {A} m.

Definition M_ret {A : Type} (a : A) : M A := mkM [] (Ok a).

Definition M_bind {A B : Type} (f : A → M B) (m : M A) : M B :=
  match outcome m with
  | Ok a => let r := f a in mkM (trace m ++ trace r) (outcome r)
  | Raise e => mkM (trace m) (Raise e)
  end.

#[global] Instance M_mret : MRet M := @M_ret.
#[global] Instance M_mbind : MBind M := @M_bind.

Definition emit (e : event) : M unit := mkM [e] (Ok tt).
Definition lift {A : Type} (r : result A) : M A := mkM [] r.
Definition raise {A : Type} (e : exn) : M A := mkM [] (Raise e).

(** [for idx, x in enumerate(l)], threading the loop state. *)
Fixpoint for_enumerate {A S : Type} (body : nat → A → S → M S)
    (idx : nat) (l : list A) (s : S) : M S :=
  match l with
  | [] => mret s
  | x :: l' => s' ← body idx x s; for_enumerate body (Datatypes.S idx) l' s'
  end.

(** [for x in l], threading the loop state. *)
Fixpoint for_each {A S : Type} (body : S → A → M S) (l : list A) (s : S)
    : M S :=
  match l with
  | [] => mret s
  | x :: l' => s' ← body s x; for_each body l' s'
  end.

(** [range(a, b)] *)
Definition range (a b : Z) : list Z :=
  map (λ i, a + Z.of_nat i) (seq 0 (Z.to_nat (b - a))).

(** [x < y] on floats *)
Definition Qltb (x y : Q) : bool := negb (Qle_bool y x).

(** ** The metric tracker *)

Module EpochTracker.

(** Modelled from the spec: [frostml.utils.EpochTracker] is not among the
    sources. A metric accumulator holds the last reading, the running sum
    and the running count. *)
Record Accumulator : Type := {
  last_value : Q;
  running_sum : Q;
  running_count : Z;
}.

(** Modelled from the spec: the spec leaves open what [global_average]
    does on zero observations, and allows exactly two policies. *)
Inductive zero_observation_policy : Type := ReturnZero | RaiseError.

(** Modelled from the spec: the accumulator of a metric with no
    observation yet. *)
Definition no_observation : Accumulator :=
  {| last_value := 0; running_sum := 0; running_count := 0 |}.

(** Modelled from the spec: [tracker.trackers[name]], the accumulator of a
    metric, created on first use. *)
Definition trackers (name : string) (t : gmap string Accumulator)
    : Accumulator :=
  match t !! name with Some a => a | None => no_observation end.

(** Modelled from the spec: [tracker.update(name=v)] appends one
    observation. *)
Definition update (name : string) (v : Q) (t : gmap string Accumulator)
    : gmap string Accumulator :=
  let a := trackers name t in
  <[name := {| last_value := v;
               running_sum := (running_sum a + v)%Q;
               running_count := running_count a + 1 |}]> t.

(** Modelled from the spec: the all-reduce adds sums and counts. *)
Definition all_reduce (a b : Accumulator) : Accumulator :=
  {| last_value := last_value a;
     running_sum := (running_sum a + running_sum b)%Q;
     running_count := running_count a + running_count b |}.

(** Modelled from the spec: [tracker.synchronize_between_processes()], an
    all-reduce over every accumulator with the trackers of the other
    processes in distributed mode, nothing in single-process mode. *)
Definition synchronize_between_processes (distributed : bool)
    (peers : list (gmap string Accumulator)) (t : gmap string Accumulator)
    : gmap string Accumulator :=
  if distributed
  then fold_left (union_with (λ a b, Some (all_reduce a b))) peers t
  else t.

(** Modelled from the spec: [tracker.trackers[name].global_average], the
    sum over the count, with the zero-observation policy. *)
Definition global_average (policy : zero_observation_policy)
    (name : string) (t : gmap string Accumulator) : result Q :=
  let a := trackers name t in
  if running_count a =? 0 then
    match policy with
    | ReturnZero => Ok 0%Q
    | RaiseError => Raise (NoObservations name)
    end
  else Ok (running_sum a / inject_Z (running_count a))%Q.

End EpochTracker.

Import EpochTracker.

(** ** The process and its surroundings *)

Record World : Type := {
  (* RANK, WORLD_SIZE and LOCAL_RANK of a distributed launch, if any *)
  launch : option (Z * Z * Z);
  (* the checkpoint files [torch.load] can read *)
  files : gmap string Checkpoint;
  (* what the collaborators deliver on this process's shard, per epoch *)
  train_batches : Z → list batch;
  valid_batches : Z → list batch;
  (* the same for the other processes of the group *)
  peer_train : Z → list (list batch);
  peer_valid : Z → list (list batch);
  zero_policy : zero_observation_policy;
}.

Definition is_distributed (w : World) : bool :=
  match launch w with Some _ => true | None => false end.

(** Modelled from the spec: [dist.is_main_process()]; rank 0 is the main
    process, and a single process is its own main process. *)
Definition is_main_process (w : World) : bool :=
  match launch w with
  | Some (rank, _, _) => rank =? 0
  | None => true
  end.

(** Modelled from the spec: [dist.initialize_distributed_mode(args)] binds
    the fields of the distributed context, and nothing else, on [args]. *)
Definition initialize_distributed_mode (w : World) (args : Namespace)
    : Namespace :=
  match launch w with
  | Some (rank, world_size, local_rank) =>
      setattr "distributed" (VBool true)
        (setattr "gpu" (VInt local_rank)
           (setattr "world_size" (VInt world_size)
              (setattr "rank" (VInt rank) args)))
  | None => setattr "distributed" (VBool false) args
  end.

(** Modelled from the spec: [dist.save_on_main_process(record, path)]
    writes on the main process and does nothing on the others. *)
Definition save_on_main_process (w : World) (ck : Checkpoint)
    (path : string) : M unit :=
  if is_main_process w then emit (EvWrite path ck) else mret tt.

(** The tracker a process holds at the end of a pass over [bs]. *)
Definition tracker_of (bs : list batch) : gmap string Accumulator :=
  fold_left (λ t b, update "acc5" (b_acc5 b)
                      (update "acc1" (b_acc1 b)
                         (update "loss" (b_loss b) t))) bs ∅.

(** ** The learning-rate scheduler *)

Definition StepLR_init (o : Optimizer) (step_size : Z) (gamma : Q) : StepLR :=
  {| step_size := step_size; gamma := gamma;
     base_lr := opt_lr o; last_epoch := 0 |}.

(** The chainable form used by [scheduler.step()]: the rate is multiplied
    by [gamma], in floats, whenever the epoch counter reaches a multiple
    of [step_size]. Python's [%] raises on a zero divisor. *)
Definition get_lr (s : StepLR) (lr : Q) : result Q :=
  if last_epoch s =? 0 then Ok lr
  else if step_size s =? 0 then Raise ZeroDivisionError
  else if negb (last_epoch s mod step_size s =? 0) then Ok lr
  else Ok (fmul lr (gamma s)).

(** The closed form used by [scheduler.step(epoch)]:
    [base_lr * gamma ** (last_epoch // step_size)], one power and one
    product in floats. Python's [//] raises on a zero divisor, and [**] on
    a zero base with a negative exponent. *)
Definition closed_form_lr (s : StepLR) : result Q :=
  if step_size s =? 0 then Raise ZeroDivisionError
  else
    let k := last_epoch s / step_size s in
    if (k <? 0) && Qeq_bool (gamma s) 0 then Raise ZeroDivisionError
    else Ok (fmul (base_lr s) (fpow (gamma s) k)).

Definition set_last_epoch (e : Z) (s : StepLR) : StepLR :=
  {| step_size := step_size s; gamma := gamma s;
     base_lr := base_lr s; last_epoch := e |}.

Definition set_lr (lr : Q) (o : Optimizer) : Optimizer :=
  {| opt_lr := lr; opt_step := opt_step o |}.

(** [scheduler.step(epoch=None)]; the scheduler writes the new rate into
    the optimizer it was built on. *)
Definition scheduler_step (epoch : option Z) (s : StepLR) (o : Optimizer)
    : result (StepLR * Optimizer) :=
  match epoch with
  | None =>
      let s' := set_last_epoch (last_epoch s + 1) s in
      lr ← get_lr s' (opt_lr o);
      mret (s', set_lr lr o)
  | Some e =>
      let s' := set_last_epoch e s in
      lr ← closed_form_lr s';
      mret (s', set_lr lr o)
  end.

(** ** The train and valid passes *)

Definition tag (p : pass) (what : string) : string :=
  match p with TRAIN => "train" | EVAL => "valid" end +:+ " / " +:+ what.

(** [args.writer.add_scalar(tag, v, global_steps)]: the method is looked
    up on the writer first, then the scalar is evaluated. *)
Definition add_scalar (writer : value) (tg : string) (v : result Q)
    (global_steps : Z) : M unit :=
  match writer with
  | VWriter _ => x ← lift v; emit (EvAddScalar tg x global_steps)
  | _ => raise (AttributeError "add_scalar")
  end.

(** The three [tracker.update] calls and [tracker.display] of a batch; the
    header shown names the epoch and the batch. *)
Definition record_metrics (p : pass) (epoch : Z) (idx : nat) (b : batch)
    (tracker : gmap string Accumulator) : M (gmap string Accumulator) :=
  emit (EvUpdate p "loss" (b_loss b));;
  let tracker := update "loss" (b_loss b) tracker in
  emit (EvUpdate p "acc1" (b_acc1 b));;
  let tracker := update "acc1" (b_acc1 b) tracker in
  emit (EvUpdate p "acc5" (b_acc5 b));;
  let tracker := update "acc5" (b_acc5 b) tracker in
  emit (EvDisplay p epoch idx);;
  mret tracker.

(** [if args.writer: ...] inside the batch loop. *)
Definition batch_telemetry (p : pass) (args : Namespace)
    (tracker : gmap string Accumulator) (epoch : Z) (len idx : nat)
    : M unit :=
  writer ← lift (getattr args "writer");
  if truthy writer then
    let global_steps := epoch * Z.of_nat len + Z.of_nat idx in
    add_scalar writer (tag p "loss (batch)")
      (Ok (last_value (trackers "loss" tracker))) global_steps;;
    add_scalar writer (tag p "acc1 (batch)")
      (Ok (last_value (trackers "acc1" tracker))) global_steps;;
    add_scalar writer (tag p "acc5 (batch)")
      (Ok (last_value (trackers "acc5" tracker))) global_steps
  else mret tt.

(** [if args.writer: ...] after the batch loop. *)
Definition epoch_telemetry (w : World) (p : pass) (args : Namespace)
    (tracker : gmap string Accumulator) (epoch : Z) : M unit :=
  writer ← lift (getattr args "writer");
  if truthy writer then
    let global_steps := epoch in
    add_scalar writer (tag p "loss (epoch)")
      (global_average (zero_policy w) "loss" tracker) global_steps;;
    add_scalar writer (tag p "acc1 (epoch)")
      (global_average (zero_policy w) "acc1" tracker) global_steps;;
    add_scalar writer (tag p "acc5 (epoch)")
      (global_average (zero_policy w) "acc5" tracker) global_steps
  else mret tt.

(** The reduction at the end of a pass: the barrier, then the summary
    under a header that names the epoch. *)
Definition synchronize_and_summarize (w : World) (p : pass) (epoch : Z)
    (peers : list (list batch)) (tracker : gmap string Accumulator)
    : M (gmap string Accumulator) :=
  emit (EvSynchronize p);;
  let tracker :=
    synchronize_between_processes (is_distributed w)
      (map tracker_of peers) tracker in
  emit (EvSummarize p epoch);;
  mret tracker.

(** The body of the batch loop of [train]. *)
Definition train_batch (args : Namespace) (epoch : Z) (len : nat)
    (idx : nat) (b : batch)
    (st : Model * Optimizer * gmap string Accumulator)
    : M (Model * Optimizer * gmap string Accumulator) :=
  let '(model, optimizer, tracker) := st in
  _ ← lift (getattr args "device");
  emit (EvToDevice TRAIN idx);;
  emit (EvForward TRAIN idx);;
  emit (EvCriterion TRAIN idx);;
  emit (EvEvaluator TRAIN idx);;
  emit (EvZeroGrad idx);;
  emit (EvBackward idx);;
  emit (EvOptimizerStep idx);;
  let model := apply_update model in
  let optimizer := optimizer_step optimizer in
  _ ← lift (getattr args "epochs");               (* header *)
  tracker ← record_metrics TRAIN epoch idx b tracker;
  batch_telemetry TRAIN args tracker epoch len idx;;
  mret (model, optimizer, tracker).

(** [train(dataloader, model, optimizer, criterion, evaluator, epoch, args)];
    [peers] are the batches of the other processes in this pass. *)
Definition train (w : World) (peers : list (list batch))
    (dataloader : list batch) (model : Model) (optimizer : Optimizer)
    (epoch : Z) (args : Namespace) : M (Model * Optimizer) :=
  emit (EvMode TRAIN);;
  '(model, optimizer, tracker) ←
    for_enumerate (train_batch args epoch (length dataloader)) 0
      dataloader (model, optimizer, ∅);
  _ ← lift (getattr args "epochs");               (* header *)
  tracker ← synchronize_and_summarize w TRAIN epoch peers tracker;
  epoch_telemetry w TRAIN args tracker epoch;;
  mret (model, optimizer).

(** The body of the batch loop of [valid]. *)
Definition valid_batch (args : Namespace) (epoch : Z) (len : nat)
    (idx : nat) (b : batch) (tracker : gmap string Accumulator)
    : M (gmap string Accumulator) :=
  _ ← lift (getattr args "device");
  emit (EvToDevice EVAL idx);;
  emit (EvForward EVAL idx);;
  emit (EvCriterion EVAL idx);;
  emit (EvEvaluator EVAL idx);;
  _ ← lift (getattr args "epochs");               (* header *)
  tracker ← record_metrics EVAL epoch idx b tracker;
  batch_telemetry EVAL args tracker epoch len idx;;
  mret tracker.

(** [valid(dataloader, model, criterion, evaluator, epoch, args)] *)
Definition valid (w : World) (peers : list (list batch))
    (dataloader : list batch) (model : Model) (epoch : Z)
    (args : Namespace) : M Q :=
  emit (EvMode EVAL);;
  tracker ←
    for_enumerate (valid_batch args epoch (length dataloader)) 0
      dataloader ∅;
  _ ← lift (getattr args "epochs");               (* header *)
  tracker ← synchronize_and_summarize w EVAL epoch peers tracker;
  epoch_telemetry w EVAL args tracker epoch;;
  lift (global_average (zero_policy w) "acc1" tracker).

(** ** Data loaders *)

Inductive sampler : Type :=
| DistributedSampler (shuffle : bool)
| RandomSampler
| SequentialSampler.

Record DataLoader : Type := {
  train_set : bool;                 (* ImageNet(args.data, train=...) *)
  batch_size : value;
  num_workers : value;
  pin_memory : value;
  data_sampler : sampler;
  drop_last : bool;
}.

(** [build_dataloader(args)] *)
Definition build_dataloader (args : Namespace)
    : result (DataLoader * DataLoader * sampler * sampler) :=
  _ ← getattr args "data";
  _ ← getattr args "data";
  d ← getattr args "distributed";
  let '(trainsampler, validsampler) :=
    if truthy d then (DistributedSampler true, DistributedSampler false)
    else (RandomSampler, SequentialSampler) in
  bs ← getattr args "batch_size";
  nw ← getattr args "workers";
  pm ← getattr args "pin_memory";
  let trainloader :=
    {| train_set := true; batch_size := bs; num_workers := nw;
       pin_memory := pm; data_sampler := trainsampler; drop_last := true |} in
  bs ← getattr args "batch_size";
  nw ← getattr args "workers";
  pm ← getattr args "pin_memory";
  let validloader :=
    {| train_set := false; batch_size := bs; num_workers := nw;
       pin_memory := pm; data_sampler := validsampler; drop_last := true |} in
  mret (trainloader, validloader, trainsampler, validsampler).

(** ** The driver *)

Definition as_int (what : string) (v : value) : result Z :=
  match v with
  | VInt z => Ok z
  | VBool b => Ok (if b then 1 else 0)
  | _ => Raise (TypeError what)
  end.

Definition as_float (what : string) (v : value) : result Q :=
  match v with
  | VFloat q => Ok q
  | VInt z => Ok (inject_Z z)
  | _ => Raise (TypeError what)
  end.

Definition as_str (what : string) (v : value) : result string :=
  match v with
  | VStr s => Ok s
  | _ => Raise (TypeError what)
  end.

Fixpoint ends_with_slash (s : string) : bool :=
  match s with
  | EmptyString => false
  | String c EmptyString => Ascii.eqb c "/"%char
  | String _ s' => ends_with_slash s'
  end.

(** [os.path.join(dir, name)] for a relative [name] *)
Definition path_join (dir name : string) : string :=
  if String.eqb dir "" || ends_with_slash dir then dir +:+ name
  else dir +:+ "/" +:+ name.

(** The state the driver carries from one epoch to the next. *)
Record Run : Type := {
  run_args : Namespace;
  run_model : Model;
  run_optimizer : Optimizer;
  run_scheduler : StepLR;
  best_accuracy : Q;
}.

(** [# resume from the checkpoint], lines 85-92. *)
Definition resume (w : World) (args : Namespace) (model : Model)
    (optimizer : Optimizer) (scheduler : StepLR)
    : M (Namespace * Model * Optimizer * StepLR) :=
  r ← lift (getattr args "resume");
  if truthy r then
    path ← lift (as_str "resume" r);
    checkpoint ← lift (match files w !! path with
                       | Some c => Ok c
                       | None => Raise (FileNotFoundError path)
                       end);
    model ← lift (match ck_model checkpoint with
                  | Some m => Ok m
                  | None => Raise (KeyError "model")
                  end);
    let '(args, optimizer, scheduler) :=
      match ck_optimizer checkpoint, ck_scheduler checkpoint,
            ck_epoch checkpoint with
      | Some o, Some s, Some e =>
          (setattr "start_epoch" (VInt (e + 1)) args, o, s)
      | _, _, _ => (args, optimizer, scheduler)
      end in
    start ← lift (getattr args "start_epoch" ≫= as_int "start_epoch");
    emit (EvSchedulerStep (Some start));;
    '(scheduler, optimizer) ←
      lift (scheduler_step (Some start) scheduler optimizer);
    mret (args, model, optimizer, scheduler)
  else mret (args, model, optimizer, scheduler).

(** [main(args)] up to [best_accuracy = 0.], lines 58-105. *)
Definition setup (w : World) (args : Namespace) : M Run :=
  let args := initialize_distributed_mode w args in
  (* set reproducibility option *)
  _ ← lift (getattr args "seed");
  d ← lift (getattr args "distributed");
  (* set device *)
  _ ← lift (getattr args "device");
  (* initialize model *)
  let model := {| weights := 0 |} in
  _ ← (if truthy d then lift (getattr args "gpu") else mret VNone);
  (* initialize dataloader *)
  _ ← lift (build_dataloader args);
  (* initialize objects for optimization *)
  lr ← lift (getattr args "lr" ≫= as_float "lr");
  let optimizer := AdamW lr in
  ss ← lift (getattr args "step_size" ≫= as_int "step_size");
  g ← lift (getattr args "gamma" ≫= as_float "gamma");
  let scheduler := StepLR_init optimizer ss g in
  (* resume from the checkpoint *)
  '(args, model, optimizer, scheduler) ←
    resume w args model optimizer scheduler;
  (* initialize vars, writers *)
  sd ← lift (getattr args "save_dir");
  (if truthy sd then dir ← lift (as_str "save_dir" sd); emit (EvEnsureDir dir)
   else mret tt);;
  td ← lift (getattr args "tensorboard_dir");
  args ← (if truthy td then
            if is_main_process w then
              dir ← lift (as_str "tensorboard_dir" td);
              mret (setattr "writer" (VWriter dir) args)
            else mret (setattr "writer" VNone args)
          else mret args);
  mret {| run_args := args; run_model := model; run_optimizer := optimizer;
          run_scheduler := scheduler; best_accuracy := 0 |}.

(** [dist.save_on_main_process(checkpoint, os.path.join(args.save_dir, name))]
    under [if args.save_dir:]. *)
Definition save_if_configured (w : World) (args : Namespace)
    (checkpoint : Checkpoint) (name : string) : M unit :=
  sd ← lift (getattr args "save_dir");
  if truthy sd then
    dir ← lift (getattr args "save_dir" ≫= as_str "save_dir");
    save_on_main_process w checkpoint (path_join dir name)
  else mret tt.

(** The body of the epoch loop, lines 109-129. *)
Definition run_epoch (w : World) (run : Run) (epoch : Z) : M Run :=
  let args := run_args run in
  d ← lift (getattr args "distributed");
  (if truthy d then emit (EvSetEpoch epoch) else mret tt);;
  '(model, optimizer) ←
    train w (peer_train w epoch) (train_batches w epoch)
      (run_model run) (run_optimizer run) epoch args;
  score ← valid w (peer_valid w epoch) (valid_batches w epoch)
            model epoch args;
  emit (EvSchedulerStep None);;
  '(scheduler, optimizer) ←
    lift (scheduler_step None (run_scheduler run) optimizer);
  let checkpoint :=
    {| ck_epoch := Some epoch; ck_model := Some model;
       ck_optimizer := Some optimizer; ck_scheduler := Some scheduler |} in
  save_if_configured w args checkpoint "checkpoint.pth";;
  if Qltb (best_accuracy run) score then
    save_if_configured w args checkpoint "best_checkpoint.pth";;
    mret {| run_args := args; run_model := model;
            run_optimizer := optimizer; run_scheduler := scheduler;
            best_accuracy := score |}
  else
    mret {| run_args := args; run_model := model;
            run_optimizer := optimizer; run_scheduler := scheduler;
            best_accuracy := best_accuracy run |}.

(** The epoch loop, [for epoch in range(args.start_epoch, args.epochs)]. *)
Definition epoch_loop (w : World) (run : Run) : M Run :=
  start ← lift (getattr (run_args run) "start_epoch" ≫= as_int "start_epoch");
  epochs ← lift (getattr (run_args run) "epochs" ≫= as_int "epochs");
  for_each (run_epoch w) (range start epochs) run.

(** [main(args)] *)
Definition main (w : World) (args : Namespace) : M Run :=
  run ← setup w args;
  epoch_loop w run.

(** The script: [main(init_parser().parse_args())]. *)
Definition script (cv : Coercions) (w : World) (argv : list string)
    : option (M Run) :=
  main w <$> parse_args cv init_parser argv.

(** ** Observations on traces *)

(** Whether [if args.writer:] takes its branch. *)
Definition writer_on (args : Namespace) : bool :=
  match args !! "writer" with
  | Some v => truthy v
  | None => false
  end.

(** [f idx x] for each [idx, x] of [enumerate(l)], concatenated. *)
Fixpoint enum_flat {A B : Type} (f : nat → A → list B) (idx : nat)
    (l : list A) : list B :=
  match l with
  | [] => []
  | x :: l' => f idx x ++ enum_flat f (S idx) l'
  end.

(** The events of one batch of a pass that runs to its end. *)
Definition batch_events (p : pass) (telemetry : bool) (epoch : Z)
    (len idx : nat) (b : batch) : list event :=
  [EvToDevice p idx; EvForward p idx; EvCriterion p idx; EvEvaluator p idx]
  ++ match p with
     | TRAIN => [EvZeroGrad idx; EvBackward idx; EvOptimizerStep idx]
     | EVAL => []
     end
  ++ [EvUpdate p "loss" (b_loss b); EvUpdate p "acc1" (b_acc1 b);
      EvUpdate p "acc5" (b_acc5 b); EvDisplay p epoch idx]
  ++ (if telemetry then
        let global_steps := epoch * Z.of_nat len + Z.of_nat idx in
        [EvAddScalar (tag p "loss (batch)") (b_loss b) global_steps;
         EvAddScalar (tag p "acc1 (batch)") (b_acc1 b) global_steps;
         EvAddScalar (tag p "acc5 (batch)") (b_acc5 b) global_steps]
      else []).

(** The three updates of a batch, as [tracker_of] folds them. *)
Definition observe_batch (b : batch) (t : gmap string Accumulator)
    : gmap string Accumulator :=
  update "acc5" (b_acc5 b) (update "acc1" (b_acc1 b)
                              (update "loss" (b_loss b) t)).

(** The model and the optimizer after [n] batches of a train pass. *)
Definition after_batches (n : nat) (m : Model) (o : Optimizer)
    : Model * Optimizer :=
  ({| weights := weights m + n |},
   {| opt_lr := opt_lr o; opt_step := opt_step o + n |}).

(** The tracker of a process after the barrier of a pass. *)
Definition reduced_tracker (w : World) (peers : list (list batch))
    (dataloader : list batch) : gmap string Accumulator :=
  synchronize_between_processes (is_distributed w) (map tracker_of peers)
    (tracker_of dataloader).

(** The events of a pass that runs to its end. *)
Definition pass_events (w : World) (p : pass) (peers : list (list batch))
    (dataloader : list batch) (epoch : Z) (args : Namespace) : list event :=
  [EvMode p]
  ++ enum_flat (batch_events p (writer_on args) epoch (length dataloader))
       0 dataloader
  ++ [EvSynchronize p; EvSummarize p epoch]
  ++ trace (epoch_telemetry w p args (reduced_tracker w peers dataloader)
              epoch).

Definition is_barrier (e : event) : bool :=
  match e with EvSynchronize _ => true | _ => false end.

(** The barrier calls of a trace, in order. *)
Definition barriers (t : list event) : list event := List.filter is_barrier t.

Definition is_telemetry (e : event) : bool :=
  match e with EvAddScalar _ _ _ => true | _ => false end.

(** The telemetry writes of a trace. *)
Definition telemetry_writes (t : list event) : list event :=
  List.filter is_telemetry t.

Definition is_batch_operation (e : event) : bool :=
  match e with
  | EvZeroGrad _ | EvForward _ _ | EvCriterion _ _ | EvEvaluator _ _
  | EvBackward _ | EvOptimizerStep _ | EvUpdate _ _ _ => true
  | _ => false
  end.

(** The per-batch operations of a trace: gradient reset, forward, loss,
    metrics, backward, optimizer step and metric recording. *)
Definition batch_operations (t : list event) : list event :=
  List.filter is_batch_operation t.

(** The per-batch order the specification states for a train pass. *)
Definition stated_batch_order (idx : nat) (b : batch) : list event :=
  [EvZeroGrad idx; EvForward TRAIN idx; EvCriterion TRAIN idx;
   EvEvaluator TRAIN idx; EvBackward idx; EvOptimizerStep idx;
   EvUpdate TRAIN "loss" (b_loss b); EvUpdate TRAIN "acc1" (b_acc1 b);
   EvUpdate TRAIN "acc5" (b_acc5 b)].

(** The per-batch order of [train]. *)
Definition train_batch_order (idx : nat) (b : batch) : list event :=
  [EvForward TRAIN idx; EvCriterion TRAIN idx; EvEvaluator TRAIN idx;
   EvZeroGrad idx; EvBackward idx; EvOptimizerStep idx;
   EvUpdate TRAIN "loss" (b_loss b); EvUpdate TRAIN "acc1" (b_acc1 b);
   EvUpdate TRAIN "acc5" (b_acc5 b)].

Definition is_step (e : event) : bool :=
  match e with
  | EvMode _ | EvSummarize _ _ | EvSchedulerStep None | EvWrite _ _ => true
  | _ => false
  end.

(** The coarse steps of the epoch loop: entering a pass, closing it with
    its summary, stepping the scheduler, writing a checkpoint file. *)
Definition steps (t : list event) : list event := List.filter is_step t.

(** ** Inputs for the examples *)

Definition decimal_digit (c : ascii) : option Z :=
  if is_digit c then Some (Z.of_nat (nat_of_ascii c) - 48) else None.

Fixpoint decimal_from (acc : Z) (s : string) : option Z :=
  match s with
  | EmptyString => Some acc
  | String c s' => d ← decimal_digit c; decimal_from (10 * acc + d) s'
  end.

(** A reader of plain decimal numerals, standing for [int] and [float]
    in the examples. *)
Definition decimal (s : string) : option Z :=
  match s with
  | EmptyString => None
  | String c s' =>
      if Ascii.eqb c "-"%char
      then match s' with
           | EmptyString => None
           | _ => Z.opp <$> decimal_from 0 s'
           end
      else decimal_from 0 s
  end.

Definition demo_cv : Coercions :=
  {| py_int := decimal; py_float := λ s, inject_Z <$> decimal s |}.

Definition demo_batch (loss acc1 acc5 : Q) : batch :=
  {| b_loss := loss; b_acc1 := acc1; b_acc5 := acc5 |}.

(** A single process, one train batch and one valid batch per epoch; the
    validation accuracy of epoch [e] is [scores e]. *)
Definition single_process (scores : Z → Q) (policy : zero_observation_policy)
    (files : gmap string Checkpoint) : World :=
  {| launch := None; files := files;
     train_batches := λ _, [demo_batch 1 (1 # 2) 1];
     valid_batches := λ e, [demo_batch 1 (scores e) 1];
     peer_train := λ _, []; peer_valid := λ _, [];
     zero_policy := policy |}.

(** The validation score of an epoch: what [valid] returns on it. *)
Definition score (w : World) (epoch : Z) : result Q :=
  global_average (zero_policy w) "acc1"
    (reduced_tracker w (peer_valid w epoch) (valid_batches w epoch)).

(** Where [name] is saved, when a save directory is configured. *)
Definition save_path (args : Namespace) (name : string) : option string :=
  match args !! "save_dir" with
  | Some (VStr dir) => if truthy (VStr dir) then Some (path_join dir name)
                       else None
  | _ => None
  end.

(** The file writes of one [save_on_main_process] under [if args.save_dir]. *)
Definition save_events (w : World) (args : Namespace) (ck : Checkpoint)
    (name : string) : list event :=
  match save_path args name with
  | Some path => if is_main_process w then [EvWrite path ck] else []
  | None => []
  end.

(** The checkpoint files after the writes of a trace. *)
Definition disk_after (t : list event) (fs : gmap string Checkpoint)
    : gmap string Checkpoint :=
  fold_left (λ fs e, match e with
                     | EvWrite path ck => <[path := ck]> fs
                     | _ => fs
                     end) t fs.

(** The dictionary [main] builds at the end of an epoch. *)
Definition checkpoint_of (epoch : Z) (model : Model) (optimizer : Optimizer)
    (scheduler : StepLR) : Checkpoint :=
  {| ck_epoch := Some epoch; ck_model := Some model;
     ck_optimizer := Some optimizer; ck_scheduler := Some scheduler |}.

(** The events of an epoch that runs to its end, given the score of its
    valid pass and the checkpoint it builds. *)
Definition epoch_events (w : World) (run : Run) (epoch : Z) (sc : Q)
    (ck : Checkpoint) : list event :=
  let args := run_args run in
  (match args !! "distributed" with
   | Some d => if truthy d then [EvSetEpoch epoch] else []
   | None => []
   end)
  ++ pass_events w TRAIN (peer_train w epoch) (train_batches w epoch)
       epoch args
  ++ pass_events w EVAL (peer_valid w epoch) (valid_batches w epoch)
       epoch args
  ++ [EvSchedulerStep None]
  ++ save_events w args ck "checkpoint.pth"
  ++ (if Qltb (best_accuracy run) sc
      then save_events w args ck "best_checkpoint.pth" else []).

(** Whether a computation returned rather than raised. *)
Definition returned {A : Type} (m : M A) : bool :=
  match outcome m with Ok _ => true | Raise _ => false end.

(** A namespace as [main] has it once the writer is set, with no telemetry
    sink: the parser defaults, single-process mode, [writer = None]. *)
Definition demo_args : Namespace :=
  setattr "writer" VNone
    (setattr "distributed" (VBool false)
       (setattr "data" (VStr "/data") (initial_namespace init_parser))).

Definition demo_run (args : Namespace) : Run :=
  {| run_args := args; run_model := {| weights := 0 |};
     run_optimizer := AdamW (1 # 1000);
     run_scheduler := StepLR_init (AdamW (1 # 1000)) 30 (1 # 10);
     best_accuracy := 0 |}.

(** Validation accuracies for the examples: epoch [e] scores [e / 4]. *)
Definition rising (e : Z) : Q := e # 4.

(** The batches that enter the reduced averages of a pass: those of every
    process in distributed mode, those of this process otherwise. *)
Definition reduced_batches (w : World) (peers : list (list batch))
    (dataloader : list batch) : list batch :=
  if is_distributed w then (dataloader ++ concat peers)%list else dataloader.

Definition Qsum (l : list Q) : Q := fold_right Qplus 0%Q l.

(** The arithmetic mean; [0] on the empty list, as [x / 0] is [0] in [Q]. *)
Definition mean (l : list Q) : Q :=
  (Qsum l / inject_Z (Z.of_nat (length l)))%Q.

(** [args.name] read as an integer, as a float. *)
Definition attr_int (args : Namespace) (name : string) : result Z :=
  getattr args name ≫= as_int name.

Definition attr_float (args : Namespace) (name : string) : result Q :=
  getattr args name ≫= as_float name.

(** The optimizer and the scheduler [main] builds before any resume. *)
Definition fresh_optimizer (args : Namespace) : result Optimizer :=
  lr ← attr_float args "lr"; mret (AdamW lr).

Definition fresh_scheduler (args : Namespace) : result StepLR :=
  lr ← attr_float args "lr";
  ss ← attr_int args "step_size";
  g ← attr_float args "gamma";
  mret (StepLR_init (AdamW lr) ss g).

(** What the block [if args.tensorboard_dir: ...] leaves in [args]. *)
Definition with_writer (w : World) (args : Namespace) : result Namespace :=
  td ← getattr args "tensorboard_dir";
  if truthy td then
    if is_main_process w then
      dir ← as_str "tensorboard_dir" td;
      mret (setattr "writer" (VWriter dir) args)
    else mret (setattr "writer" VNone args)
  else mret args.

(** What [resume] takes from a loaded checkpoint: the stored optimizer,
    scheduler and epoch + 1 when all three keys are there, and otherwise
    nothing. *)
Definition restored (ck : Checkpoint) (args : Namespace)
    (optimizer : Optimizer) (scheduler : StepLR)
    : Namespace * Optimizer * StepLR :=
  match ck_optimizer ck, ck_scheduler ck, ck_epoch ck with
  | Some o, Some s, Some e => (setattr "start_epoch" (VInt (e + 1)) args, o, s)
  | _, _, _ => (args, optimizer, scheduler)
  end.

(** A checkpoint file that holds the model weights and an epoch only. *)
Definition partial_checkpoint : Checkpoint :=
  {| ck_epoch := Some 9; ck_model := Some {| weights := 40 |};
     ck_optimizer := None; ck_scheduler := None |}.

(** The coarse steps of the epoch [e], followed by its file writes [ws]. *)
Definition epoch_steps (e : Z) (ws : list event) : list event :=
  ([EvMode TRAIN; EvSummarize TRAIN e; EvMode EVAL; EvSummarize EVAL e;
    EvSchedulerStep None] ++ ws)%list.

(** [ev] writes a checkpoint record of the epoch [e]. *)
Definition writes_epoch (e : Z) (ev : event) : Prop :=
  ∃ path ck, ev = EvWrite path ck ∧ ck_epoch ck = Some e.

(** The records written to [path] by a trace, in order. *)
Definition writes_to (path : string) (t : list event) : list Checkpoint :=
  omap (λ e, match e with
             | EvWrite p ck => if String.eqb p path then Some ck else None
             | _ => None
             end) t.

(** Every epoch of [l] has a score, and it is related to [bound] by [R]. *)
Definition scores_bounded (w : World) (R : Q → Q → Prop) (bound : Q)
    (l : list Z) : Prop :=
  ∀ e, In e l → ∃ sc, score w e = Ok sc ∧ R sc bound.

(** A short run for the examples: two epochs, checkpoints under [out]. *)
Definition short_args : Namespace :=
  setattr "epochs" (VInt 2) (setattr "save_dir" (VStr "out") demo_args).

(** The namespace of [train.py /data --resume ck.pth --start-epoch start]. *)
Definition resumed_args (start : Z) : Namespace :=
  setattr "start_epoch" (VInt start)
    (setattr "resume" (VStr "ck.pth")
       (setattr "data" (VStr "/data") (initial_namespace init_parser))).

(** A single process that finds [partial_checkpoint] under [ck.pth]. *)
Definition partial_world : World :=
  single_process rising ReturnZero {["ck.pth" := partial_checkpoint]}.

(** The run [setup] leaves for [resumed_args start] in [partial_world]. *)
Definition partially_resumed (start : Z) : Run :=
  {| run_args := setattr "distributed" (VBool false) (resumed_args start);
     run_model := {| weights := 40 |};
     run_optimizer := AdamW (binary64 (1 # 1000));
     run_scheduler :=
       set_last_epoch start
         (StepLR_init (AdamW (binary64 (1 # 1000))) 30 (binary64 (1 # 10)));
     best_accuracy := 0 |}.

(** The namespace of [train.py /data --no-pin-memory]. *)
Definition no_pin_args : Namespace :=
  setattr "pin-memory" (VBool false)
    (setattr "data" (VStr "/data") (initial_namespace init_parser)).

(** [e] is the first epoch of [l] whose score is the largest one, [sc]. *)
Definition first_maximum (w : World) (l : list Z) (e : Z) (sc : Q) : Prop :=
  ∃ l1 l2, l = (l1 ++ e :: l2)%list ∧ score w e = Ok sc
    ∧ scores_bounded w Qlt sc l1 ∧ scores_bounded w Qle sc l2.

(** Validation accuracies for the examples: every epoch scores [0]. *)
Definition flat (e : Z) : Q := 0.

(** The rate [lr] after [k] decays of the chainable form: the product
    with [gamma], in floats, [k] times over. *)
Fixpoint chained (lr g : Q) (k : nat) : Q :=
  match k with
  | O => lr
  | S k' => fmul (chained lr g k') g
  end.

(** The optimizer is on the schedule of an uninterrupted run: its rate is
    the base rate, decayed once for every multiple of [step_size] the
    epoch counter has reached. *)
Definition on_schedule (s : StepLR) (o : Optimizer) : Prop :=
  0 ≤ last_epoch s ∧ 0 < step_size s
  ∧ opt_lr o = chained (base_lr s) (gamma s)
                 (Z.to_nat (last_epoch s / step_size s)).

(** The namespace of [train.py /data --save-dir out --tensorboard-dir tb]. *)
Definition logged_args : Namespace :=
  setattr "tensorboard_dir" (VStr "tb")
    (setattr "save_dir" (VStr "out")
       (setattr "data" (VStr "/data") (initial_namespace init_parser))).

(** [logged_args] with [--step-size 1]: the rate decays at every epoch. *)
Definition decaying_args : Namespace :=
  setattr "step_size" (VInt 1) logged_args.

(** The rolling checkpoint a run over [decaying_args] leaves after its
    epoch 0: one batch trained, the rate decayed once. *)
Definition checkpoint_after_epoch_0 : Checkpoint :=
  checkpoint_of 0 {| weights := 1 |}
    {| opt_lr := fmul (binary64 (1 # 1000)) (binary64 (1 # 10));
       opt_step := 1 |}
    {| step_size := 1; gamma := binary64 (1 # 10);
       base_lr := binary64 (1 # 1000); last_epoch := 1 |}.

(** The rate and the scheduler's epoch counter a computation ends with. *)
Definition final_lr (m : M Run) : option Q :=
  match outcome m with
  | Ok run => Some (opt_lr (run_optimizer run))
  | Raise _ => None
  end.

Definition final_epoch (m : M Run) : option Z :=
  match outcome m with
  | Ok run => Some (last_epoch (run_scheduler run))
  | Raise _ => None
  end.

(** A single process whose checkpoint files are those the run [m] has
    written. *)
Definition after_run (m : M Run) : World :=
  single_process rising ReturnZero (disk_after (trace m) ∅).

(** A computation whose trace holds telemetry writes only. *)
Definition scalars_only {A : Type} (m : M A) : Prop :=
  Forall (λ e, is_telemetry e = true) (trace m).

(** ** Events a computation never emits *)

(** No event of the trace [t] is of the kind [P]. *)
Definition never (P : event → bool) (t : list event) : Prop :=
  Forall (λ e, P e = false) t.

Definition is_gradient_operation (e : event) : bool :=
  match e with
  | EvZeroGrad _ | EvBackward _ | EvOptimizerStep _ => true
  | _ => false
  end.

Definition is_write (e : event) : bool :=
  match e with EvWrite _ _ => true | _ => false end.

Definition is_training (e : event) : bool :=
  match e with
  | EvSetEpoch _ | EvMode _ | EvSchedulerStep None | EvWrite _ _ => true
  | _ => false
  end.

Definition is_set_epoch (e : event) : bool :=
  match e with EvSetEpoch _ => true | _ => false end.


(** The global steps at which the scalar [tg] is written by a trace. *)
Definition scalar_steps (tg : string) (t : list event) : list Z :=
  omap (λ e, match e with
             | EvAddScalar tg' _ s => if String.eqb tg' tg then Some s else None
             | _ => None
             end) t.


(** Whether [if args.name:] takes its branch; an unbound attribute raises
    before any branch is taken. *)
Definition option_set (args : Namespace) (name : string) : bool :=
  match args !! name with
  | Some v => truthy v
  | None => false
  end.

(** Whether [args.writer] holds a writer object. *)
Definition has_writer (args : Namespace) : bool :=
  match args !! "writer" with
  | Some (VWriter _) => true
  | _ => false
  end.

(** The process of rank 1 in a group of two: one train batch and one
    valid batch per epoch on each process. *)
Definition worker_process (scores : Z → Q) (policy : zero_observation_policy)
    (files : gmap string Checkpoint) : World :=
  {| launch := Some (1, 2, 1); files := files;
     train_batches := λ _, [demo_batch 1 (1 # 2) 1];
     valid_batches := λ e, [demo_batch 1 (scores e) 1];
     peer_train := λ _, [[demo_batch 1 (1 # 2) 1]];
     peer_valid := λ e, [[demo_batch 1 (scores e) 1]];
     zero_policy := policy |}.

(** [logged_args] with [--epochs 1]. *)
Definition one_epoch_args : Namespace :=
  setattr "epochs" (VInt 1) logged_args.

(** A computation that raises before it emits anything. *)
Definition fails_silently {A : Type} (m : M A) : Prop :=
  returned m = false ∧ trace m = [].

(** What [torch.load(path)] followed by [checkpoint['model']] raises, if
    anything. *)
Definition load_error (w : World) (path : string) : option exn :=
  match files w !! path with
  | None => Some (FileNotFoundError path)
  | Some ck =>
      match ck_model ck with
      | None => Some (KeyError "model")
      | Some _ => None
      end
  end.

(** The namespace of [train.py /data --epochs 0]. *)
Definition no_epoch_args : Namespace :=
  setattr "epochs" (VInt 0)
    (setattr "data" (VStr "/data") (initial_namespace init_parser)).

(** A single process that finds the checkpoint of epoch 0 under
    [out/checkpoint.pth]. *)
Definition resumable_world : World :=
  single_process rising ReturnZero
    {["out/checkpoint.pth" := checkpoint_after_epoch_0]}.

(** [decaying_args] with [--epochs 1 --resume out/checkpoint.pth]. *)
Definition completed_args : Namespace :=
  setattr "resume" (VStr "out/checkpoint.pth")
    (setattr "epochs" (VInt 1) decaying_args).

(** [logged_args] with [--epochs 2]. *)
Definition two_epoch_args : Namespace :=
  setattr "epochs" (VInt 2) logged_args.

(** [logged_args] with [--start-epoch 50] and no [--resume]. *)
Definition late_start_args : Namespace :=
  setattr "start_epoch" (VInt 50) logged_args.

(** [decaying_args] with [--epochs 2]. *)
Definition two_decays_args : Namespace :=
  setattr "epochs" (VInt 2) decaying_args.

(** The run [setup] leaves for [two_epoch_args] on a single process. *)
Definition two_epoch_run : Run :=
  {| run_args := setattr "writer" (VWriter "tb")
                   (setattr "distributed" (VBool false) two_epoch_args);
     run_model := {| weights := 0 |};
     run_optimizer := AdamW (binary64 (1 # 1000));
     run_scheduler :=
       StepLR_init (AdamW (binary64 (1 # 1000))) 30 (binary64 (1 # 10));
     best_accuracy := 0 |}.

(** The batch-level telemetry tags of a pass. *)
Definition batch_tag (p : pass) (metric : string) : string :=
  tag p (metric +:+ " (batch)").

(** [epoch * len(dataloader) + idx] for every batch index of a pass. *)
Definition global_steps_of (epoch : Z) (len : nat) : list Z :=
  map (λ idx, epoch * Z.of_nat len + Z.of_nat idx) (seq 0 len).

Definition same_pass (p p' : pass) : bool :=
  match p, p' with
  | TRAIN, TRAIN | EVAL, EVAL => true
  | _, _ => false
  end.



(** [data] is bound to a string. *)
Definition data_bound (ns : Namespace) : Prop :=
  ∃ d, ns !! "data" = Some (VStr d).

(** The positionals still to be filled are those of [init_parser], or
    none is left and [data] is bound. *)
Definition pending_positionals (pos : list Action) (ns : Namespace) : Prop :=
  pos = positionals init_parser ∨ (pos = [] ∧ data_bound ns).

(** * Properties *)

(** ** The parser: [pin_memory] *)

Section ParserInvariant.

Variable cv : Coercions.
Variable p : ArgumentParser.

(** A property of the namespace that no registered action can break. *)
Variable P : Namespace → Prop.
Hypothesis P_action :
  ∀ a arg ns ns', In a (actions p) → P ns →
    take_action cv a arg ns = Some ns' → P ns'.

Lemma option_string_actions_In s a :
  In (s, a) (option_string_actions p) → In a (actions p).
Proof.
  unfold option_string_actions. rewrite in_flat_map.
  intros (a' & Ha' & Hin). apply in_map_iff in Hin as (s' & Heq & _).
  by inversion Heq; subst.
Qed.

Lemma assoc_In s a :
  assoc s (option_string_actions p) = Some a → In a (actions p).
Proof.
  unfold assoc. destruct (List.find _ _) as [[s' a']|] eqn:Hf; [|done].
  intros [= <-]. apply find_some in Hf as [Hin _].
  by apply option_string_actions_In in Hin.
Qed.

Lemma get_option_tuples_In t a e :
  In (a, e) (get_option_tuples p t) → In a (actions p).
Proof.
  unfold get_option_tuples. destruct (String.prefix "--" t).
  - destruct (split_eq t) as [[o e']|]; rewrite in_map_iff;
      intros ([s a'] & [= <- _] & Hin); apply filter_In in Hin as [Hin _];
      by apply option_string_actions_In in Hin.
  - rewrite in_flat_map. intros ([s a'] & Hin & Hx).
    apply option_string_actions_In in Hin. simpl in Hx.
    destruct (String.eqb _ _); [|destruct (String.prefix _ _)];
      simpl in Hx; [| |done]; by destruct Hx as [[= <- _]|[]].
Qed.

Lemma parse_optional_In t a e :
  parse_optional p t = tok_O a e → In a (actions p).
Proof.
  unfold parse_optional.
  destruct (negb _); [done|].
  destruct (assoc t _) as [a0|] eqn:Ha0.
  { intros [= <- _]. by apply assoc_In in Ha0. }
  destruct (_ =? _)%nat; [done|].
  assert (Hpre : match get_option_tuples p t with
                 | [] => if negative_number t then tok_A
                         else if contains_space t then tok_A else tok_error
                 | [(a1, e1)] => tok_O a1 e1
                 | _ => tok_error
                 end = tok_O a e → In a (actions p)).
  { destruct (get_option_tuples p t) as [|[a1 e1] [|? ?]] eqn:Ht.
    - by repeat case_match.
    - intros [= <- <-]. apply (get_option_tuples_In t a1 e1).
      rewrite Ht. by left.
    - done. }
  destruct (split_eq t) as [[o e0]|]; [|done].
  destruct (assoc o _) as [a1|] eqn:Ha1; [|done].
  intros [= <- _]. by apply assoc_In in Ha1.
Qed.

Lemma consume_positionals_inv pos toks ns ns' :
  (∀ a, In a pos → In a (actions p)) → P ns →
  consume_positionals cv pos toks ns = Some ns' → P ns'.
Proof.
  revert pos ns. induction toks as [|t toks IH]; intros [|a pos] ns Hpos HP;
    simpl; try done.
  - by intros [= <-].
  - destruct (take_action cv a (Some t) ns) as [ns1|] eqn:Ht; [|done].
    simpl. apply IH.
    + intros a' Ha'. apply Hpos. by right.
    + eapply P_action; [|done|done]. apply Hpos. by left.
Qed.

Lemma consume_inv n : ∀ pos toks ns ns',
  (length toks ≤ n)%nat →
  (∀ a, In a pos → In a (actions p)) → P ns →
  consume cv p pos toks ns = Some ns' → P ns'.
Proof.
  induction n as [|n IH]; intros pos [|t toks] ns ns' Hlen Hpos HP;
    simpl in *; try lia.
  - destruct pos; [by intros [= <-]|done].
  - destruct pos; [by intros [= <-]|done].
  - destruct (String.eqb t "--").
    { by apply consume_positionals_inv. }
    destruct (parse_optional p t) as [|a [e|]|] eqn:Hpo; [| | |done].
    + destruct pos as [|a pos]; [done|].
      destruct (take_action cv a (Some t) ns) as [ns1|] eqn:Ht; [|done].
      simpl. apply IH; [lia| |].
      * intros a' Ha'. apply Hpos. by right.
      * eapply P_action; [|done|done]. apply Hpos. by left.
    + apply parse_optional_In in Hpo.
      destruct (take_action cv a (Some e) ns) as [ns1|] eqn:Ht; [|done].
      simpl. apply IH; [lia|done|]. by eapply P_action.
    + apply parse_optional_In in Hpo.
      assert (Hflag : (ns1 ← take_action cv a None ns;
                       consume cv p pos toks ns1) = Some ns' → P ns').
      { destruct (take_action cv a None ns) as [ns1|] eqn:Ht; [|done].
        simpl. apply IH; [lia|done|]. by eapply P_action. }
      destruct (action a); [|done|done].
      destruct toks as [|v toks]; [done|].
      destruct (parse_optional p v); [|done|done].
      destruct (String.eqb v "--"); [done|].
      destruct (take_action cv a (Some v) ns) as [ns1|] eqn:Ht; [|done].
      simpl in *. apply IH; [lia|done|]. by eapply P_action.
Qed.

Lemma parse_args_inv argv ns :
  P (initial_namespace p) → parse_args cv p argv = Some ns → P ns.
Proof.
  intros HP. unfold parse_args. apply (consume_inv (length argv)); [lia| |done].
  intros a Ha. unfold positionals in Ha. by apply filter_In in Ha as [Ha _].
Qed.

End ParserInvariant.

(** Every action that writes [pin_memory] stores [True]: the only one is
    [--pin-memory]. *)
Lemma init_parser_pin_memory_writers a :
  In a (actions init_parser) → dest a = "pin_memory" → action a = store_true.
Proof.
  vm_compute. intros Hin Hd.
  repeat (destruct Hin as [<-|Hin]; [first [done | discriminate Hd]|]).
  destruct Hin.
Qed.

Lemma take_action_binds cv a arg ns ns' k :
  is_Some (ns !! k) → take_action cv a arg ns = Some ns' → is_Some (ns' !! k).
Proof.
  intros Hk. unfold take_action, setattr.
  destruct (action a), arg; try done.
  - destruct (get_value cv type s); [|done]. simpl. intros [= <-].
    rewrite lookup_insert. by case_decide.
  - intros [= <-]. rewrite lookup_insert. by case_decide.
  - intros [= <-]. rewrite lookup_insert. by case_decide.
Qed.

Lemma take_action_pin_memory cv a arg ns ns' :
  In a (actions init_parser) →
  ns !! "pin_memory" = Some (VBool true) →
  take_action cv a arg ns = Some ns' →
  ns' !! "pin_memory" = Some (VBool true).
Proof.
  intros Hin Hpin. unfold take_action, setattr.
  destruct (decide (dest a = "pin_memory")) as [Hd|Hd].
  - rewrite (init_parser_pin_memory_writers a Hin Hd), Hd.
    destruct arg; [done|]. intros [= <-]. by rewrite lookup_insert_eq.
  - destruct (action a), arg; try done.
    + destruct (get_value cv type s); [|done]. simpl. intros [= <-].
      by rewrite lookup_insert_ne.
    + intros [= <-]. by rewrite lookup_insert_ne.
    + intros [= <-]. by rewrite lookup_insert_ne.
Qed.

(** Whatever the tokens are split into, a sequence of invocations of
    registered actions leaves [pin_memory] at [True]; this does not depend
    on how the command line is tokenised. *)
Lemma pin_memory_any_invocations cv (calls : list (Action * option string)) :
  ∀ ns ns',
  Forall (λ c, In (fst c) (actions init_parser)) calls →
  ns !! "pin_memory" = Some (VBool true) →
  foldr (λ c acc, λ ns, take_action cv (fst c) (snd c) ns ≫= acc) Some
        calls ns = Some ns' →
  ns' !! "pin_memory" = Some (VBool true).
Proof.
  induction calls as [|[a arg] calls IH]; intros ns ns' Hall Hpin; simpl.
  - by intros [= <-].
  - apply Forall_cons in Hall as [Ha Hall'].
    destruct (take_action cv a arg ns) as [ns1|] eqn:Ht; [|done]. simpl.
    apply IH; [done|]. by eapply take_action_pin_memory.
Qed.

Lemma parse_args_binds cv argv ns k :
  is_Some (initial_namespace init_parser !! k) →
  parse_args cv init_parser argv = Some ns → is_Some (ns !! k).
Proof.
  intros Hk. apply (parse_args_inv cv init_parser (λ ns, is_Some (ns !! k)));
    [|done].
  intros a arg ns0 ns1 _. apply take_action_binds.
Qed.

Lemma initialize_distributed_mode_other w args k :
  k ≠ "distributed" → k ≠ "gpu" → k ≠ "world_size" → k ≠ "rank" →
  initialize_distributed_mode w args !! k = args !! k.
Proof.
  intros. unfold initialize_distributed_mode, setattr.
  destruct (launch w) as [[[? ?] ?]|]; by rewrite !lookup_insert_ne.
Qed.

Lemma initialize_distributed_mode_distributed w args :
  initialize_distributed_mode w args !! "distributed"
  = Some (VBool (is_distributed w)).
Proof.
  unfold initialize_distributed_mode, is_distributed, setattr.
  destruct (launch w) as [[[? ?] ?]|]; by rewrite lookup_insert_eq.
Qed.

(** C10. For every command line the parser accepts, the parsed
    [pin_memory] is [True]; [--no-pin-memory] is registered with the
    destination [pin-memory], another attribute; and both data loaders are
    built with [pin_memory=True]. *)
Theorem pin_memory_always_true cv w argv ns :
  parse_args cv init_parser argv = Some ns →
  ns !! "pin_memory" = Some (VBool true)
  ∧ (dest <$> assoc "--no-pin-memory" (option_string_actions init_parser))
    = Some "pin-memory"
  ∧ ∃ trainloader validloader ts vs,
      build_dataloader (initialize_distributed_mode w ns)
      = Ok (trainloader, validloader, ts, vs)
      ∧ pin_memory trainloader = VBool true
      ∧ pin_memory validloader = VBool true.
Proof.
  intros Hparse.
  assert (Hpin : ns !! "pin_memory" = Some (VBool true)).
  { apply (parse_args_inv cv init_parser
             (λ ns, ns !! "pin_memory" = Some (VBool true)) ) with argv;
      [|by vm_compute|done].
    intros a arg ns0 ns1. apply take_action_pin_memory. }
  split; [done|]. split; [by vm_compute|].
  destruct (parse_args_binds cv argv ns "data") as [vd Hd]; [by vm_compute; eexists|done|].
  destruct (parse_args_binds cv argv ns "batch_size") as [vb Hb];
    [by vm_compute; eexists|done|].
  destruct (parse_args_binds cv argv ns "workers") as [vw Hw];
    [by vm_compute; eexists|done|].
  unfold build_dataloader, getattr.
  rewrite initialize_distributed_mode_distributed.
  rewrite !initialize_distributed_mode_other by done.
  rewrite Hd, Hb, Hw, Hpin. simpl.
  destruct (is_distributed w); simpl; eauto 10.
Qed.

Lemma pin_memory_always_true_witness :
  let w := single_process rising ReturnZero ∅ in
  parse_args demo_cv init_parser ["/data"; "--no-pin-memory"]
  = Some no_pin_args
  ∧ no_pin_args !! "pin_memory" = Some (VBool true)
  ∧ (dest <$> assoc "--no-pin-memory" (option_string_actions init_parser))
    = Some "pin-memory"
  ∧ ∃ trainloader validloader ts vs,
      build_dataloader (initialize_distributed_mode w no_pin_args)
      = Ok (trainloader, validloader, ts, vs)
      ∧ pin_memory trainloader = VBool true
      ∧ pin_memory validloader = VBool true.
Proof.
  intros w. split; [vm_compute; reflexivity|].
  apply (pin_memory_always_true demo_cv w ["/data"; "--no-pin-memory"]).
  vm_compute; reflexivity.
Defined.

(** ** Computations that return *)

Lemma M_bind_Ok {A B : Type} (m : M A) (f : A → M B) (b : B) :
  outcome (m ≫= f) = Ok b →
  ∃ a, outcome m = Ok a ∧ outcome (f a) = Ok b
       ∧ trace (m ≫= f) = (trace m ++ trace (f a))%list.
Proof.
  unfold mbind, M_mbind, M_bind.
  destruct (outcome m) as [a|e]; simpl; [|done]. eauto.
Qed.

Lemma M_bind_Raise {A B : Type} (m : M A) (f : A → M B) (e : exn) :
  outcome m = Raise e →
  trace (m ≫= f) = trace m ∧ outcome (m ≫= f) = Raise e.
Proof. unfold mbind, M_mbind, M_bind. by intros ->. Qed.

Lemma M_eta {A : Type} (m : M A) : m = mkM (trace m) (outcome m).
Proof. by destruct m. Qed.

Lemma bind_mkM_Ok {A B : Type} (t : list event) (a : A) (f : A → M B) :
  (mkM t (Ok a) ≫= f) = mkM (t ++ trace (f a)) (outcome (f a)).
Proof. reflexivity. Qed.

Lemma bind_ret {A B : Type} (a : A) (f : A → M B) : (mret a ≫= f) = f a.
Proof. unfold mret, M_mret, M_ret. rewrite bind_mkM_Ok. by destruct (f a). Qed.

Lemma bind_lift_Ok {A B : Type} (a : A) (f : A → M B) :
  (lift (Ok a) ≫= f) = f a.
Proof. apply bind_ret. Qed.

Lemma bind_emit {B : Type} (e : event) (f : unit → M B) :
  (emit e ≫= f) = mkM (e :: trace (f tt)) (outcome (f tt)).
Proof. reflexivity. Qed.

Section Loops.

Context {A S : Type}.

(** A loop that returns ran every iteration to its end. *)
Lemma for_enumerate_Ok (body : nat → A → S → M S)
    (events : nat → A → list event) (next : A → S → S) :
  (∀ idx x s s', outcome (body idx x s) = Ok s' →
     trace (body idx x s) = events idx x ∧ s' = next x s) →
  ∀ l idx s s',
    outcome (for_enumerate body idx l s) = Ok s' →
    trace (for_enumerate body idx l s) = enum_flat events idx l
    ∧ s' = fold_left (λ s x, next x s) l s.
Proof.
  intros Hbody. induction l as [|x l IH]; intros idx s s'; simpl.
  - by intros [= <-].
  - intros Hok. apply M_bind_Ok in Hok as (s1 & H1 & H2 & ->).
    apply Hbody in H1 as [-> ->]. by apply IH in H2 as [-> ->].
Qed.

(** An invariant over the elements processed, the loop state and the
    events emitted holds at the end of a loop that returns. *)
Lemma for_each_invariant (body : S → A → M S)
    (I : list A → S → list event → Prop) :
  (∀ seen s x s' t, I seen s t → outcome (body s x) = Ok s' →
     I (seen ++ [x])%list s' (t ++ trace (body s x))%list) →
  ∀ l seen s t s',
    I seen s t →
    outcome (for_each body l s) = Ok s' →
    I (seen ++ l)%list s' (t ++ trace (for_each body l s))%list.
Proof.
  intros Hbody. induction l as [|x l IH]; intros seen s t s' HI; simpl.
  - intros [= <-]. by rewrite !app_nil_r.
  - intros Hok. apply M_bind_Ok in Hok as (s1 & H1 & H2 & ->).
    rewrite (assoc_L (++) t), (cons_middle x seen l), (assoc_L (++) seen).
    apply IH; [|done]. by apply Hbody.
Qed.

End Loops.

(** ** The tracker *)

Lemma trackers_update_eq name v t :
  last_value (trackers name (update name v t)) = v.
Proof. unfold trackers, update. by rewrite lookup_insert_eq. Qed.

Lemma trackers_update_ne name name' v t :
  name ≠ name' → trackers name (update name' v t) = trackers name t.
Proof. intros. unfold trackers, update. by rewrite lookup_insert_ne. Qed.

#[global] Arguments update : simpl never.
#[global] Arguments trackers : simpl never.
#[global] Arguments global_average : simpl never.
#[global] Arguments synchronize_between_processes : simpl never.


Lemma tracker_of_fold bs :
  tracker_of bs = fold_left (λ t b, observe_batch b t) bs ∅.
Proof. reflexivity. Qed.

Lemma batch_scalars b t :
  last_value (trackers "loss" (observe_batch b t)) = b_loss b
  ∧ last_value (trackers "acc1" (observe_batch b t)) = b_acc1 b
  ∧ last_value (trackers "acc5" (observe_batch b t)) = b_acc5 b.
Proof.
  unfold observe_batch. repeat split.
  - rewrite !(trackers_update_ne "loss") by done. apply trackers_update_eq.
  - rewrite !(trackers_update_ne "acc1") by done. apply trackers_update_eq.
  - apply trackers_update_eq.
Qed.

(** ** One batch *)

Lemma batch_telemetry_Ok p args t epoch len idx b u :
  outcome (batch_telemetry p args (observe_batch b t) epoch len idx) = Ok u →
  trace (batch_telemetry p args (observe_batch b t) epoch len idx)
  = if writer_on args then
      let global_steps := epoch * Z.of_nat len + Z.of_nat idx in
      [EvAddScalar (tag p "loss (batch)") (b_loss b) global_steps;
       EvAddScalar (tag p "acc1 (batch)") (b_acc1 b) global_steps;
       EvAddScalar (tag p "acc5 (batch)") (b_acc5 b) global_steps]
    else [].
Proof.
  unfold batch_telemetry, writer_on, getattr.
  destruct (batch_scalars b t) as (-> & -> & ->).
  destruct (args !! "writer") as [wv|]; [|done].
  destruct wv as [|[]|z|q|s|d]; simpl; try done;
    by repeat (case_match; simpl in *; try done).
Qed.

Lemma record_metrics_run p epoch idx b t :
  record_metrics p epoch idx b t
  = mkM [EvUpdate p "loss" (b_loss b); EvUpdate p "acc1" (b_acc1 b);
         EvUpdate p "acc5" (b_acc5 b); EvDisplay p epoch idx]
        (Ok (observe_batch b t)).
Proof. reflexivity. Qed.

Lemma train_batch_Ok args epoch len idx b m o t st' :
  outcome (train_batch args epoch len idx b (m, o, t)) = Ok st' →
  trace (train_batch args epoch len idx b (m, o, t))
  = batch_events TRAIN (writer_on args) epoch len idx b
  ∧ st' = (apply_update m, optimizer_step o, observe_batch b t).
Proof.
  unfold train_batch, getattr.
  destruct (args !! "device"); [|done].
  destruct (args !! "epochs"); [|done].
  rewrite record_metrics_run.
  pose proof (batch_telemetry_Ok TRAIN args t epoch len idx b) as Htel.
  unfold mbind, M_mbind, M_bind in *. simpl in *.
  destruct (outcome (batch_telemetry _ _ _ _ _ _)) as [u|]; [|done].
  simpl. intros [= <-]. rewrite (Htel u eq_refl), app_nil_r.
  split; [|done]. by destruct (writer_on args).
Qed.

Lemma valid_batch_Ok args epoch len idx b t t' :
  outcome (valid_batch args epoch len idx b t) = Ok t' →
  trace (valid_batch args epoch len idx b t)
  = batch_events EVAL (writer_on args) epoch len idx b
  ∧ t' = observe_batch b t.
Proof.
  unfold valid_batch, getattr.
  destruct (args !! "device"); [|done].
  destruct (args !! "epochs"); [|done].
  rewrite record_metrics_run.
  pose proof (batch_telemetry_Ok EVAL args t epoch len idx b) as Htel.
  unfold mbind, M_mbind, M_bind in *. simpl in *.
  destruct (outcome (batch_telemetry _ _ _ _ _ _)) as [u|]; [|done].
  simpl. intros [= <-]. rewrite (Htel u eq_refl), app_nil_r.
  split; [|done]. by destruct (writer_on args).
Qed.

(** ** One pass *)

Tactic Notation "bind_Ok" hyp(H) "as" ident(a) ident(Ha) :=
  let Ht := fresh "Ht" in
  cbv beta in H |- *;
  apply M_bind_Ok in H as (a & Ha & H & Ht);
  try rewrite Ht; clear Ht; cbv beta in H |- *.


Lemma train_loop_state dl : ∀ m o t,
  fold_left (λ (s : Model * Optimizer * gmap string Accumulator) b,
               let '(m, o, t) := s in
               (apply_update m, optimizer_step o, observe_batch b t))
            dl (m, o, t)
  = (after_batches (length dl) m o, fold_left (λ t b, observe_batch b t) dl t).
Proof.
  induction dl as [|b dl IH]; intros [wm] [lr st] t; simpl.
  - unfold after_batches. simpl. by rewrite !Nat.add_0_r.
  - rewrite IH. unfold after_batches, apply_update, optimizer_step. simpl.
    by rewrite !Nat.add_succ_r.
Qed.

Lemma synchronize_and_summarize_run w p epoch peers t :
  synchronize_and_summarize w p epoch peers t
  = mkM [EvSynchronize p; EvSummarize p epoch]
        (Ok (synchronize_between_processes (is_distributed w)
               (map tracker_of peers) t)).
Proof. reflexivity. Qed.

(** A train pass that returns went through every batch, then the barrier,
    then the epoch summary; it leaves the learning rate alone. *)
Lemma train_Ok w peers dl m o epoch args r :
  outcome (train w peers dl m o epoch args) = Ok r →
  trace (train w peers dl m o epoch args)
  = pass_events w TRAIN peers dl epoch args
  ∧ r = after_batches (length dl) m o.
Proof.
  intros Hok. unfold train in *.
  bind_Ok Hok as u0 H0. bind_Ok Hok as st Hloop.
  destruct st as [[m' o'] t'].
  eapply (for_enumerate_Ok _
            (batch_events TRAIN (writer_on args) epoch (length dl))
            (λ b (s : Model * Optimizer * gmap string Accumulator),
               let '(m, o, t) := s in
               (apply_update m, optimizer_step o, observe_batch b t)))
    in Hloop as [-> Hst].
  2: { intros idx b [[m1 o1] t1] s'. apply train_batch_Ok. }
  rewrite train_loop_state in Hst. injection Hst as -> -> ->.
  bind_Ok Hok as u1 H1. rewrite synchronize_and_summarize_run in Hok |- *.
  bind_Ok Hok as t2 H2. simpl in H2. injection H2 as <-.
  bind_Ok Hok as u3 H3. simpl in Hok. injection Hok as <-.
  split; [|done]. unfold pass_events, reduced_tracker.
  rewrite <- tracker_of_fold. simpl. by rewrite !app_nil_r.
Qed.

(** A valid pass that returns went through every batch, then the barrier,
    then the epoch summary, and returns the reduced average of [acc1]. *)
Lemma valid_Ok w peers dl m epoch args score :
  outcome (valid w peers dl m epoch args) = Ok score →
  trace (valid w peers dl m epoch args)
  = pass_events w EVAL peers dl epoch args
  ∧ global_average (zero_policy w) "acc1" (reduced_tracker w peers dl)
    = Ok score.
Proof.
  intros Hok. unfold valid in *.
  bind_Ok Hok as u0 H0. bind_Ok Hok as st Hloop.
  eapply (for_enumerate_Ok _
            (batch_events EVAL (writer_on args) epoch (length dl))
            observe_batch) in Hloop as [-> ->].
  2: { intros idx b t1 s'. apply valid_batch_Ok. }
  bind_Ok Hok as u1 H1. rewrite synchronize_and_summarize_run in Hok |- *.
  bind_Ok Hok as t2 H2. simpl in H2. injection H2 as <-.
  bind_Ok Hok as u3 H3. simpl in Hok.
  unfold pass_events, reduced_tracker.
  rewrite <- tracker_of_fold in *. simpl. by rewrite !app_nil_r.
Qed.

(** ** One epoch *)

Lemma save_if_configured_Ok w args ck name u :
  outcome (save_if_configured w args ck name) = Ok u →
  trace (save_if_configured w args ck name) = save_events w args ck name.
Proof.
  unfold save_if_configured, save_events, save_path, save_on_main_process,
    getattr.
  destruct (args !! "save_dir") as [[|[]|z|q|s|d]|]; simpl; try done.
  - by destruct (negb (z =? 0)).
  - by destruct (negb (Qeq_bool q 0)).
  - destruct (negb (String.eqb s "")); simpl; [|done].
    by destruct (is_main_process w).
Qed.

(** An epoch that returns ran the train pass, the valid pass, one
    scheduler step and the saves, in that order; the learning rate is the
    one the scheduler computed and the best accuracy the larger of the old
    one and the epoch's score. *)
Lemma run_epoch_Ok w run epoch run' :
  outcome (run_epoch w run epoch) = Ok run' →
  ∃ sc scheduler optimizer,
    score w epoch = Ok sc
    ∧ scheduler_step None (run_scheduler run)
        (after_batches (length (train_batches w epoch))
           (run_model run) (run_optimizer run)).2
      = Ok (scheduler, optimizer)
    ∧ let model := (after_batches (length (train_batches w epoch))
                      (run_model run) (run_optimizer run)).1 in
      trace (run_epoch w run epoch)
      = epoch_events w run epoch sc
          (checkpoint_of epoch model optimizer scheduler)
      ∧ run' = {| run_args := run_args run; run_model := model;
                  run_optimizer := optimizer; run_scheduler := scheduler;
                  best_accuracy := if Qltb (best_accuracy run) sc then sc
                                   else best_accuracy run |}.
Proof.
  intros Hok. unfold run_epoch in *.
  bind_Ok Hok as d Hd. bind_Ok Hok as u0 H0.
  bind_Ok Hok as mo Htrain. destruct mo as [model optimizer].
  apply train_Ok in Htrain as [-> Hmo].
  bind_Ok Hok as sc Hvalid. apply valid_Ok in Hvalid as [-> Hsc].
  bind_Ok Hok as u1 H1. bind_Ok Hok as so Hstep.
  destruct so as [scheduler optimizer'].
  bind_Ok Hok as u2 Hsave. apply save_if_configured_Ok in Hsave as ->.
  exists sc, scheduler, optimizer'. rewrite <- Hmo. simpl.
  split; [done|]. split; [done|].
  unfold epoch_events, checkpoint_of.
  unfold getattr in Hd. simpl in Hd.
  destruct (run_args run !! "distributed") as [dv|]; [|done].
  injection Hd as <-.
  assert (Hset : trace (if truthy dv then emit (EvSetEpoch epoch)
                        else mret ())
                 = if truthy dv then [EvSetEpoch epoch] else []).
  { by destruct (truthy dv). }
  rewrite Hset. clear Hset H0.
  destruct (Qltb (best_accuracy run) sc).
  - bind_Ok Hok as u3 Hbest. apply save_if_configured_Ok in Hbest as ->.
    simpl in Hok. injection Hok as <-. simpl.
    split; [|done]. by rewrite !app_nil_r, <- !(assoc_L (++)).
  - simpl in Hok. injection Hok as <-. simpl.
    split; [|done]. by rewrite !app_nil_r, <- !(assoc_L (++)).
Qed.

(** ** Projections of the trace of a pass *)

Lemma returned_Ok {A : Type} (m : M A) :
  returned m = true → ∃ a, outcome m = Ok a.
Proof. unfold returned. destruct (outcome m); [eauto|done]. Qed.

Lemma filter_enum_flat {A : Type} (f : event → bool)
    (g : nat → A → list event) l : ∀ idx,
  List.filter f (enum_flat g idx l)
  = enum_flat (λ i x, List.filter f (g i x)) idx l.
Proof.
  induction l as [|x l IH]; intros idx; simpl; [done|].
  by rewrite List.filter_app, IH.
Qed.

Lemma enum_flat_nil {A B : Type} (g : nat → A → list B) l :
  (∀ i x, g i x = []) → ∀ idx, enum_flat g idx l = [].
Proof.
  intros Hg. induction l as [|x l IH]; intros idx; simpl; [done|].
  by rewrite Hg, IH.
Qed.

Lemma enum_flat_ext {A B : Type} (g h : nat → A → list B) l :
  (∀ i x, g i x = h i x) → ∀ idx, enum_flat g idx l = enum_flat h idx l.
Proof.
  intros Hg. induction l as [|x l IH]; intros idx; simpl; [done|].
  by rewrite Hg, IH.
Qed.

Lemma scalars_only_bind {A B : Type} (m : M A) (f : A → M B) :
  scalars_only m → (∀ a, scalars_only (f a)) → scalars_only (m ≫= f).
Proof.
  unfold scalars_only, mbind, M_mbind, M_bind. intros Hm Hf.
  destruct (outcome m) as [a|e]; simpl; [|done].
  apply Forall_app. split; [done|apply Hf].
Qed.

Lemma scalars_only_add_scalar writer tg v steps :
  scalars_only (add_scalar writer tg v steps).
Proof.
  unfold add_scalar. destruct writer; try by constructor.
  apply scalars_only_bind; [by constructor|].
  intros a. by repeat constructor.
Qed.

Lemma scalars_only_epoch_telemetry w p args t epoch :
  scalars_only (epoch_telemetry w p args t epoch).
Proof.
  unfold epoch_telemetry.
  apply scalars_only_bind; [by constructor|]. intros writer.
  destruct (truthy writer); [|by constructor].
  repeat (apply scalars_only_bind; [apply scalars_only_add_scalar|intros _]).
  apply scalars_only_add_scalar.
Qed.

Lemma filter_scalars_only {A : Type} (f : event → bool) (m : M A) :
  (∀ tg v s, f (EvAddScalar tg v s) = false) →
  scalars_only m → List.filter f (trace m) = [].
Proof.
  intros Hf. unfold scalars_only.
  induction (trace m) as [|e t IH]; [done|].
  intros [He Ht]%Forall_cons. simpl. destruct e; try done.
  rewrite Hf. by apply IH.
Qed.

Lemma barriers_pass_events w p peers dl epoch args :
  barriers (pass_events w p peers dl epoch args) = [EvSynchronize p].
Proof.
  unfold barriers, pass_events. rewrite !List.filter_app, filter_enum_flat.
  rewrite enum_flat_nil.
  2: { intros i b. by destruct p, (writer_on args). }
  rewrite (filter_scalars_only is_barrier);
    [done|done|apply scalars_only_epoch_telemetry].
Qed.

Lemma steps_pass_events w p peers dl epoch args :
  steps (pass_events w p peers dl epoch args) = [EvMode p; EvSummarize p epoch].
Proof.
  unfold steps, pass_events. rewrite !List.filter_app, filter_enum_flat.
  rewrite enum_flat_nil.
  2: { intros i b. by destruct p, (writer_on args). }
  rewrite (filter_scalars_only is_step);
    [done|done|apply scalars_only_epoch_telemetry].
Qed.

Lemma batch_operations_train_events w peers dl epoch args :
  batch_operations (pass_events w TRAIN peers dl epoch args)
  = enum_flat train_batch_order 0 dl.
Proof.
  unfold batch_operations, pass_events.
  rewrite !List.filter_app, filter_enum_flat.
  rewrite (filter_scalars_only is_batch_operation);
    [|done|apply scalars_only_epoch_telemetry].
  simpl. rewrite app_nil_r. apply enum_flat_ext.
  intros i b. by destruct (writer_on args).
Qed.

Lemma filter_save_events f w args ck name :
  (∀ path c, f (EvWrite path c) = false) →
  List.filter f (save_events w args ck name) = [].
Proof.
  intros Hf. unfold save_events.
  destruct (save_path args name); [|done].
  destruct (is_main_process w); [|done]. simpl. by rewrite Hf.
Qed.

(** ** Barriers *)

(** C1. In an epoch of the driver loop, a process calls the tracker's
    [synchronize_between_processes] exactly twice, at the end of the train
    pass and then at the end of the valid pass; the sequence does not
    depend on the process. *)
Theorem barriers_per_epoch w run epoch :
  returned (run_epoch w run epoch) = true →
  barriers (trace (run_epoch w run epoch))
  = [EvSynchronize TRAIN; EvSynchronize EVAL].
Proof.
  intros [run' Hok]%returned_Ok.
  apply run_epoch_Ok in Hok as (sc & scheduler & optimizer & _ & _ & -> & _).
  unfold epoch_events, barriers.
  rewrite !List.filter_app. fold (barriers).
  rewrite !(filter_save_events is_barrier) by done.
  assert (Hbest : List.filter is_barrier
            (if Qltb (best_accuracy run) sc
             then save_events w (run_args run)
                    (checkpoint_of epoch
                       (after_batches (length (train_batches w epoch))
                          (run_model run) (run_optimizer run)).1
                       optimizer scheduler) "best_checkpoint.pth"
             else []) = []).
  { destruct (Qltb _ _); [|done]. by apply filter_save_events. }
  rewrite Hbest.
  change (List.filter is_barrier) with barriers.
  rewrite !barriers_pass_events.
  by destruct (run_args run !! "distributed") as [d|]; [destruct (truthy d)|].
Qed.

Lemma barriers_per_epoch_witness :
  returned (run_epoch (single_process rising ReturnZero ∅)
              (demo_run demo_args) 3) = true
  ∧ barriers (trace (run_epoch (single_process rising ReturnZero ∅)
                       (demo_run demo_args) 3))
    = [EvSynchronize TRAIN; EvSynchronize EVAL].
Proof.
  split; [vm_compute; reflexivity|].
  apply barriers_per_epoch. vm_compute; reflexivity.
Defined.

(** ** The order of operations in a batch *)

(** C6, as stated: the gradients would be reset before the forward pass.
    In a train pass over one batch that runs to its end, the operations
    do not come in the stated order. *)
Lemma stated_batch_order_fails :
  let t := train (single_process rising ReturnZero ∅) []
             [demo_batch 1 (1 # 2) 1] {| weights := 0 |} (AdamW (1 # 1000))
             0 demo_args in
  returned t = true
  ∧ batch_operations (trace t)
    ≠ enum_flat stated_batch_order 0 [demo_batch 1 (1 # 2) 1].
Proof. split; [reflexivity|]. vm_compute. discriminate. Qed.

(** C6, amended. In a train pass, for every batch the operations occur in
    the order: forward, loss, metrics, gradient reset, backward, optimizer
    step, metric recording. *)
Theorem train_batch_operations w peers dl m o epoch args :
  returned (train w peers dl m o epoch args) = true →
  batch_operations (trace (train w peers dl m o epoch args))
  = enum_flat train_batch_order 0 dl.
Proof.
  intros [r Hok]%returned_Ok. apply train_Ok in Hok as [-> _].
  apply batch_operations_train_events.
Qed.

Lemma train_batch_operations_witness :
  let dl := [demo_batch 1 (1 # 2) 1; demo_batch (1 # 2) (3 # 4) 1] in
  let t := train (single_process rising ReturnZero ∅) [] dl
             {| weights := 0 |} (AdamW (1 # 1000)) 0 demo_args in
  returned t = true
  ∧ batch_operations (trace t) = enum_flat train_batch_order 0 dl.
Proof.
  split; [vm_compute; reflexivity|].
  apply train_batch_operations. vm_compute; reflexivity.
Defined.

(** ** Telemetry *)

Lemma take_action_writer cv a arg ns ns' :
  In a (actions init_parser) →
  ns !! "writer" = None →
  take_action cv a arg ns = Some ns' →
  ns' !! "writer" = None.
Proof.
  intros Hin Hw. unfold take_action, setattr.
  assert (Hd : dest a ≠ "writer").
  { revert Hin. vm_compute. intros Hin.
    repeat (destruct Hin as [<-|Hin]; [discriminate|]). destruct Hin. }
  destruct (action a), arg; try done.
  - destruct (get_value cv type s); [|done]. simpl. intros [= <-].
    by rewrite lookup_insert_ne.
  - intros [= <-]. by rewrite lookup_insert_ne.
  - intros [= <-]. by rewrite lookup_insert_ne.
Qed.

(** The parser never binds [writer]. *)
Lemma parse_args_writer cv argv args :
  parse_args cv init_parser argv = Some args → args !! "writer" = None.
Proof.
  apply (parse_args_inv cv init_parser (λ ns, ns !! "writer" = None));
    [|by vm_compute].
  intros a arg ns ns'. apply take_action_writer.
Qed.

Lemma epoch_telemetry_unbound w p args t epoch :
  args !! "writer" = None →
  outcome (epoch_telemetry w p args t epoch) = Raise (AttributeError "writer").
Proof. intros Hw. unfold epoch_telemetry, getattr. by rewrite Hw. Qed.

(** With [writer] unbound, no train pass and no valid pass returns. *)
Lemma passes_need_writer w peers dl m o epoch args :
  args !! "writer" = None →
  returned (train w peers dl m o epoch args) = false
  ∧ returned (valid w peers dl m epoch args) = false.
Proof.
  intros Hw. split.
  - destruct (returned _) eqn:Hr; [|done].
    apply returned_Ok in Hr as [r Hok]. unfold train in Hok.
    bind_Ok Hok as u0 H0. bind_Ok Hok as st Hloop.
    destruct st as [[m' o'] t'].
    bind_Ok Hok as u1 H1. bind_Ok Hok as t2 H2. bind_Ok Hok as u3 H3.
    by rewrite epoch_telemetry_unbound in H3.
  - destruct (returned _) eqn:Hr; [|done].
    apply returned_Ok in Hr as [r Hok]. unfold valid in Hok.
    bind_Ok Hok as u0 H0. bind_Ok Hok as st Hloop.
    bind_Ok Hok as u1 H1. bind_Ok Hok as t2 H2. bind_Ok Hok as u3 H3.
    by rewrite epoch_telemetry_unbound in H3.
Qed.

(** C8, at a run without [--tensorboard-dir]: the first train pass goes
    through its first batch up to the telemetry guard and raises there on
    the unbound attribute [args.writer], before any barrier. *)
Theorem telemetry_unconfigured_raises :
  ∃ m : M Run,
    script demo_cv (single_process rising ReturnZero ∅) ["/data"] = Some m
    ∧ outcome m = Raise (AttributeError "writer")
    ∧ trace m
      = [EvMode TRAIN; EvToDevice TRAIN 0; EvForward TRAIN 0;
         EvCriterion TRAIN 0; EvEvaluator TRAIN 0; EvZeroGrad 0;
         EvBackward 0; EvOptimizerStep 0; EvUpdate TRAIN "loss" 1;
         EvUpdate TRAIN "acc1" (1 # 2); EvUpdate TRAIN "acc5" 1;
         EvDisplay TRAIN 0 0].
Proof. eexists. split; [vm_compute; reflexivity|]. by split. Qed.

(** ** The tracker: sums, counts and the reduction *)

Lemma trackers_observe_batch_acc1 b t :
  trackers "acc1" (observe_batch b t)
  = {| last_value := b_acc1 b;
       running_sum := (running_sum (trackers "acc1" t) + b_acc1 b)%Q;
       running_count := running_count (trackers "acc1" t) + 1 |}.
Proof.
  unfold observe_batch. rewrite (trackers_update_ne "acc1" "acc5") by done.
  unfold trackers at 1, update at 1. rewrite lookup_insert_eq.
  by rewrite (trackers_update_ne "acc1" "loss") by done.
Qed.

Lemma Qsum_app l1 l2 : (Qsum (l1 ++ l2) == Qsum l1 + Qsum l2)%Q.
Proof.
  induction l1 as [|x l1 IH]; simpl.
  - by rewrite Qplus_0_l.
  - rewrite IH. by rewrite Qplus_assoc.
Qed.

Lemma fold_observe_acc1 dl : ∀ t,
  let t' := fold_left (λ t b, observe_batch b t) dl t in
  running_count (trackers "acc1" t')
  = running_count (trackers "acc1" t) + Z.of_nat (length dl)
  ∧ (running_sum (trackers "acc1" t')
     == running_sum (trackers "acc1" t) + Qsum (map b_acc1 dl))%Q.
Proof.
  induction dl as [|b dl IH]; intros t; simpl.
  - split; [lia|]. by rewrite Qplus_0_r.
  - destruct (IH (observe_batch b t)) as [Hc Hs]. simpl in Hc, Hs.
    rewrite Hc, Hs, trackers_observe_batch_acc1. simpl.
    split; [lia|]. by rewrite Qplus_assoc.
Qed.

Lemma tracker_of_acc1 dl :
  running_count (trackers "acc1" (tracker_of dl)) = Z.of_nat (length dl)
  ∧ (running_sum (trackers "acc1" (tracker_of dl))
     == Qsum (map b_acc1 dl))%Q.
Proof.
  rewrite tracker_of_fold.
  destruct (fold_observe_acc1 dl ∅) as [Hc Hs]. simpl in Hc, Hs.
  unfold trackers at 2 in Hc. unfold trackers at 2 in Hs.
  rewrite lookup_empty in Hc, Hs. simpl in Hc, Hs.
  split; [done|]. by rewrite Hs, Qplus_0_l.
Qed.

Lemma trackers_all_reduce k (t p : gmap string Accumulator) :
  let r := union_with (λ a b, Some (all_reduce a b)) t p in
  running_count (trackers k r)
  = running_count (trackers k t) + running_count (trackers k p)
  ∧ (running_sum (trackers k r)
     == running_sum (trackers k t) + running_sum (trackers k p))%Q.
Proof.
  simpl. unfold trackers. rewrite lookup_union_with.
  destruct (t !! k) as [a|], (p !! k) as [b|]; simpl.
  - done.
  - split; [lia|]. by rewrite Qplus_0_r.
  - split; [lia|]. by rewrite Qplus_0_l.
  - done.
Qed.

Lemma reduce_acc1 peers : ∀ t,
  let r := fold_left (union_with (λ a b, Some (all_reduce a b)))
             (map tracker_of peers) t in
  running_count (trackers "acc1" r)
  = running_count (trackers "acc1" t) + Z.of_nat (length (concat peers))
  ∧ (running_sum (trackers "acc1" r)
     == running_sum (trackers "acc1" t) + Qsum (map b_acc1 (concat peers)))%Q.
Proof.
  induction peers as [|p peers IH]; intros t; simpl.
  - split; [lia|]. by rewrite Qplus_0_r.
  - destruct (IH (union_with (λ a b, Some (all_reduce a b)) t (tracker_of p)))
      as [Hc Hs]. simpl in Hc, Hs.
    destruct (trackers_all_reduce "acc1" t (tracker_of p)) as [Hc1 Hs1].
    simpl in Hc1, Hs1.
    destruct (tracker_of_acc1 p) as [Hc2 Hs2].
    rewrite Hc, Hs, Hc1, Hs1, Hc2, Hs2.
    rewrite length_app, map_app, Qsum_app.
    split; [lia|]. by rewrite !Qplus_assoc.
Qed.

(** After the barrier, sum and count of [acc1] are those of all the
    batches that take part in the reduction. *)
Lemma reduced_tracker_acc1 w peers dl :
  running_count (trackers "acc1" (reduced_tracker w peers dl))
  = Z.of_nat (length (reduced_batches w peers dl))
  ∧ (running_sum (trackers "acc1" (reduced_tracker w peers dl))
     == Qsum (map b_acc1 (reduced_batches w peers dl)))%Q.
Proof.
  unfold reduced_tracker, reduced_batches, synchronize_between_processes.
  destruct (is_distributed w); [|apply tracker_of_acc1].
  destruct (reduce_acc1 peers (tracker_of dl)) as [Hc Hs]. simpl in Hc, Hs.
  destruct (tracker_of_acc1 dl) as [Hc2 Hs2].
  rewrite Hc, Hs, Hc2, Hs2, length_app, map_app, Qsum_app.
  split; [lia|done].
Qed.

(** What [global_average] returns is the mean over those batches. *)
Lemma global_average_acc1_mean w peers dl sc :
  global_average (zero_policy w) "acc1" (reduced_tracker w peers dl) = Ok sc →
  (sc == mean (map b_acc1 (reduced_batches w peers dl)))%Q.
Proof.
  unfold global_average, mean.
  destruct (reduced_tracker_acc1 w peers dl) as [Hc Hs].
  rewrite length_map, <- Hc.
  destruct (running_count _ =? 0) eqn:Hz.
  - apply Z.eqb_eq in Hz. rewrite Hz.
    destruct (zero_policy w); [|done]. intros [= <-].
    unfold Qdiv. simpl. by rewrite Qmult_0_r.
  - intros [= <-]. by rewrite Hs.
Qed.

(** ** The value returned by the valid pass *)

(** C7. In every epoch the valid pass returns one scalar, the average of
    the top-1 accuracy over the batches of all processes after the
    reduction, and that scalar is the one compared with [best_accuracy]. *)
Theorem valid_score_selects_best w run epoch :
  returned (run_epoch w run epoch) = true →
  ∃ sc run',
    outcome (run_epoch w run epoch) = Ok run'
    ∧ outcome (valid w (peer_valid w epoch) (valid_batches w epoch)
                 (after_batches (length (train_batches w epoch))
                    (run_model run) (run_optimizer run)).1
                 epoch (run_args run)) = Ok sc
    ∧ (sc == mean (map b_acc1
                     (reduced_batches w (peer_valid w epoch)
                        (valid_batches w epoch))))%Q
    ∧ best_accuracy run'
      = if Qltb (best_accuracy run) sc then sc else best_accuracy run.
Proof.
  intros [run' Hok]%returned_Ok.
  assert (Hok0 := Hok). assert (Hok' := Hok).
  apply run_epoch_Ok in Hok' as (sc0 & scheduler & optimizer & Hsc0 & _ & _ & Hrun).
  unfold run_epoch in Hok.
  bind_Ok Hok as d Hd. bind_Ok Hok as u0 H0.
  bind_Ok Hok as mo Htrain. destruct mo as [model optimizer0].
  apply train_Ok in Htrain as [_ Hmo].
  bind_Ok Hok as sc Hvalid.
  assert (Hsc := Hvalid). apply valid_Ok in Hsc as [_ Hsc].
  unfold score in Hsc0. rewrite Hsc in Hsc0. injection Hsc0 as <-.
  exists sc, run'. rewrite <- Hmo. simpl.
  split; [done|]. split; [done|].
  split; [by apply global_average_acc1_mean in Hsc|].
  by rewrite Hrun.
Qed.

Lemma valid_score_selects_best_witness :
  let w := single_process rising ReturnZero ∅ in
  let run := demo_run demo_args in
  returned (run_epoch w run 3) = true
  ∧ ∃ sc run',
      outcome (run_epoch w run 3) = Ok run'
      ∧ outcome (valid w (peer_valid w 3) (valid_batches w 3)
                   (after_batches (length (train_batches w 3))
                      (run_model run) (run_optimizer run)).1
                   3 (run_args run)) = Ok sc
      ∧ (sc == mean (map b_acc1
                       (reduced_batches w (peer_valid w 3)
                          (valid_batches w 3))))%Q
      ∧ best_accuracy run'
        = if Qltb (best_accuracy run) sc then sc else best_accuracy run.
Proof.
  intros w run. split; [vm_compute; reflexivity|].
  apply (valid_score_selects_best w run 3). vm_compute; reflexivity.
Defined.

(** ** Resuming and the set-up of a run *)

Lemma resume_Ok w args m o s args1 m1 o1 s1 :
  outcome (resume w args m o s) = Ok (args1, m1, o1, s1) →
  ∃ r, args !! "resume" = Some r ∧
    if truthy r then
      ∃ path ck start,
        r = VStr path ∧ files w !! path = Some ck ∧ ck_model ck = Some m1
        ∧ args1 = (restored ck args o s).1.1
        ∧ attr_int args1 "start_epoch" = Ok start
        ∧ scheduler_step (Some start) (restored ck args o s).2
            (restored ck args o s).1.2 = Ok (s1, o1)
        ∧ trace (resume w args m o s) = [EvSchedulerStep (Some start)]
    else (args1, m1, o1, s1) = (args, m, o, s)
         ∧ trace (resume w args m o s) = [].
Proof.
  intros Hok. unfold resume in Hok |- *.
  bind_Ok Hok as r Hr. simpl in Hr. unfold getattr in Hr.
  destruct (args !! "resume") as [r'|] eqn:Hres; [|done].
  injection Hr as ->. exists r. split; [done|].
  cbn [trace lift app].
  destruct (truthy r).
  - bind_Ok Hok as path Hpath. bind_Ok Hok as ck Hck. bind_Ok Hok as m' Hm.
    simpl in Hpath, Hck, Hm.
    fold (restored ck args o s) in Hok |- *.
    destruct (restored ck args o s) as [[args' o'] s'] eqn:Hrest.
    bind_Ok Hok as start Hstart. bind_Ok Hok as u Hu.
    bind_Ok Hok as so Hstep. destruct so as [s2 o2].
    simpl in Hstart, Hstep, Hok. injection Hok as <- <- <- <-.
    destruct r as [| | | |p|]; try done. simpl in Hpath. injection Hpath as ->.
    destruct (files w !! path) as [ck'|] eqn:Hf; [|done]. injection Hck as ->.
    destruct (ck_model ck) as [m''|] eqn:Hm'; [|done]. injection Hm as ->.
    exists path, ck, start. rewrite Hrest. simpl. by repeat split.
  - simpl in Hok. injection Hok as <- <- <- <-. done.
Qed.

Lemma setup_Ok w args run :
  outcome (setup w args) = Ok run →
  let args0 := initialize_distributed_mode w args in
  ∃ o0 s0 args1 m1 o1 s1,
    fresh_optimizer args0 = Ok o0
    ∧ fresh_scheduler args0 = Ok s0
    ∧ outcome (resume w args0 {| weights := 0 |} o0 s0)
      = Ok (args1, m1, o1, s1)
    ∧ with_writer w args1 = Ok (run_args run)
    ∧ run_model run = m1 ∧ run_optimizer run = o1 ∧ run_scheduler run = s1
    ∧ best_accuracy run = 0%Q.
Proof.
  intros Hok args0. unfold setup in Hok. fold args0 in Hok.
  bind_Ok Hok as v0 H0. bind_Ok Hok as d Hd. bind_Ok Hok as v1 H1.
  bind_Ok Hok as v2 H2. bind_Ok Hok as v3 H3.
  bind_Ok Hok as lr Hlr. bind_Ok Hok as ss Hss. bind_Ok Hok as g Hg.
  bind_Ok Hok as st Hres. destruct st as [[[args1 m1] o1] s1].
  bind_Ok Hok as sd Hsd. bind_Ok Hok as u4 H4. bind_Ok Hok as td Htd.
  bind_Ok Hok as args2 Hw. simpl in Hok. injection Hok as <-.
  simpl in Hlr, Hss, Hg, Htd.
  exists (AdamW lr), (StepLR_init (AdamW lr) ss g), args1, m1, o1, s1.
  unfold fresh_optimizer, fresh_scheduler, attr_float, attr_int, with_writer.
  rewrite Hlr, Hss, Hg, Htd. simpl.
  repeat split; try done.
  destruct (truthy td); [|done].
  destruct (is_main_process w); [|done].
  unfold mbind, M_mbind, M_bind in Hw. simpl in Hw.
  by destruct (as_str "tensorboard_dir" td).
Qed.

Lemma with_writer_other w args args' k :
  with_writer w args = Ok args' → k ≠ "writer" → args' !! k = args !! k.
Proof.
  unfold with_writer, getattr, setattr. intros Hw Hk.
  destruct (args !! "tensorboard_dir") as [td|]; [|done]. simpl in Hw.
  destruct (truthy td); [|by injection Hw as <-].
  destruct (is_main_process w).
  - destruct (as_str "tensorboard_dir" td); [|done]. simpl in Hw.
    injection Hw as <-. by rewrite lookup_insert_ne.
  - simpl in Hw. injection Hw as <-. by rewrite lookup_insert_ne.
Qed.

Lemma attr_int_ext args args' k :
  args' !! k = args !! k → attr_int args' k = attr_int args k.
Proof. unfold attr_int, getattr. by intros ->. Qed.

Lemma attr_float_ext args args' k :
  args' !! k = args !! k → attr_float args' k = attr_float args k.
Proof. unfold attr_float, getattr. by intros ->. Qed.

Lemma fresh_scheduler_Ok args s0 :
  fresh_scheduler args = Ok s0 →
  ∃ lr ss g, attr_float args "lr" = Ok lr ∧ attr_int args "step_size" = Ok ss
    ∧ attr_float args "gamma" = Ok g
    ∧ s0 = StepLR_init (AdamW lr) ss g.
Proof.
  unfold fresh_scheduler.
  destruct (attr_float args "lr") as [lr|]; [|done]. simpl.
  destruct (attr_int args "step_size") as [ss|]; [|done]. simpl.
  destruct (attr_float args "gamma") as [g|]; [|done]. simpl.
  intros [= <-]. by exists lr, ss, g.
Qed.

(** C2, as stated: a resume from a checkpoint without optimizer and
    scheduler would start at epoch 0 with a fresh scheduler. With
    [--start-epoch 5] on the command line it starts at epoch 5, the
    scheduler moved to epoch 5. *)
Lemma partial_resume_manual_start_epoch :
  parse_args demo_cv init_parser
    ["/data"; "--resume"; "ck.pth"; "--start-epoch"; "5"]
  = Some (resumed_args 5)
  ∧ outcome (setup partial_world (resumed_args 5)) = Ok (partially_resumed 5)
  ∧ attr_int (run_args (partially_resumed 5)) "start_epoch" ≠ Ok 0
  ∧ Ok (run_scheduler (partially_resumed 5))
    ≠ fresh_scheduler (resumed_args 5).
Proof.
  split; [vm_compute; reflexivity|].
  split; [vm_compute; reflexivity|].
  split; vm_compute; discriminate.
Qed.

(** C2, amended. If [--resume] is given and the loaded checkpoint lacks
    any of the keys [optimizer], [scheduler] and [epoch], then training
    starts at the epoch given by [--start-epoch] (0 by default), never at
    the checkpoint's epoch + 1; the optimizer state is the fresh one, and
    the scheduler is the fresh one moved to that start epoch by
    [scheduler.step(start_epoch)], which at start epoch 0 is the fresh
    scheduler with the initial learning rate. *)
Theorem partial_resume w args run path ck :
  outcome (setup w args) = Ok run →
  args !! "resume" = Some (VStr path) → path ≠ "" →
  files w !! path = Some ck →
  ck_optimizer ck = None ∨ ck_scheduler ck = None ∨ ck_epoch ck = None →
  ∃ start o0 s0,
    attr_int args "start_epoch" = Ok start
    ∧ attr_int (run_args run) "start_epoch" = Ok start
    ∧ fresh_optimizer (initialize_distributed_mode w args) = Ok o0
    ∧ fresh_scheduler (initialize_distributed_mode w args) = Ok s0
    ∧ opt_step (run_optimizer run) = 0%nat
    ∧ scheduler_step (Some start) s0 o0
      = Ok (run_scheduler run, run_optimizer run)
    ∧ (start = 0 →
       run_scheduler run = s0
       ∧ (opt_lr (run_optimizer run) == opt_lr o0)%Q).
Proof.
  intros Hok Hres Hpath Hfile Hpartial.
  apply setup_Ok in Hok
    as (o0 & s0 & args1 & m1 & o1 & s1 & Ho0 & Hs0 & Hresume & Hw
        & _ & -> & -> & _).
  apply resume_Ok in Hresume as (r & Hr & Hcase).
  rewrite initialize_distributed_mode_other in Hr by done.
  rewrite Hres in Hr. injection Hr as <-.
  assert (Htr : truthy (VStr path) = true).
  { simpl. by destruct (String.eqb_spec path ""). }
  rewrite Htr in Hcase.
  destruct Hcase as (path' & ck' & start & [= <-] & Hf & _ & Hargs1 & Hstart
                     & Hstep & _).
  rewrite Hfile in Hf. injection Hf as <-.
  assert (Hrest : restored ck (initialize_distributed_mode w args) o0 s0
                  = (initialize_distributed_mode w args, o0, s0)).
  { unfold restored. by destruct Hpartial as [-> | [-> | ->]];
      repeat case_match. }
  rewrite Hrest in Hargs1, Hstep. simpl in Hargs1, Hstep. subst args1.
  exists start, o0, s0.
  assert (Hstart0 : attr_int args "start_epoch" = Ok start).
  { rewrite <- Hstart. symmetry. apply attr_int_ext.
    by apply initialize_distributed_mode_other. }
  split; [done|]. split.
  { rewrite <- Hstart. apply attr_int_ext.
    by apply (with_writer_other w _ _ _ Hw). }
  split; [done|]. split; [done|].
  unfold fresh_optimizer in Ho0.
  destruct (attr_float _ "lr") as [lr|] eqn:Hlr; [|done].
  simpl in Ho0. injection Ho0 as <-.
  apply fresh_scheduler_Ok in Hs0 as (lr' & ss & g & Hlr' & Hss & Hg & ->).
  rewrite Hlr in Hlr'. injection Hlr' as <-.
  assert (Hstep' := Hstep).
  unfold scheduler_step, closed_form_lr in Hstep'. simpl in Hstep'.
  destruct (ss =? 0) eqn:Hss0; [done|]. simpl in Hstep'.
  destruct ((start / ss <? 0) && Qeq_bool g 0); [done|]. simpl in Hstep'.
  injection Hstep' as Hs1 Ho1.
  split; [by rewrite <- Ho1|]. split; [done|].
  intros ->. rewrite <- Hs1, <- Ho1.
  rewrite Z.div_0_l by (by apply Z.eqb_neq).
  split; [done|]. simpl. change (fpow g 0) with 1%Q. reflexivity.
Qed.

Lemma partial_resume_witness :
  outcome (setup partial_world (resumed_args 0)) = Ok (partially_resumed 0)
  ∧ resumed_args 0 !! "resume" = Some (VStr "ck.pth")
  ∧ "ck.pth" ≠ ""
  ∧ files partial_world !! "ck.pth" = Some partial_checkpoint
  ∧ (ck_optimizer partial_checkpoint = None
     ∨ ck_scheduler partial_checkpoint = None
     ∨ ck_epoch partial_checkpoint = None)
  ∧ ∃ start o0 s0,
      attr_int (resumed_args 0) "start_epoch" = Ok start
      ∧ attr_int (run_args (partially_resumed 0)) "start_epoch" = Ok start
      ∧ fresh_optimizer
          (initialize_distributed_mode partial_world (resumed_args 0)) = Ok o0
      ∧ fresh_scheduler
          (initialize_distributed_mode partial_world (resumed_args 0)) = Ok s0
      ∧ opt_step (run_optimizer (partially_resumed 0)) = 0%nat
      ∧ scheduler_step (Some start) s0 o0
        = Ok (run_scheduler (partially_resumed 0),
              run_optimizer (partially_resumed 0))
      ∧ (start = 0 →
         run_scheduler (partially_resumed 0) = s0
         ∧ (opt_lr (run_optimizer (partially_resumed 0)) == opt_lr o0)%Q).
Proof.
  assert (H1 : outcome (setup partial_world (resumed_args 0))
               = Ok (partially_resumed 0)) by (vm_compute; reflexivity).
  assert (H2 : resumed_args 0 !! "resume" = Some (VStr "ck.pth"))
    by (vm_compute; reflexivity).
  assert (H3 : "ck.pth" ≠ "") by discriminate.
  assert (H4 : files partial_world !! "ck.pth" = Some partial_checkpoint)
    by (vm_compute; reflexivity).
  assert (H5 : ck_optimizer partial_checkpoint = None
               ∨ ck_scheduler partial_checkpoint = None
               ∨ ck_epoch partial_checkpoint = None) by (left; reflexivity).
  repeat (split; [assumption|]).
  exact (partial_resume partial_world (resumed_args 0) (partially_resumed 0)
           "ck.pth" partial_checkpoint H1 H2 H3 H4 H5).
Defined.

(** ** The epoch loop *)

Lemma range_nil a b : b ≤ a → range a b = [].
Proof. intros. unfold range. by replace (Z.to_nat (b - a)) with 0%nat by lia. Qed.

Lemma range_cons a b : a < b → range a b = a :: range (a + 1) b.
Proof.
  intros. unfold range.
  replace (Z.to_nat (b - a)) with (S (Z.to_nat (b - (a + 1)))) by lia.
  simpl. f_equal; [lia|]. rewrite <- seq_shift, map_map.
  apply map_ext. intros i. lia.
Qed.

Lemma range_snoc a b : a ≤ b → range a (b + 1) = (range a b ++ [b])%list.
Proof.
  intros. unfold range.
  replace (Z.to_nat (b + 1 - a)) with (Z.to_nat (b - a) + 1)%nat by lia.
  rewrite seq_app, map_app. simpl. do 2 f_equal. lia.
Qed.

Lemma range_In a b e : In e (range a b) ↔ a ≤ e < b.
Proof.
  unfold range. rewrite in_map_iff. split.
  - intros (i & <- & Hi%in_seq). lia.
  - intros He. exists (Z.to_nat (e - a)). split; [lia|].
    apply in_seq. lia.
Qed.

Lemma range_sorted a b : StronglySorted Z.lt (range a b).
Proof.
  remember (Z.to_nat (b - a)) as n eqn:Hn. revert a Hn.
  induction n as [|n IH]; intros a Hn.
  - rewrite range_nil by lia. constructor.
  - rewrite range_cons by lia. constructor; [apply IH; lia|].
    apply Forall_forall. intros e He%list_elem_of_In%range_In. lia.
Qed.

Lemma steps_save_events w args ck name :
  steps (save_events w args ck name) = save_events w args ck name.
Proof.
  unfold save_events. destruct (save_path args name); [|done].
  by destruct (is_main_process w).
Qed.

Lemma save_events_writes_epoch w args e m o s name :
  Forall (writes_epoch e) (save_events w args (checkpoint_of e m o s) name).
Proof.
  unfold save_events. destruct (save_path args name) as [path|]; [|done].
  destruct (is_main_process w); [|done].
  repeat constructor. by eexists _, _.
Qed.

Lemma steps_epoch_events w run e sc ck :
  steps (epoch_events w run e sc ck)
  = epoch_steps e
      (save_events w (run_args run) ck "checkpoint.pth"
       ++ (if Qltb (best_accuracy run) sc
           then save_events w (run_args run) ck "best_checkpoint.pth"
           else []))%list.
Proof.
  unfold epoch_events, epoch_steps, steps.
  rewrite !List.filter_app. change (List.filter is_step) with steps.
  rewrite !steps_pass_events, steps_save_events.
  assert (Hd : steps match run_args run !! "distributed" with
                     | Some d => if truthy d then [EvSetEpoch e] else []
                     | None => []
                     end = []).
  { by destruct (run_args run !! "distributed") as [d|];
      [destruct (truthy d)|]. }
  rewrite Hd. simpl. do 6 f_equal.
  destruct (Qltb _ _); [apply steps_save_events|done].
Qed.

Lemma epoch_loop_Ok w run run' :
  outcome (epoch_loop w run) = Ok run' →
  ∃ start epochs,
    attr_int (run_args run) "start_epoch" = Ok start
    ∧ attr_int (run_args run) "epochs" = Ok epochs
    ∧ outcome (for_each (run_epoch w) (range start epochs) run) = Ok run'
    ∧ trace (epoch_loop w run)
      = trace (for_each (run_epoch w) (range start epochs) run).
Proof.
  intros Hok. unfold epoch_loop in *.
  bind_Ok Hok as start Hs. bind_Ok Hok as epochs He.
  simpl in Hs, He. exists start, epochs. by repeat split.
Qed.

Lemma run_epoch_args w run e run' :
  outcome (run_epoch w run e) = Ok run' → run_args run' = run_args run.
Proof.
  intros Hok. apply run_epoch_Ok in Hok as (? & ? & ? & _ & _ & _ & ->).
  done.
Qed.

(** C5. For every epoch of [range(start_epoch, epochs)], in increasing
    order, the driver runs one train pass, then one valid pass, then one
    scheduler step, and only then writes the checkpoint files of that
    epoch. *)
Theorem epoch_loop_steps w run :
  returned (epoch_loop w run) = true →
  ∃ start epochs writes,
    attr_int (run_args run) "start_epoch" = Ok start
    ∧ attr_int (run_args run) "epochs" = Ok epochs
    ∧ (∀ e, In e (range start epochs) ↔ start ≤ e < epochs)
    ∧ StronglySorted Z.lt (range start epochs)
    ∧ Forall2 (λ e ws, Forall (writes_epoch e) ws) (range start epochs) writes
    ∧ steps (trace (epoch_loop w run))
      = concat (zip_with epoch_steps (range start epochs) writes).
Proof.
  intros [run' Hok]%returned_Ok.
  apply epoch_loop_Ok in Hok as (start & epochs & Hs & He & Hloop & ->).
  pose (I := λ (seen : list Z) (s : Run) (t : list event),
          run_args s = run_args run
          ∧ ∃ writes,
              Forall2 (λ e ws, Forall (writes_epoch e) ws) seen writes
              ∧ steps t = concat (zip_with epoch_steps seen writes)).
  assert (HI : I ([] ++ range start epochs)%list run'
                 ([] ++ trace (for_each (run_epoch w) (range start epochs) run))%list).
  { apply (for_each_invariant (run_epoch w) I); [|by split; [|exists []]|done].
    intros seen s x s' t [Hargs (writes & Hw & Hst)] Hx.
    split; [by rewrite (run_epoch_args _ _ _ _ Hx)|].
    apply run_epoch_Ok in Hx as (sc & sched & opt & _ & _ & -> & _).
    assert (Happ : ∀ t1 t2, steps (t1 ++ t2) = (steps t1 ++ steps t2)%list)
      by (intros; apply List.filter_app).
    setoid_rewrite Happ. setoid_rewrite Hst.
    setoid_rewrite steps_epoch_events.
    match goal with
    | |- context [epoch_steps x ?ws] => exists (writes ++ [ws])%list
    end.
    split.
    - apply Forall2_app; [done|]. constructor; [|constructor].
      apply Forall_app. split; [apply save_events_writes_epoch|].
      destruct (Qltb (best_accuracy s) sc);
        [apply save_events_writes_epoch|constructor].
    - rewrite zip_with_app by (by eapply Forall2_length).
      rewrite concat_app. simpl. by rewrite app_nil_r. }
  destruct HI as [_ (writes & Hw & Hst)]. simpl in Hw, Hst.
  exists start, epochs, writes.
  split; [done|]. split; [done|].
  split; [intros e; apply range_In|]. split; [apply range_sorted|].
  by split.
Qed.

Lemma epoch_loop_steps_witness :
  let w := single_process rising ReturnZero ∅ in
  let run := demo_run short_args in
  returned (epoch_loop w run) = true
  ∧ ∃ start epochs writes,
      attr_int (run_args run) "start_epoch" = Ok start
      ∧ attr_int (run_args run) "epochs" = Ok epochs
      ∧ (∀ e, In e (range start epochs) ↔ start ≤ e < epochs)
      ∧ StronglySorted Z.lt (range start epochs)
      ∧ Forall2 (λ e ws, Forall (writes_epoch e) ws)
          (range start epochs) writes
      ∧ steps (trace (epoch_loop w run))
        = concat (zip_with epoch_steps (range start epochs) writes).
Proof.
  intros w run. split; [vm_compute; reflexivity|].
  apply (epoch_loop_steps w run). vm_compute; reflexivity.
Defined.

(** ** The best checkpoint *)

Lemma Qltb_lt x y : Qltb x y = true ↔ (x < y)%Q.
Proof.
  unfold Qltb. rewrite negb_true_iff. split.
  - intros H. apply Qnot_le_lt. intros Hle%Qle_bool_iff. congruence.
  - intros H. destruct (Qle_bool y x) eqn:E; [|done].
    apply Qle_bool_iff in E. by apply Qlt_not_le in H.
Qed.

Lemma Qltb_ge x y : Qltb x y = false ↔ (y <= x)%Q.
Proof.
  unfold Qltb. rewrite negb_false_iff. apply Qle_bool_iff.
Qed.

Lemma writes_to_app path t1 t2 :
  writes_to path (t1 ++ t2) = (writes_to path t1 ++ writes_to path t2)%list.
Proof. unfold writes_to. apply omap_app. Qed.

Lemma writes_to_no_write path t :
  Forall (λ e, match e with EvWrite _ _ => False | _ => True end) t →
  writes_to path t = [].
Proof.
  induction 1 as [|e t He _ IH]; [done|].
  unfold writes_to in *. simpl. destruct e; first [done | by rewrite IH].
Qed.

Lemma no_write_filter t :
  List.filter (λ e, match e with EvWrite _ _ => true | _ => false end) t = []
  → Forall (λ e, match e with EvWrite _ _ => False | _ => True end) t.
Proof.
  induction t as [|e t IH]; [done|]. simpl.
  destruct e; first [done | intros H; constructor; [done|by apply IH]].
Qed.

Lemma writes_to_pass_events path w p peers dl epoch args :
  writes_to path (pass_events w p peers dl epoch args) = [].
Proof.
  apply writes_to_no_write, no_write_filter.
  unfold pass_events. rewrite !List.filter_app, filter_enum_flat.
  rewrite enum_flat_nil.
  2: { intros i b. by destruct p, (writer_on args). }
  rewrite (filter_scalars_only _ (epoch_telemetry _ _ _ _ _));
    [done|done|apply scalars_only_epoch_telemetry].
Qed.

Lemma append_inj_l s a b : s +:+ a = s +:+ b → a = b.
Proof. induction s as [|c s IH]; simpl; [done|]. intros [= H]. by apply IH. Qed.

Lemma path_join_inj dir a b : path_join dir a = path_join dir b → a = b.
Proof.
  unfold path_join. destruct (_ || _).
  - apply append_inj_l.
  - intros H%append_inj_l. by injection H.
Qed.

Lemma save_path_inj args a b pa pb :
  save_path args a = Some pa → save_path args b = Some pb → a ≠ b → pa ≠ pb.
Proof.
  unfold save_path.
  destruct (args !! "save_dir") as [[| | | |dir|]|]; try done.
  destruct (truthy (VStr dir)); [|done].
  intros [= <-] [= <-] Hab Hp. by apply path_join_inj in Hp.
Qed.

Lemma save_path_some args a pa b :
  save_path args a = Some pa → ∃ pb, save_path args b = Some pb.
Proof.
  unfold save_path.
  destruct (args !! "save_dir") as [[| | | |dir|]|]; try done.
  destruct (truthy (VStr dir)); [eauto|done].
Qed.

(** The writes to the best-checkpoint file in an epoch: the record of the
    epoch if its score exceeds the best so far, nothing otherwise. *)
Lemma writes_to_best_epoch_events w run e sc ck bp :
  save_path (run_args run) "best_checkpoint.pth" = Some bp →
  is_main_process w = true →
  writes_to bp (epoch_events w run e sc ck)
  = if Qltb (best_accuracy run) sc then [ck] else [].
Proof.
  intros Hbp Hmain.
  destruct (save_path_some _ _ _ "checkpoint.pth" Hbp) as [cp Hcp].
  assert (Hne : cp ≠ bp) by (by eapply save_path_inj).
  unfold epoch_events. rewrite !writes_to_app, !writes_to_pass_events.
  unfold save_events. rewrite Hcp, Hbp, Hmain.
  assert (Hd : writes_to bp match run_args run !! "distributed" with
                            | Some d => if truthy d then [EvSetEpoch e] else []
                            | None => []
                            end = []).
  { by destruct (run_args run !! "distributed") as [d|];
      [destruct (truthy d)|]. }
  rewrite Hd. unfold writes_to. simpl.
  destruct (String.eqb_spec cp bp); [done|]. simpl.
  destruct (Qltb _ _); [|done]. simpl. by rewrite String.eqb_refl.
Qed.

(** In an epoch, the best accuracy never decreases, and the best
    checkpoint is rewritten exactly when the score exceeds it. *)
Lemma run_epoch_best w run e run' bp :
  outcome (run_epoch w run e) = Ok run' →
  save_path (run_args run) "best_checkpoint.pth" = Some bp →
  is_main_process w = true →
  ∃ sc ck,
    score w e = Ok sc ∧ ck_epoch ck = Some e
    ∧ (best_accuracy run <= best_accuracy run')%Q
    ∧ best_accuracy run'
      = (if Qltb (best_accuracy run) sc then sc else best_accuracy run)
    ∧ writes_to bp (trace (run_epoch w run e))
      = (if Qltb (best_accuracy run) sc then [ck] else []).
Proof.
  intros Hok Hbp Hmain.
  apply run_epoch_Ok in Hok as (sc & sched & opt & Hsc & _ & -> & ->).
  eexists sc, (checkpoint_of e _ opt sched). split; [done|].
  split; [reflexivity|]. simpl.
  split; [|split; [done|by apply writes_to_best_epoch_events]].
  destruct (Qltb _ _) eqn:Hlt.
  - by apply Qlt_le_weak, Qltb_lt.
  - apply Qle_refl.
Qed.

Lemma scores_bounded_nil w R b : scores_bounded w R b [].
Proof. by intros e []. Qed.

Lemma scores_bounded_app w R b l1 l2 :
  scores_bounded w R b l1 → scores_bounded w R b l2 →
  scores_bounded w R b (l1 ++ l2).
Proof.
  intros H1 H2 e [He|He]%in_app_or; [by apply H1|by apply H2].
Qed.

Lemma scores_bounded_one w (R : Q → Q → Prop) b e sc :
  score w e = Ok sc → R sc b → scores_bounded w R b [e].
Proof. intros Hsc HR e' [<-|[]]. eauto. Qed.

Lemma scores_bounded_weaken w (R R' : Q → Q → Prop) b b' l :
  (∀ sc, R sc b → R' sc b') →
  scores_bounded w R b l → scores_bounded w R' b' l.
Proof. intros HR H e He. destruct (H e He) as (sc & Hsc & Hb). eauto. Qed.

(** C4, as stated: the best checkpoint on disk after the run would be the
    one of the epoch with the highest score. [best_accuracy] starts at 0
    and only a strictly higher score is saved: in a run whose epochs all
    score 0, the rolling checkpoint is written twice and no best
    checkpoint is ever written. *)
Lemma best_checkpoint_missing_at_zero_scores :
  let w := single_process flat ReturnZero ∅ in
  let t := trace (epoch_loop w (demo_run short_args)) in
  returned (epoch_loop w (demo_run short_args)) = true
  ∧ score w 0 = Ok 0%Q ∧ score w 1 = Ok 0%Q
  ∧ length (writes_to "out/checkpoint.pth" t) = 2%nat
  ∧ writes_to "out/best_checkpoint.pth" t = []
  ∧ disk_after t ∅ !! "out/best_checkpoint.pth" = None.
Proof. intros w t. repeat split; vm_compute; reflexivity. Qed.

(** C4, amended. Across the epoch loop [best_accuracy] never decreases;
    the best checkpoint is rewritten in an epoch exactly when the epoch's
    score strictly exceeds the best so far (a tie rewrites nothing); and
    after the full run, if some score exceeded the initial best accuracy,
    the best checkpoint last written is the one of the first epoch that
    attains the highest score, while otherwise none was written. *)
Theorem best_checkpoint_selection w run bp :
  returned (epoch_loop w run) = true →
  save_path (run_args run) "best_checkpoint.pth" = Some bp →
  is_main_process w = true →
  ∃ start epochs run',
    attr_int (run_args run) "start_epoch" = Ok start
    ∧ attr_int (run_args run) "epochs" = Ok epochs
    ∧ outcome (epoch_loop w run) = Ok run'
    ∧ (best_accuracy run <= best_accuracy run')%Q
    ∧ (∀ r e r', run_args r = run_args run →
         outcome (run_epoch w r e) = Ok r' →
         ∃ sc ck, score w e = Ok sc ∧ ck_epoch ck = Some e
           ∧ (best_accuracy r <= best_accuracy r')%Q
           ∧ (Qltb (best_accuracy r) sc = true ↔ (best_accuracy r < sc)%Q)
           ∧ writes_to bp (trace (run_epoch w r e))
             = if Qltb (best_accuracy r) sc then [ck] else [])
    ∧ ((scores_bounded w Qle (best_accuracy run) (range start epochs)
        ∧ best_accuracy run' = best_accuracy run
        ∧ writes_to bp (trace (epoch_loop w run)) = [])
       ∨ (∃ e sc ck,
            first_maximum w (range start epochs) e sc
            ∧ (best_accuracy run < sc)%Q
            ∧ best_accuracy run' = sc
            ∧ last (writes_to bp (trace (epoch_loop w run))) = Some ck
            ∧ ck_epoch ck = Some e)).
Proof.
  intros [run' Hok]%returned_Ok Hbp Hmain.
  assert (Hok0 := Hok).
  apply epoch_loop_Ok in Hok as (start & epochs & Hs & He & Hloop & ->).
  exists start, epochs, run'.
  split; [done|]. split; [done|]. split; [done|].
  set (b0 := best_accuracy run).
  pose (I := λ (seen : list Z) (s : Run) (t : list event),
          run_args s = run_args run
          ∧ (b0 <= best_accuracy s)%Q
          ∧ ((scores_bounded w Qle b0 seen ∧ best_accuracy s = b0
              ∧ writes_to bp t = [])
             ∨ (∃ e sc ck, first_maximum w seen e sc ∧ (b0 < sc)%Q
                  ∧ best_accuracy s = sc
                  ∧ last (writes_to bp t) = Some ck ∧ ck_epoch ck = Some e))).
  assert (HI : I ([] ++ range start epochs)%list run'
                 ([] ++ trace (for_each (run_epoch w) (range start epochs)
                                 run))%list).
  { apply (for_each_invariant (run_epoch w) I); [| |done].
    2: { split; [done|]. split; [apply Qle_refl|]. left.
         split; [apply scores_bounded_nil|done]. }
    intros seen s x s' t (Hargs & Hmono & Hcase) Hx.
    assert (Hbp' : save_path (run_args s) "best_checkpoint.pth" = Some bp)
      by (by rewrite Hargs).
    destruct (run_epoch_best w s x s' bp Hx Hbp' Hmain)
      as (sc & ck & Hsc & Hck & Hle & Hbest & Hwr).
    split; [by rewrite (run_epoch_args _ _ _ _ Hx)|].
    split; [by eapply Qle_trans|].
    rewrite writes_to_app, Hwr, Hbest.
    destruct (Qltb (best_accuracy s) sc) eqn:Hlt.
    - apply Qltb_lt in Hlt. right. exists x, sc, ck.
      split.
      { exists seen, []. split; [done|]. split; [done|].
        split; [|apply scores_bounded_nil].
        destruct Hcase as [(Hb & Hbs & _)|(e & sc0 & ck0 & Hfm & _ & Hbs & _)].
        - eapply scores_bounded_weaken; [|exact Hb].
          intros q Hq. simpl in *. eapply Qle_lt_trans; [exact Hq|].
          by rewrite <- Hbs.
        - destruct Hfm as (l1 & l2 & -> & Hsc0 & H1 & H2).
          rewrite Hbs in Hlt.
          apply scores_bounded_app;
            [|apply (scores_bounded_app _ _ _ [e] l2)].
          + eapply scores_bounded_weaken; [|exact H1].
            intros q Hq. simpl in *. by eapply Qlt_trans.
          + by eapply scores_bounded_one.
          + eapply scores_bounded_weaken; [|exact H2].
            intros q Hq. simpl in *. by eapply Qle_lt_trans. }
      split; [by eapply Qle_lt_trans|]. split; [done|].
      split; [by rewrite last_snoc|done].
    - apply Qltb_ge in Hlt. rewrite app_nil_r.
      destruct Hcase as [(Hb & Hbs & Hw)|(e & sc0 & ck0 & Hfm & Hb0 & Hbs & Hl)].
      + left. split; [|done].
        apply scores_bounded_app; [done|].
        eapply scores_bounded_one; [done|]. by rewrite <- Hbs.
      + right. exists e, sc0, ck0. split; [|done].
        destruct Hfm as (l1 & l2 & -> & Hsc0 & H1 & H2).
        exists l1, (l2 ++ [x])%list.
        split; [by rewrite <- (assoc_L (++))|]. split; [done|].
        split; [done|]. apply scores_bounded_app; [done|].
        eapply scores_bounded_one; [done|]. by rewrite <- Hbs. }
  destruct HI as (_ & Hmono & Hcase). simpl in Hcase.
  split; [done|]. split; [|done].
  intros r e r' Hr Hre.
  assert (Hbp' : save_path (run_args r) "best_checkpoint.pth" = Some bp)
    by (by rewrite Hr).
  destruct (run_epoch_best w r e r' bp Hre Hbp' Hmain)
    as (sc & ck & Hsc & Hck & Hle & _ & Hwr).
  exists sc, ck. repeat split; try done; apply Qltb_lt.
Qed.

Lemma best_checkpoint_selection_witness :
  let w := single_process rising ReturnZero ∅ in
  let run := demo_run short_args in
  let bp := "out/best_checkpoint.pth" in
  returned (epoch_loop w run) = true
  ∧ save_path (run_args run) "best_checkpoint.pth" = Some bp
  ∧ is_main_process w = true
  ∧ ∃ start epochs run',
      attr_int (run_args run) "start_epoch" = Ok start
      ∧ attr_int (run_args run) "epochs" = Ok epochs
      ∧ outcome (epoch_loop w run) = Ok run'
      ∧ (best_accuracy run <= best_accuracy run')%Q
      ∧ (∀ r e r', run_args r = run_args run →
           outcome (run_epoch w r e) = Ok r' →
           ∃ sc ck, score w e = Ok sc ∧ ck_epoch ck = Some e
             ∧ (best_accuracy r <= best_accuracy r')%Q
             ∧ (Qltb (best_accuracy r) sc = true ↔ (best_accuracy r < sc)%Q)
             ∧ writes_to bp (trace (run_epoch w r e))
               = if Qltb (best_accuracy r) sc then [ck] else [])
      ∧ ((scores_bounded w Qle (best_accuracy run) (range start epochs)
          ∧ best_accuracy run' = best_accuracy run
          ∧ writes_to bp (trace (epoch_loop w run)) = [])
         ∨ (∃ e sc ck,
              first_maximum w (range start epochs) e sc
              ∧ (best_accuracy run < sc)%Q
              ∧ best_accuracy run' = sc
              ∧ last (writes_to bp (trace (epoch_loop w run))) = Some ck
              ∧ ck_epoch ck = Some e)).
Proof.
  intros w run bp.
  assert (H1 : returned (epoch_loop w run) = true)
    by (vm_compute; reflexivity).
  assert (H2 : save_path (run_args run) "best_checkpoint.pth" = Some bp)
    by (vm_compute; reflexivity).
  assert (H3 : is_main_process w = true) by reflexivity.
  repeat (split; [assumption|]).
  exact (best_checkpoint_selection w run bp H1 H2 H3).
Defined.

(** ** The learning-rate schedule *)

Lemma div_succ_multiple n s :
  0 ≤ n → 0 < s → (n + 1) mod s = 0 → (n + 1) / s = n / s + 1.
Proof.
  intros Hn Hs Hm.
  pose proof (Z.div_mod (n + 1) s ltac:(lia)) as H1.
  pose proof (Z.div_mod n s ltac:(lia)) as H2.
  pose proof (Z.mod_pos_bound n s Hs) as H3.
  rewrite Hm in H1. nia.
Qed.

Lemma div_succ_other n s :
  0 ≤ n → 0 < s → (n + 1) mod s ≠ 0 → (n + 1) / s = n / s.
Proof.
  intros Hn Hs Hm.
  pose proof (Z.div_mod (n + 1) s ltac:(lia)) as H1.
  pose proof (Z.div_mod n s ltac:(lia)) as H2.
  pose proof (Z.mod_pos_bound n s Hs) as H3.
  pose proof (Z.mod_pos_bound (n + 1) s Hs) as H4.
  nia.
Qed.

(** What [scheduler.step()] does to the rate: one product with [gamma]
    when the new epoch counter is a multiple of [step_size], nothing
    otherwise. *)
Lemma scheduler_step_rate s o s' o' :
  0 ≤ last_epoch s → 0 < step_size s →
  scheduler_step None s o = Ok (s', o') →
  s' = set_last_epoch (last_epoch s + 1) s
  ∧ opt_step o' = opt_step o
  ∧ opt_lr o' = if (last_epoch s + 1) mod step_size s =? 0
                then fmul (opt_lr o) (gamma s) else opt_lr o.
Proof.
  intros Hle Hss. unfold scheduler_step, get_lr. simpl.
  destruct (last_epoch s + 1 =? 0) eqn:H0; [lia|].
  destruct (step_size s =? 0) eqn:Hz; [lia|].
  destruct (_ mod _ =? 0); simpl; by intros [= <- <-].
Qed.

(** [scheduler.step()] keeps the optimizer on the schedule of the
    chainable form. *)
Lemma scheduler_step_on_schedule s o s' o' :
  on_schedule s o →
  scheduler_step None s o = Ok (s', o') →
  on_schedule s' o'
  ∧ s' = set_last_epoch (last_epoch s + 1) s
  ∧ opt_step o' = opt_step o.
Proof.
  intros (Hle & Hss & Hlr) Hstep.
  destruct (scheduler_step_rate _ _ _ _ Hle Hss Hstep) as (-> & Hst & Hrate).
  split; [|done]. split; [simpl; lia|]. split; [done|].
  rewrite Hrate. cbn [set_last_epoch last_epoch step_size gamma base_lr].
  destruct (_ mod _ =? 0) eqn:Hm.
  - apply Z.eqb_eq in Hm. rewrite div_succ_multiple by done.
    assert (Hk : 0 ≤ last_epoch s / step_size s) by (apply Z.div_pos; lia).
    rewrite Z2Nat.inj_add by lia. rewrite Nat.add_comm. simpl.
    by rewrite Hlr.
  - apply Z.eqb_neq in Hm. by rewrite div_succ_other.
Qed.

(** [scheduler.step(e)] moves the scheduler to epoch [e] and recomputes
    the rate in closed form. *)
Lemma scheduler_jump_rate e s o s' o' :
  scheduler_step (Some e) s o = Ok (s', o') →
  s' = set_last_epoch e s
  ∧ opt_step o' = opt_step o
  ∧ opt_lr o' = fmul (base_lr s) (fpow (gamma s) (e / step_size s)).
Proof.
  unfold scheduler_step, closed_form_lr. simpl.
  destruct (step_size s =? 0); [done|].
  destruct ((e / step_size s <? 0) && Qeq_bool (gamma s) 0); [done|].
  simpl. by intros [= <- <-].
Qed.

(** Up to one decay, the closed form is the chainable one: [gamma ** 0]
    and [gamma ** 1] are exact. *)
Lemma closed_form_chained lr g k :
  0 ≤ k ≤ 1 → fmul lr (fpow g k) = chained lr g (Z.to_nat k).
Proof.
  intros Hk. assert (k = 0 ∨ k = 1) as [-> | ->] by lia; reflexivity.
Qed.

Lemma on_schedule_fresh lr ss g :
  0 < ss → on_schedule (StepLR_init (AdamW lr) ss g) (AdamW lr).
Proof.
  intros Hss. unfold on_schedule. simpl.
  split; [done|]. split; [done|]. by change (0 / ss) with 0.
Qed.

(** Over the epochs of a loop that returns, the scheduler advances by one
    epoch per epoch run and the optimizer stays on its schedule. *)
Lemma for_each_epoch_schedule w l run run' :
  outcome (for_each (run_epoch w) l run) = Ok run' →
  on_schedule (run_scheduler run) (run_optimizer run) →
  on_schedule (run_scheduler run') (run_optimizer run')
  ∧ run_scheduler run'
    = set_last_epoch (last_epoch (run_scheduler run) + Z.of_nat (length l))
        (run_scheduler run).
Proof.
  intros Hok Hon.
  pose (I := λ (seen : list Z) (s : Run) (t : list event),
          on_schedule (run_scheduler s) (run_optimizer s)
          ∧ run_scheduler s
            = set_last_epoch
                (last_epoch (run_scheduler run) + Z.of_nat (length seen))
                (run_scheduler run)).
  assert (HI : I ([] ++ l)%list run'
                 ([] ++ trace (for_each (run_epoch w) l run))%list).
  { apply (for_each_invariant (run_epoch w) I); [| |done].
    2: { split; [done|]. simpl. rewrite Z.add_0_r.
         by destruct (run_scheduler run). }
    intros seen s x s' t [Hs Heq] Hx.
    apply run_epoch_Ok in Hx as (sc & sched & opt & _ & Hstep & _ & ->).
    apply scheduler_step_on_schedule in Hstep as (Hon' & -> & _).
    2: { destruct Hs as (? & ? & ?). by repeat split. }
    unfold I. cbn [run_scheduler run_optimizer].
    split; [done|]. rewrite Heq, length_app.
    unfold set_last_epoch. cbn [last_epoch step_size gamma base_lr length].
    f_equal. lia. }
  by destruct HI.
Qed.

Lemma range_length a b : length (range a b) = Z.to_nat (b - a).
Proof. unfold range. by rewrite length_map, length_seq. Qed.

Lemma main_Ok w args run' :
  outcome (main w args) = Ok run' →
  ∃ run, outcome (setup w args) = Ok run
         ∧ outcome (epoch_loop w run) = Ok run'
         ∧ trace (main w args)
           = (trace (setup w args) ++ trace (epoch_loop w run))%list.
Proof.
  intros Hok. unfold main in *. bind_Ok Hok as run Hrun. by exists run.
Qed.

Lemma resume_args_other w args m o s args1 m1 o1 s1 k :
  outcome (resume w args m o s) = Ok (args1, m1, o1, s1) →
  k ≠ "start_epoch" → args1 !! k = args !! k.
Proof.
  intros (r & _ & Hcase)%resume_Ok Hk.
  destruct (truthy r).
  - destruct Hcase as (path & ck & start & _ & _ & _ & -> & _).
    unfold restored, setattr.
    destruct (ck_optimizer ck), (ck_scheduler ck), (ck_epoch ck);
      simpl; by rewrite ?lookup_insert_ne.
  - destruct Hcase as [[= -> _ _ _] _]. done.
Qed.

(** [setup] touches no attribute but the fields of the distributed
    context, [start_epoch] and [writer]. *)
Lemma setup_args_other w args run k :
  outcome (setup w args) = Ok run →
  k ≠ "distributed" → k ≠ "gpu" → k ≠ "world_size" → k ≠ "rank" →
  k ≠ "start_epoch" → k ≠ "writer" →
  run_args run !! k = args !! k.
Proof.
  intros Hok ? ? ? ? ? ?.
  apply setup_Ok in Hok
    as (o0 & s0 & args1 & m1 & o1 & s1 & _ & _ & Hres & Hw & _).
  rewrite (with_writer_other _ _ _ _ Hw) by done.
  rewrite (resume_args_other _ _ _ _ _ _ _ _ _ _ Hres) by done.
  by apply initialize_distributed_mode_other.
Qed.

Lemma setup_fresh w args run r :
  outcome (setup w args) = Ok run →
  args !! "resume" = Some r → truthy r = false →
  fresh_optimizer (initialize_distributed_mode w args) = Ok (run_optimizer run)
  ∧ fresh_scheduler (initialize_distributed_mode w args)
    = Ok (run_scheduler run)
  ∧ run_args run !! "start_epoch" = args !! "start_epoch".
Proof.
  intros Hok Hr Htr.
  apply setup_Ok in Hok
    as (o0 & s0 & args1 & m1 & o1 & s1 & Ho & Hs & Hres & Hw & _ & -> & -> & _).
  apply resume_Ok in Hres as (r' & Hr' & Hcase).
  rewrite initialize_distributed_mode_other in Hr' by done.
  rewrite Hr in Hr'. injection Hr' as <-. rewrite Htr in Hcase.
  destruct Hcase as [[= -> _ -> ->] _].
  split; [done|]. split; [done|].
  rewrite (with_writer_other _ _ _ _ Hw) by done.
  by apply initialize_distributed_mode_other.
Qed.

Lemma setup_resumed w args run path ck o s e :
  outcome (setup w args) = Ok run →
  args !! "resume" = Some (VStr path) → path ≠ "" →
  files w !! path = Some ck →
  ck_optimizer ck = Some o → ck_scheduler ck = Some s → ck_epoch ck = Some e →
  attr_int (run_args run) "start_epoch" = Ok (e + 1)
  ∧ scheduler_step (Some (e + 1)) s o
    = Ok (run_scheduler run, run_optimizer run)
  ∧ ck_model ck = Some (run_model run).
Proof.
  intros Hok Hr Hpath Hfile Ho Hs He.
  apply setup_Ok in Hok
    as (o0 & s0 & args1 & m1 & o1 & s1 & _ & _ & Hres & Hw & <- & <- & <- & _).
  apply resume_Ok in Hres as (r' & Hr' & Hcase).
  rewrite initialize_distributed_mode_other in Hr' by done.
  rewrite Hr in Hr'. injection Hr' as <-.
  assert (Htr : truthy (VStr path) = true).
  { simpl. by destruct (String.eqb_spec path ""). }
  rewrite Htr in Hcase.
  destruct Hcase as (path' & ck' & start & [= <-] & Hf & Hm & Hargs1 & Hstart
                     & Hstep & _).
  rewrite Hfile in Hf. injection Hf as <-.
  unfold restored in Hargs1, Hstep. rewrite Ho, Hs, He in Hargs1, Hstep.
  simpl in Hargs1, Hstep. subst args1.
  assert (Hst : start = e + 1).
  { unfold attr_int, getattr, setattr in Hstart.
    rewrite lookup_insert_eq in Hstart. by injection Hstart. }
  subst start. split; [|done].
  unfold attr_int, getattr.
  rewrite (with_writer_other _ _ _ _ Hw) by done.
  unfold setattr. by rewrite lookup_insert_eq.
Qed.

Lemma fresh_scheduler_ext args args' :
  args' !! "lr" = args !! "lr" → args' !! "step_size" = args !! "step_size" →
  args' !! "gamma" = args !! "gamma" →
  fresh_scheduler args' = fresh_scheduler args.
Proof.
  intros H1 H2 H3. unfold fresh_scheduler.
  by rewrite (attr_float_ext _ _ _ H1), (attr_int_ext _ _ _ H2),
    (attr_float_ext _ _ _ H3).
Qed.

(** A run without [--resume], from epoch 0: after [n] epochs the scheduler
    is the fresh one at epoch [n], the optimizer on its schedule. *)
Lemma uninterrupted_schedule w args n run' ss :
  0 ≤ n →
  args !! "resume" = Some VNone →
  args !! "start_epoch" = Some (VInt 0) →
  args !! "epochs" = Some (VInt n) →
  attr_int args "step_size" = Ok ss → 0 < ss →
  outcome (main w args) = Ok run' →
  ∃ s0, fresh_scheduler args = Ok s0
        ∧ run_scheduler run' = set_last_epoch n s0
        ∧ on_schedule (run_scheduler run') (run_optimizer run').
Proof.
  intros Hn Hres Hstart Hepochs Hss Hpos Hok.
  apply main_Ok in Hok as (run & Hsetup & Hloop & _).
  assert (Hargs := setup_args_other _ _ _ "epochs" Hsetup).
  destruct (setup_fresh _ _ _ _ Hsetup Hres eq_refl) as (Ho & Hs & Hst).
  rewrite (fresh_scheduler_ext args) in Hs
    by (by apply initialize_distributed_mode_other).
  unfold fresh_optimizer in Ho.
  rewrite (attr_float_ext args) in Ho
    by (by apply initialize_distributed_mode_other).
  assert (Hs' := Hs).
  apply fresh_scheduler_Ok in Hs' as (lr & ss' & g & Hlr & Hss' & Hg & Heq).
  rewrite Hss in Hss'. injection Hss' as <-.
  rewrite Hlr in Ho. simpl in Ho. injection Ho as Ho.
  apply epoch_loop_Ok in Hloop as (start & epochs & Hs1 & He1 & Hfor & _).
  unfold attr_int, getattr in Hs1, He1.
  rewrite Hst, Hstart in Hs1. simpl in Hs1. injection Hs1 as <-.
  rewrite Hargs, Hepochs in He1 by done. simpl in He1. injection He1 as <-.
  apply for_each_epoch_schedule in Hfor as [Hon Hsched].
  2: { rewrite Heq, <- Ho. by apply on_schedule_fresh. }
  exists (run_scheduler run). split; [done|]. split; [|done].
  rewrite Hsched, range_length, Heq. simpl. f_equal. lia.
Qed.

(** The writes to the rolling checkpoint file in an epoch: its record. *)
Lemma writes_to_rolling_epoch_events w run e sc ck cp :
  save_path (run_args run) "checkpoint.pth" = Some cp →
  is_main_process w = true →
  writes_to cp (epoch_events w run e sc ck) = [ck].
Proof.
  intros Hcp Hmain.
  destruct (save_path_some _ _ _ "best_checkpoint.pth" Hcp) as [bp Hbp].
  assert (Hne : bp ≠ cp) by (by eapply save_path_inj).
  unfold epoch_events. rewrite !writes_to_app, !writes_to_pass_events.
  unfold save_events. rewrite Hcp, Hbp, Hmain.
  assert (Hd : writes_to cp match run_args run !! "distributed" with
                            | Some d => if truthy d then [EvSetEpoch e] else []
                            | None => []
                            end = []).
  { by destruct (run_args run !! "distributed") as [d|];
      [destruct (truthy d)|]. }
  rewrite Hd. unfold writes_to. simpl. rewrite String.eqb_refl. simpl.
  destruct (Qltb _ _); [|done]. simpl.
  by destruct (String.eqb_spec bp cp).
Qed.

(** After a loop over at least one epoch, the rolling checkpoint file
    holds the record of the last epoch, with the final model, optimizer
    and scheduler. *)
Lemma last_rolling_checkpoint w l run run' cp e :
  outcome (for_each (run_epoch w) l run) = Ok run' →
  save_path (run_args run) "checkpoint.pth" = Some cp →
  is_main_process w = true →
  last l = Some e →
  last (writes_to cp (trace (for_each (run_epoch w) l run)))
  = Some (checkpoint_of e (run_model run') (run_optimizer run')
            (run_scheduler run')).
Proof.
  intros Hok Hcp Hmain Hlast.
  pose (I := λ (seen : list Z) (s : Run) (t : list event),
          run_args s = run_args run
          ∧ ∀ e, last seen = Some e →
              last (writes_to cp t)
              = Some (checkpoint_of e (run_model s) (run_optimizer s)
                        (run_scheduler s))).
  assert (HI : I ([] ++ l)%list run'
                 ([] ++ trace (for_each (run_epoch w) l run))%list).
  { apply (for_each_invariant (run_epoch w) I); [|by split|done].
    intros seen s x s' t [Hargs _] Hx. unfold I.
    split; [by rewrite (run_epoch_args _ _ _ _ Hx)|].
    intros e'. rewrite last_snoc. intros [= <-].
    apply run_epoch_Ok in Hx as (sc & sched & opt & _ & _ & -> & ->).
    rewrite writes_to_app, writes_to_rolling_epoch_events
      by (by rewrite ?Hargs).
    by rewrite last_snoc. }
  destruct HI as [_ HI]. by apply HI.
Qed.

Lemma writes_to_setup w args run path :
  outcome (setup w args) = Ok run → writes_to path (trace (setup w args)) = [].
Proof.
  intros Hok. unfold setup in *.
  bind_Ok Hok as v0 H0. bind_Ok Hok as d Hd. bind_Ok Hok as v1 H1.
  bind_Ok Hok as v2 H2. bind_Ok Hok as v3 H3.
  bind_Ok Hok as lr Hlr. bind_Ok Hok as ss Hss. bind_Ok Hok as g Hg.
  bind_Ok Hok as st Hres. destruct st as [[[args1 m1] o1] s1].
  bind_Ok Hok as sd Hsd. bind_Ok Hok as u4 H4. bind_Ok Hok as td Htd.
  bind_Ok Hok as args2 Hw.
  apply resume_Ok in Hres as (r & _ & Hcase).
  rewrite !writes_to_app.
  assert (Hr : writes_to path
                 (trace (resume w (initialize_distributed_mode w args)
                           {| weights := 0 |} (AdamW lr)
                           (StepLR_init (AdamW lr) ss g))) = []).
  { destruct (truthy r).
    - destruct Hcase as (? & ? & ? & _ & _ & _ & _ & _ & _ & ->). done.
    - destruct Hcase as [_ ->]. done. }
  rewrite Hr.
  assert (H5 : writes_to path
                 (trace (if truthy sd
                         then dir ← lift (as_str "save_dir" sd);
                              emit (EvEnsureDir dir)
                         else mret ())) = []).
  { destruct (truthy sd); [|done]. by destruct sd. }
  rewrite H5.
  assert (H6 : writes_to path
                 (trace (if truthy td
                         then if is_main_process w
                              then dir ← lift (as_str "tensorboard_dir" td);
                                   mret (setattr "writer" (VWriter dir) args1)
                              else mret (setattr "writer" VNone args1)
                         else mret args1)) = []).
  { destruct (truthy td); [|done].
    destruct (is_main_process w); [|done]. by destruct td. }
  rewrite H6.
  simpl. by destruct (truthy d).
Qed.

(** The rolling checkpoint on disk after a run over [n > 0] epochs from
    epoch 0 is the record of epoch [n - 1] with the final state. *)
Lemma main_rolling_checkpoint w args n run' cp ck :
  0 < n →
  args !! "resume" = Some VNone →
  args !! "start_epoch" = Some (VInt 0) →
  args !! "epochs" = Some (VInt n) →
  outcome (main w args) = Ok run' →
  save_path args "checkpoint.pth" = Some cp →
  is_main_process w = true →
  last (writes_to cp (trace (main w args))) = Some ck →
  ck = checkpoint_of (n - 1) (run_model run') (run_optimizer run')
         (run_scheduler run').
Proof.
  intros Hn Hres Hstart Hepochs Hok Hcp Hmain Hlast.
  apply main_Ok in Hok as (run & Hsetup & Hloop & Htr).
  rewrite Htr, writes_to_app, (writes_to_setup _ _ _ _ Hsetup) in Hlast.
  simpl in Hlast.
  destruct (setup_fresh _ _ _ _ Hsetup Hres eq_refl) as (_ & _ & Hst).
  assert (Hargs := setup_args_other _ _ _ "epochs" Hsetup).
  assert (Hsd := setup_args_other _ _ _ "save_dir" Hsetup).
  apply epoch_loop_Ok in Hloop as (start & epochs & Hs1 & He1 & Hfor & Htr2).
  unfold attr_int, getattr in Hs1, He1.
  rewrite Hst, Hstart in Hs1. simpl in Hs1. injection Hs1 as <-.
  rewrite Hargs, Hepochs in He1 by done. simpl in He1. injection He1 as <-.
  rewrite Htr2 in Hlast.
  rewrite (last_rolling_checkpoint w (range 0 n) run run' cp (n - 1))
    in Hlast; [by injection Hlast| done | | done |].
  - unfold save_path in *. by rewrite Hsd.
  - replace n with (n - 1 + 1) at 1 by lia.
    rewrite range_snoc by lia. apply last_snoc.
Qed.

Lemma range_one a : range a (a + 1) = [a].
Proof. rewrite range_cons by lia. by rewrite range_nil by lia. Qed.

(** C3, as stated: the scheduler state and the learning rate after
    resuming would equal those of the uninterrupted run. With the default
    flags, resuming a run of 60 epochs for one more epoch ends at the
    rate [1.0000000000000003e-05], the closed form
    [0.001 * 0.1 ** 2], where the uninterrupted run of 61 epochs ends at
    [1e-05], the product [(0.001 * 0.1) * 0.1]. A first run started with
    [--start-epoch 5] leaves the resumed scheduler at epoch 8 where the
    uninterrupted one is at epoch 3; and with [--step-size -1] the resumed
    rate is raised by [0.1 ** -1] where the uninterrupted one decays. *)
Lemma resume_learning_rate_drifts :
  let w := single_process rising ReturnZero ∅ in
  let resumed args := setattr "resume" (VStr "out/checkpoint.pth") args in
  let epochs n args := setattr "epochs" (VInt n) args in
  let late := setattr "start_epoch" (VInt 5) logged_args in
  let negative := setattr "step_size" (VInt (-1)) logged_args in
  (* the default flags, 60 epochs and one more *)
  final_lr (main (after_run (main w (epochs 60 logged_args)))
              (resumed (epochs 61 logged_args)))
  = Some (2951479051793529 # 295147905179352825856)
  ∧ final_lr (main w (epochs 61 logged_args))
    = Some (5902958103587057 # 590295810358705651712)
  ∧ final_lr (main (after_run (main w (epochs 60 logged_args)))
                (resumed (epochs 61 logged_args)))
    ≠ final_lr (main w (epochs 61 logged_args))
  (* a first run from epoch 5 *)
  ∧ final_epoch (main (after_run (main w (epochs 7 late)))
                   (resumed (epochs 8 late))) = Some 8
  ∧ final_epoch (main w (epochs 8 late)) = Some 3
  (* a negative step size *)
  ∧ final_lr (main (after_run (main w (epochs 1 negative)))
                (resumed (epochs 2 negative)))
    ≠ final_lr (main w (epochs 2 negative)).
Proof.
  intros w resumed epochs late negative.
  assert (H1 : final_lr (main (after_run (main w (epochs 60 logged_args)))
                           (resumed (epochs 61 logged_args)))
               = Some (2951479051793529 # 295147905179352825856))
    by (vm_compute; reflexivity).
  assert (H2 : final_lr (main w (epochs 61 logged_args))
               = Some (5902958103587057 # 590295810358705651712))
    by (vm_compute; reflexivity).
  split; [exact H1|]. split; [exact H2|].
  split; [rewrite H1, H2; discriminate|].
  split; [vm_compute; reflexivity|]. split; [vm_compute; reflexivity|].
  vm_compute. discriminate.
Qed.

(** C3, amended. A first run from scratch, from epoch 0 and with a
    positive step size, leaves its rolling checkpoint after epoch [E]. The
    run resumed from it starts at epoch [E + 1], with the scheduler moved
    to epoch [E + 1] and the rate recomputed in closed form,
    [lr * gamma ** ((E + 1) // step_size)]. After training through epoch
    [E + 1] its scheduler is the one of the uninterrupted run; its rate is
    the closed form, decayed once more if [E + 2] is a multiple of the
    step size, where the uninterrupted run has the step-by-step product;
    the two rates are equal when at most one decay precedes the resume
    point. *)
Theorem resume_matches_uninterrupted w1 w2 w3 args E ss path cp ck :
  0 ≤ E →
  args !! "resume" = Some VNone →
  args !! "start_epoch" = Some (VInt 0) →
  attr_int args "step_size" = Ok ss → 0 < ss →
  path ≠ "" →
  let argsA := setattr "epochs" (VInt (E + 1)) args in
  let argsU := setattr "epochs" (VInt (E + 2)) args in
  let argsB := setattr "resume" (VStr path) argsU in
  returned (main w1 argsA) = true →
  save_path argsA "checkpoint.pth" = Some cp →
  is_main_process w1 = true →
  last (writes_to cp (trace (main w1 argsA))) = Some ck →
  files w2 !! path = Some ck →
  returned (main w2 argsB) = true →
  returned (main w3 argsU) = true →
  ∃ runB0 runB runU lr g,
    attr_float args "lr" = Ok lr
    ∧ attr_float args "gamma" = Ok g
    ∧ outcome (setup w2 argsB) = Ok runB0
    ∧ outcome (main w2 argsB) = Ok runB
    ∧ outcome (main w3 argsU) = Ok runU
    ∧ attr_int (run_args runB0) "start_epoch" = Ok (E + 1)
    ∧ run_scheduler runB0
      = {| step_size := ss; gamma := g; base_lr := lr; last_epoch := E + 1 |}
    ∧ opt_lr (run_optimizer runB0) = fmul lr (fpow g ((E + 1) / ss))
    ∧ run_scheduler runB
      = {| step_size := ss; gamma := g; base_lr := lr; last_epoch := E + 2 |}
    ∧ run_scheduler runU = run_scheduler runB
    ∧ opt_lr (run_optimizer runB)
      = (if (E + 2) mod ss =? 0
         then fmul (fmul lr (fpow g ((E + 1) / ss))) g
         else fmul lr (fpow g ((E + 1) / ss)))
    ∧ opt_lr (run_optimizer runU) = chained lr g (Z.to_nat ((E + 2) / ss))
    ∧ ((E + 1) / ss ≤ 1 →
       opt_lr (run_optimizer runB) = opt_lr (run_optimizer runU)).
Proof.
  intros HE Hres Hstart Hss Hpos Hpath argsA argsU argsB
    [runA HA]%returned_Ok Hcp Hmain Hlast Hfile
    [runB HB]%returned_Ok [runU HU]%returned_Ok.
  assert (HssA : attr_int argsA "step_size" = Ok ss).
  { rewrite <- Hss. apply attr_int_ext. unfold argsA, setattr.
    by rewrite lookup_insert_ne. }
  assert (HssU : attr_int argsU "step_size" = Ok ss).
  { rewrite <- Hss. apply attr_int_ext. unfold argsU, setattr.
    by rewrite lookup_insert_ne. }
  (* the first run *)
  destruct (uninterrupted_schedule w1 argsA (E + 1) runA ss)
    as (sA & HsA & HschedA & HonA); try done; try lia;
    try (unfold argsA, setattr; by rewrite ?lookup_insert_eq,
           ?lookup_insert_ne).
  assert (Hck : ck = checkpoint_of E (run_model runA) (run_optimizer runA)
                       (run_scheduler runA)).
  { replace E with (E + 1 - 1) by lia.
    apply (main_rolling_checkpoint w1 argsA (E + 1) runA cp); try done;
      try lia;
      unfold argsA, setattr; by rewrite ?lookup_insert_eq, ?lookup_insert_ne. }
  (* the uninterrupted run *)
  destruct (uninterrupted_schedule w3 argsU (E + 2) runU ss)
    as (sU & HsU & HschedU & HonU); try done; try lia;
    try (unfold argsU, setattr; by rewrite ?lookup_insert_eq,
           ?lookup_insert_ne).
  assert (HsAU : sA = sU).
  { assert (Heq : fresh_scheduler argsA = fresh_scheduler argsU).
    { apply fresh_scheduler_ext; unfold argsA, argsU, setattr;
        by rewrite !lookup_insert_ne. }
    rewrite HsA, HsU in Heq. by injection Heq. }
  subst sU.
  apply fresh_scheduler_Ok in HsA as (lr & ss' & g & Hlr & Hss' & Hg & ->).
  rewrite HssA in Hss'. injection Hss' as <-.
  assert (Hlr0 : attr_float args "lr" = Ok lr).
  { rewrite <- Hlr. symmetry. apply attr_float_ext. unfold argsA, setattr.
    by rewrite lookup_insert_ne. }
  assert (Hg0 : attr_float args "gamma" = Ok g).
  { rewrite <- Hg. symmetry. apply attr_float_ext. unfold argsA, setattr.
    by rewrite lookup_insert_ne. }
  (* the resumed run: its setup *)
  assert (HB0 := HB). apply main_Ok in HB0 as (runB0 & HsetupB & HloopB & _).
  destruct (setup_resumed w2 argsB runB0 path ck (run_optimizer runA)
              (run_scheduler runA) E) as (HstartB & HstepB & _);
    try done; try (by rewrite Hck);
    try (unfold argsB, setattr; by rewrite lookup_insert_eq).
  apply scheduler_jump_rate in HstepB as (HschedB0 & _ & HrateB0).
  rewrite HschedA in HschedB0, HrateB0.
  cbn [set_last_epoch StepLR_init step_size gamma base_lr last_epoch AdamW
       opt_lr] in HschedB0, HrateB0.
  (* the resumed run: its one epoch *)
  assert (HepochsB : attr_int (run_args runB0) "epochs" = Ok (E + 2)).
  { unfold attr_int, getattr.
    rewrite (setup_args_other _ _ _ "epochs" HsetupB) by done.
    unfold argsB, argsU, setattr.
    by rewrite lookup_insert_ne, lookup_insert_eq. }
  apply epoch_loop_Ok in HloopB as (start & epochs & Hs1 & He1 & Hfor & _).
  rewrite HstartB in Hs1. injection Hs1 as <-.
  rewrite HepochsB in He1. injection He1 as <-.
  replace (E + 2) with (E + 1 + 1) in Hfor by lia.
  rewrite range_one in Hfor. simpl in Hfor.
  bind_Ok Hfor as r1 Hr1. simpl in Hfor. injection Hfor as ->.
  apply run_epoch_Ok in Hr1 as (sc & sched & opt & _ & Hstep & _ & HrunB).
  apply scheduler_step_rate in Hstep as (Hsched & _ & Hrate);
    [|rewrite HschedB0; simpl; lia|by rewrite HschedB0].
  rewrite HschedB0 in Hsched, Hrate.
  cbn [set_last_epoch step_size gamma base_lr last_epoch after_batches snd
       opt_lr] in Hsched, Hrate.
  rewrite HrateB0 in Hrate.
  replace (E + 1 + 1) with (E + 2) in Hsched, Hrate by lia.
  assert (HschedB : run_scheduler runB
            = {| step_size := ss; gamma := g; base_lr := lr;
                 last_epoch := E + 2 |}) by (by rewrite HrunB, Hsched).
  assert (HrateB : opt_lr (run_optimizer runB)
            = (if (E + 2) mod ss =? 0
               then fmul (fmul lr (fpow g ((E + 1) / ss))) g
               else fmul lr (fpow g ((E + 1) / ss))))
    by (rewrite HrunB; cbn [run_optimizer]; exact Hrate).
  assert (HrateU : opt_lr (run_optimizer runU)
            = chained lr g (Z.to_nat ((E + 2) / ss))).
  { destruct HonU as (_ & _ & HonU). by rewrite HschedU in HonU. }
  exists runB0, runB, runU, lr, g.
  do 8 (split; [done|]). split; [done|].
  split; [by rewrite HschedB, HschedU|].
  split; [done|]. split; [done|].
  intros Hk. rewrite HrateB, HrateU.
  assert (Hk0 : 0 ≤ (E + 1) / ss) by (apply Z.div_pos; lia).
  rewrite closed_form_chained by lia.
  destruct (_ mod _ =? 0) eqn:Hm.
  - apply Z.eqb_eq in Hm.
    replace (E + 2) with (E + 1 + 1) in Hm |- * by lia.
    rewrite (div_succ_multiple (E + 1) ss) by (done || lia).
    rewrite Z2Nat.inj_add by lia. by rewrite Nat.add_comm.
  - apply Z.eqb_neq in Hm.
    replace (E + 2) with (E + 1 + 1) in Hm |- * by lia.
    by rewrite (div_succ_other (E + 1) ss) by (done || lia).
Qed.

Lemma resume_matches_uninterrupted_witness :
  let w := single_process rising ReturnZero ∅ in
  let w2 := single_process rising ReturnZero
              {["out/checkpoint.pth" := checkpoint_after_epoch_0]} in
  let args := decaying_args in
  let path := "out/checkpoint.pth" in
  let argsA := setattr "epochs" (VInt (0 + 1)) args in
  let argsU := setattr "epochs" (VInt (0 + 2)) args in
  let argsB := setattr "resume" (VStr path) argsU in
  0 ≤ 0
  ∧ args !! "resume" = Some VNone
  ∧ args !! "start_epoch" = Some (VInt 0)
  ∧ attr_int args "step_size" = Ok 1 ∧ 0 < 1
  ∧ path ≠ ""
  ∧ returned (main w argsA) = true
  ∧ save_path argsA "checkpoint.pth" = Some path
  ∧ is_main_process w = true
  ∧ last (writes_to path (trace (main w argsA)))
    = Some checkpoint_after_epoch_0
  ∧ files w2 !! path = Some checkpoint_after_epoch_0
  ∧ returned (main w2 argsB) = true
  ∧ returned (main w argsU) = true
  ∧ ∃ runB0 runB runU lr g,
      attr_float args "lr" = Ok lr
      ∧ attr_float args "gamma" = Ok g
      ∧ outcome (setup w2 argsB) = Ok runB0
      ∧ outcome (main w2 argsB) = Ok runB
      ∧ outcome (main w argsU) = Ok runU
      ∧ attr_int (run_args runB0) "start_epoch" = Ok (0 + 1)
      ∧ run_scheduler runB0
        = {| step_size := 1; gamma := g; base_lr := lr; last_epoch := 0 + 1 |}
      ∧ opt_lr (run_optimizer runB0) = fmul lr (fpow g ((0 + 1) / 1))
      ∧ run_scheduler runB
        = {| step_size := 1; gamma := g; base_lr := lr; last_epoch := 0 + 2 |}
      ∧ run_scheduler runU = run_scheduler runB
      ∧ opt_lr (run_optimizer runB)
        = (if (0 + 2) mod 1 =? 0
           then fmul (fmul lr (fpow g ((0 + 1) / 1))) g
           else fmul lr (fpow g ((0 + 1) / 1)))
      ∧ opt_lr (run_optimizer runU) = chained lr g (Z.to_nat ((0 + 2) / 1))
      ∧ ((0 + 1) / 1 ≤ 1 →
         opt_lr (run_optimizer runB) = opt_lr (run_optimizer runU)).
Proof.
  intros w w2 args path argsA argsU argsB.
  assert (H1 : 0 ≤ 0) by lia.
  assert (H2 : args !! "resume" = Some VNone) by (vm_compute; reflexivity).
  assert (H3 : args !! "start_epoch" = Some (VInt 0))
    by (vm_compute; reflexivity).
  assert (H4 : attr_int args "step_size" = Ok 1) by (vm_compute; reflexivity).
  assert (H5 : 0 < 1) by lia.
  assert (H6 : path ≠ "") by discriminate.
  assert (H7 : returned (main w argsA) = true) by (vm_compute; reflexivity).
  assert (H8 : save_path argsA "checkpoint.pth" = Some path)
    by (vm_compute; reflexivity).
  assert (H9 : is_main_process w = true) by reflexivity.
  assert (H10 : last (writes_to path (trace (main w argsA)))
                = Some checkpoint_after_epoch_0) by (vm_compute; reflexivity).
  assert (H11 : files w2 !! path = Some checkpoint_after_epoch_0)
    by (vm_compute; reflexivity).
  assert (H12 : returned (main w2 argsB) = true) by (vm_compute; reflexivity).
  assert (H13 : returned (main w argsU) = true) by (vm_compute; reflexivity).
  do 13 (split; [assumption|]).
  exact (resume_matches_uninterrupted w w2 w args 0 1 path path
           checkpoint_after_epoch_0 H1 H2 H3 H4 H5 H6 H7 H8 H9 H10 H11
           H12 H13).
Defined.

(** * Further properties of the driver *)

(** ** What the passes and the driver never do *)

Lemma never_app P t1 t2 : never P t1 → never P t2 → never P (t1 ++ t2).
Proof. intros. by apply Forall_app. Qed.

Lemma never_bind {A B : Type} P (m : M A) (f : A → M B) :
  never P (trace m) →
  (∀ a, outcome m = Ok a → never P (trace (f a))) →
  never P (trace (m ≫= f)).
Proof.
  unfold mbind, M_mbind, M_bind. intros Hm Hf.
  destruct (outcome m) as [a|e] eqn:Ha; simpl; [|done].
  apply never_app; [done|by apply Hf].
Qed.

Lemma never_lift {A : Type} P (r : result A) : never P (trace (lift r)).
Proof. constructor. Qed.

Lemma never_ret {A : Type} P (a : A) : never P (trace (mret a : M A)).
Proof. constructor. Qed.

Lemma never_emit P e : P e = false → never P (trace (emit e)).
Proof. intros. by repeat constructor. Qed.

Lemma never_for_enumerate {A S : Type} P (body : nat → A → S → M S) l :
  (∀ idx x s, never P (trace (body idx x s))) →
  ∀ idx s, never P (trace (for_enumerate body idx l s)).
Proof.
  intros Hbody. induction l as [|x l IH]; intros idx s; simpl.
  - constructor.
  - apply never_bind; [apply Hbody|]. intros. apply IH.
Qed.

Lemma never_for_each {A S : Type} P (J : S → Prop) (body : S → A → M S) l :
  (∀ s x, J s → never P (trace (body s x))
                ∧ ∀ s', outcome (body s x) = Ok s' → J s') →
  ∀ s, J s → never P (trace (for_each body l s)).
Proof.
  intros Hbody. induction l as [|x l IH]; intros s HJ; simpl.
  - constructor.
  - destruct (Hbody s x HJ) as [Hn Hnext].
    apply never_bind; [done|]. intros s' Hs'. apply IH. by apply Hnext.
Qed.

Ltac never_steps :=
  repeat first
    [ apply never_ret
    | apply never_lift
    | apply never_emit; reflexivity
    | apply never_bind; [|intros ? ?] ].

Lemma never_add_scalar P writer tg v s :
  (∀ tg x s, P (EvAddScalar tg x s) = false) →
  never P (trace (add_scalar writer tg v s)).
Proof.
  intros HP. unfold add_scalar. destruct writer; never_steps.
  apply never_emit, HP.
Qed.

Lemma never_batch_telemetry P p args t epoch len idx :
  (∀ tg x s, P (EvAddScalar tg x s) = false) →
  never P (trace (batch_telemetry p args t epoch len idx)).
Proof.
  intros HP. unfold batch_telemetry. never_steps.
  case_match; never_steps; by apply never_add_scalar.
Qed.

Lemma never_epoch_telemetry P w p args t epoch :
  (∀ tg x s, P (EvAddScalar tg x s) = false) →
  never P (trace (epoch_telemetry w p args t epoch)).
Proof.
  intros HP. unfold epoch_telemetry. never_steps.
  case_match; never_steps; by apply never_add_scalar.
Qed.

(** A telemetry write needs a writer object in [args.writer]. *)
Lemma never_telemetry_add_scalar writer tg v s :
  (∀ d, writer ≠ VWriter d) →
  never is_telemetry (trace (add_scalar writer tg v s)).
Proof.
  intros Hw. unfold add_scalar. destruct writer; never_steps.
  by destruct (Hw log_dir).
Qed.

Lemma never_telemetry_batch p args t epoch len idx :
  (∀ d, args !! "writer" ≠ Some (VWriter d)) →
  never is_telemetry (trace (batch_telemetry p args t epoch len idx)).
Proof.
  intros Hw. unfold batch_telemetry, getattr.
  destruct (args !! "writer") as [writer|] eqn:Hwr; [|never_steps].
  rewrite bind_lift_Ok.
  assert (∀ d, writer ≠ VWriter d) by (intros d ->; by apply (Hw d)).
  case_match; never_steps; by apply never_telemetry_add_scalar.
Qed.

Lemma never_telemetry_epoch w p args t epoch :
  (∀ d, args !! "writer" ≠ Some (VWriter d)) →
  never is_telemetry (trace (epoch_telemetry w p args t epoch)).
Proof.
  intros Hw. unfold epoch_telemetry, getattr.
  destruct (args !! "writer") as [writer|] eqn:Hwr; [|never_steps].
  rewrite bind_lift_Ok.
  assert (∀ d, writer ≠ VWriter d) by (intros d ->; by apply (Hw d)).
  case_match; never_steps; by apply never_telemetry_add_scalar.
Qed.

Section Passes.

Variable P : event → bool.
(** What the two telemetry blocks emit is never of the kind [P]. *)
Variable args : Namespace.
Hypothesis P_telemetry : ∀ w p t epoch len idx,
  never P (trace (batch_telemetry p args t epoch len idx))
  ∧ never P (trace (epoch_telemetry w p args t epoch)).
Hypothesis P_common : ∀ p idx name v epoch,
  P (EvMode p) = false ∧ P (EvToDevice p idx) = false
  ∧ P (EvForward p idx) = false ∧ P (EvCriterion p idx) = false
  ∧ P (EvEvaluator p idx) = false ∧ P (EvUpdate p name v) = false
  ∧ P (EvDisplay p epoch idx) = false ∧ P (EvSynchronize p) = false
  ∧ P (EvSummarize p epoch) = false.

Lemma never_record_metrics p epoch idx b t :
  never P (trace (record_metrics p epoch idx b t)).
Proof.
  rewrite record_metrics_run. simpl.
  destruct (P_common p idx "loss" (b_loss b) epoch)
    as (_ & _ & _ & _ & _ & ? & ? & _).
  destruct (P_common p idx "acc1" (b_acc1 b) epoch)
    as (_ & _ & _ & _ & _ & ? & _).
  destruct (P_common p idx "acc5" (b_acc5 b) epoch)
    as (_ & _ & _ & _ & _ & ? & _).
  by repeat constructor.
Qed.

Lemma never_synchronize_and_summarize w p epoch peers t :
  never P (trace (synchronize_and_summarize w p epoch peers t)).
Proof.
  rewrite synchronize_and_summarize_run. simpl.
  destruct (P_common p 0%nat "" 0%Q epoch) as (_ & _ & _ & _ & _ & _ & _ & ? & ?).
  by repeat constructor.
Qed.

Lemma never_valid w peers dl m epoch :
  never P (trace (valid w peers dl m epoch args)).
Proof.
  unfold valid.
  apply never_bind.
  { apply never_emit. apply (P_common EVAL 0%nat "" 0%Q 0). }
  intros _ _. apply never_bind.
  { apply never_for_enumerate. intros idx x s. unfold valid_batch.
    destruct (P_common EVAL idx "" 0%Q 0) as (_ & ? & ? & ? & ? & _).
    apply never_bind; [apply never_lift|]. intros _ _.
    repeat (apply never_bind; [by apply never_emit|]; intros _ _).
    apply never_bind; [apply never_lift|]. intros _ _.
    apply never_bind; [apply never_record_metrics|]. intros t' _.
    apply never_bind; [apply (P_telemetry w)|]. intros _ _.
    apply never_ret. }
  intros t _. apply never_bind; [apply never_lift|]. intros _ _.
  apply never_bind; [apply never_synchronize_and_summarize|]. intros t' _.
  apply never_bind; [apply (P_telemetry w _ _ _ 0%nat 0%nat)|]. intros _ _.
  apply never_lift.
Qed.

Hypothesis P_gradient : ∀ idx,
  P (EvZeroGrad idx) = false ∧ P (EvBackward idx) = false
  ∧ P (EvOptimizerStep idx) = false.

Lemma never_train w peers dl m o epoch :
  never P (trace (train w peers dl m o epoch args)).
Proof.
  unfold train.
  apply never_bind.
  { apply never_emit. apply (P_common TRAIN 0%nat "" 0%Q 0). }
  intros _ _. apply never_bind.
  { apply never_for_enumerate. intros idx x [[m1 o1] t1]. unfold train_batch.
    destruct (P_common TRAIN idx "" 0%Q 0) as (_ & ? & ? & ? & ? & _).
    destruct (P_gradient idx) as (? & ? & ?).
    apply never_bind; [apply never_lift|]. intros _ _.
    repeat (apply never_bind; [by apply never_emit|]; intros _ _).
    apply never_bind; [apply never_lift|]. intros _ _.
    apply never_bind; [apply never_record_metrics|]. intros t' _.
    apply never_bind; [apply (P_telemetry w)|]. intros _ _.
    apply never_ret. }
  intros [[m1 o1] t] _. apply never_bind; [apply never_lift|]. intros _ _.
  apply never_bind; [apply never_synchronize_and_summarize|]. intros t' _.
  apply never_bind; [apply (P_telemetry w _ _ _ 0%nat 0%nat)|]. intros _ _.
  apply never_ret.
Qed.

End Passes.

Section Driver.

Variable P : event → bool.
Variable w : World.
(** A property of [args] that the driver keeps once [setup] is through. *)
Variable J : Namespace → Prop.
Hypothesis P_pass : ∀ args peers dl m o epoch, J args →
  never P (trace (train w peers dl m o epoch args))
  ∧ never P (trace (valid w peers dl m epoch args)).
Hypothesis P_save : ∀ args ck name, J args →
  never P (trace (save_if_configured w args ck name)).
Hypothesis P_driver : ∀ e x d,
  P (EvSetEpoch e) = false ∧ P (EvSchedulerStep x) = false
  ∧ P (EvEnsureDir d) = false.

Lemma never_run_epoch run e :
  J (run_args run) → never P (trace (run_epoch w run e)).
Proof.
  intros HJ. unfold run_epoch.
  destruct (P_driver e None "") as (? & ? & _).
  apply never_bind; [apply never_lift|]. intros d _.
  apply never_bind.
  { destruct (truthy d); [by apply never_emit|apply never_ret]. }
  intros _ _. apply never_bind; [by apply P_pass|]. intros [m1 o1] _.
  apply never_bind; [by apply P_pass|]. intros sc _.
  apply never_bind; [by apply never_emit|]. intros _ _.
  apply never_bind; [apply never_lift|]. intros [s1 o2] _.
  apply never_bind; [by apply P_save|]. intros _ _.
  destruct (Qltb _ _); [|apply never_ret].
  apply never_bind; [by apply P_save|]. intros _ _. apply never_ret.
Qed.

Lemma never_epoch_loop run :
  J (run_args run) → never P (trace (epoch_loop w run)).
Proof.
  intros HJ. unfold epoch_loop.
  apply never_bind; [apply never_lift|]. intros start _.
  apply never_bind; [apply never_lift|]. intros epochs _.
  apply (never_for_each P (λ s, J (run_args s))); [|done].
  intros s x Hs. split; [by apply never_run_epoch|].
  intros s' Hs'. by rewrite (run_epoch_args _ _ _ _ Hs').
Qed.

Lemma never_resume args m o s :
  never P (trace (resume w args m o s)).
Proof.
  unfold resume. apply never_bind; [apply never_lift|]. intros r _.
  destruct (truthy r); [|apply never_ret].
  apply never_bind; [apply never_lift|]. intros path _.
  apply never_bind; [apply never_lift|]. intros ck _.
  apply never_bind; [apply never_lift|]. intros m1 _.
  fold (restored ck args o s).
  destruct (restored ck args o s) as [[args1 o1] s1].
  apply never_bind; [apply never_lift|]. intros start _.
  apply never_bind; [apply never_emit, (P_driver 0 (Some start) "")|].
  intros _ _. apply never_bind; [apply never_lift|]. intros [s2 o2] _.
  apply never_ret.
Qed.

Lemma never_setup args : never P (trace (setup w args)).
Proof.
  unfold setup.
  apply never_bind; [apply never_lift|]. intros _ _.
  apply never_bind; [apply never_lift|]. intros d _.
  apply never_bind; [apply never_lift|]. intros _ _.
  apply never_bind.
  { destruct (truthy d); [apply never_lift|apply never_ret]. }
  intros _ _. apply never_bind; [apply never_lift|]. intros _ _.
  apply never_bind; [apply never_lift|]. intros lr _.
  apply never_bind; [apply never_lift|]. intros ss _.
  apply never_bind; [apply never_lift|]. intros g _.
  apply never_bind; [apply never_resume|]. intros [[[args1 m1] o1] s1] _.
  apply never_bind; [apply never_lift|]. intros sd _.
  apply never_bind.
  { destruct (truthy sd); [|apply never_ret].
    apply never_bind; [apply never_lift|]. intros dir _.
    apply never_emit, (P_driver 0 None dir). }
  intros _ _. apply never_bind; [apply never_lift|]. intros td _.
  apply never_bind.
  { destruct (truthy td); [|apply never_ret].
    destruct (is_main_process w); [|apply never_ret].
    apply never_bind; [apply never_lift|]. intros dir _. apply never_ret. }
  intros args2 _. apply never_ret.
Qed.

Lemma never_main args :
  (∀ run, outcome (setup w args) = Ok run → J (run_args run)) →
  never P (trace (main w args)).
Proof.
  intros HJ. unfold main. apply never_bind; [apply never_setup|].
  intros run Hrun. apply never_epoch_loop. by apply HJ.
Qed.

End Driver.

Lemma never_save_if_configured P w args ck name :
  is_main_process w = false ∨ option_set args "save_dir" = false
  ∨ (∀ path c, P (EvWrite path c) = false) →
  never P (trace (save_if_configured w args ck name)).
Proof.
  intros H. unfold save_if_configured, save_on_main_process, option_set,
    getattr in *.
  destruct (args !! "save_dir") as [sd|]; [|apply never_lift].
  rewrite bind_lift_Ok. destruct (truthy sd); [|apply never_ret].
  apply never_bind; [apply never_lift|]. intros dir _.
  destruct (is_main_process w); [|apply never_ret].
  destruct H as [?|[?|H]]; [done|done|]. apply never_emit, H.
Qed.

(** What [setup] leaves in [args.writer]. *)
Lemma setup_writer_lookup w args run :
  outcome (setup w args) = Ok run →
  ∃ td, args !! "tensorboard_dir" = Some td
    ∧ if truthy td then
        if is_main_process w
        then ∃ dir, td = VStr dir
               ∧ run_args run !! "writer" = Some (VWriter dir)
        else run_args run !! "writer" = Some VNone
      else run_args run !! "writer" = args !! "writer".
Proof.
  intros Hok. apply setup_Ok in Hok
    as (o0 & s0 & args1 & m1 & o1 & s1 & _ & _ & Hres & Hw & _).
  assert (Hk : ∀ k, k ≠ "start_epoch" → k ≠ "distributed" → k ≠ "gpu" →
                 k ≠ "world_size" → k ≠ "rank" → args1 !! k = args !! k).
  { intros k ? ? ? ? ?. rewrite (resume_args_other _ _ _ _ _ _ _ _ _ k Hres)
      by done. by apply initialize_distributed_mode_other. }
  unfold with_writer, getattr in Hw. rewrite Hk in Hw by done.
  destruct (args !! "tensorboard_dir") as [td|]; [|done].
  exists td. split; [done|]. simpl in Hw.
  destruct (truthy td).
  - destruct (is_main_process w).
    + destruct td; try done. simpl in Hw. injection Hw as <-.
      eexists. split; [done|]. unfold setattr. by rewrite lookup_insert_eq.
    + injection Hw as <-. unfold setattr. by rewrite lookup_insert_eq.
  - injection Hw as <-. by apply Hk.
Qed.

(** X1. The block [if args.tensorboard_dir:] of [main]: with a log
    directory, [args.writer] is a writer on that directory on the main
    process and [None] on every other process; without one, [args.writer]
    is left as it was, so it stays unbound on a parsed namespace. *)
Theorem setup_binds_writer w args run :
  outcome (setup w args) = Ok run →
  ∃ td, args !! "tensorboard_dir" = Some td
    ∧ run_args run !! "writer"
      = if truthy td then
          if is_main_process w
          then match td with VStr dir => Some (VWriter dir) | _ => None end
          else Some VNone
        else args !! "writer".
Proof.
  intros Hok. destruct (setup_writer_lookup _ _ _ Hok) as (td & Htd & Hw).
  exists td. split; [done|].
  destruct (truthy td); [|done].
  destruct (is_main_process w); [|done].
  by destruct Hw as (dir & -> & ->).
Qed.

Lemma setup_binds_writer_witness :
  let w := worker_process rising ReturnZero ∅ in
  let run := {| run_args := setattr "writer" VNone
                              (initialize_distributed_mode w one_epoch_args);
                run_model := {| weights := 0 |};
                run_optimizer := AdamW (binary64 (1 # 1000));
                run_scheduler :=
                  StepLR_init (AdamW (binary64 (1 # 1000))) 30
                    (binary64 (1 # 10));
                best_accuracy := 0 |} in
  outcome (setup w one_epoch_args) = Ok run
  ∧ ∃ td, one_epoch_args !! "tensorboard_dir" = Some td
      ∧ run_args run !! "writer"
        = if truthy td then
            if is_main_process w
            then match td with VStr dir => Some (VWriter dir) | _ => None end
            else Some VNone
          else one_epoch_args !! "writer".
Proof.
  intros w run.
  assert (H : outcome (setup w one_epoch_args) = Ok run)
    by (vm_compute; reflexivity).
  split; [exact H|]. exact (setup_binds_writer w one_epoch_args run H).
Defined.

Lemma setup_has_writer w args run :
  outcome (setup w args) = Ok run →
  has_writer args = false →
  is_main_process w = false ∨ option_set args "tensorboard_dir" = false →
  has_writer (run_args run) = false.
Proof.
  intros Hok Hw Hcase.
  destruct (setup_writer_lookup _ _ _ Hok) as (td & Htd & Hrun).
  unfold has_writer, option_set in *. rewrite Htd in Hcase.
  destruct (truthy td).
  - destruct Hcase as [Hm|?]; [|done]. rewrite Hm in Hrun. by rewrite Hrun.
  - by rewrite Hrun.
Qed.

Lemma has_writer_false args :
  has_writer args = false → ∀ d, args !! "writer" ≠ Some (VWriter d).
Proof. unfold has_writer. intros H d Hd. by rewrite Hd in H. Qed.

(** X2. Telemetry is written only through a writer object, which
    [main] creates only on the main process and only with a log
    directory: on any other process, or without [--tensorboard-dir], no
    run writes a scalar, however it ends. *)
Theorem telemetry_only_when_configured w args :
  has_writer args = false →
  is_main_process w = false ∨ option_set args "tensorboard_dir" = false →
  never is_telemetry (trace (main w args)).
Proof.
  intros Hw Hcase.
  apply (never_main _ _ (λ a, has_writer a = false)).
  - intros a peers dl m o epoch Ha.
    pose proof (has_writer_false _ Ha) as Hno. split.
    + apply never_train; try done.
      intros. split; [by apply never_telemetry_batch
                     |by apply never_telemetry_epoch].
    + apply never_valid; try done.
      intros. split; [by apply never_telemetry_batch
                     |by apply never_telemetry_epoch].
  - intros a ck name _. apply never_save_if_configured. by right; right.
  - done.
  - intros run Hrun. by apply (setup_has_writer w args).
Qed.

Lemma telemetry_only_when_configured_witness :
  let w := worker_process rising ReturnZero ∅ in
  has_writer one_epoch_args = false
  ∧ (is_main_process w = false
     ∨ option_set one_epoch_args "tensorboard_dir" = false)
  ∧ never is_telemetry (trace (main w one_epoch_args)).
Proof.
  intros w.
  assert (H1 : has_writer one_epoch_args = false) by (vm_compute; reflexivity).
  assert (H2 : is_main_process w = false
               ∨ option_set one_epoch_args "tensorboard_dir" = false)
    by (left; reflexivity).
  split; [exact H1|]. split; [exact H2|].
  exact (telemetry_only_when_configured w one_epoch_args H1 H2).
Defined.

(** X3. A checkpoint file is written only on the main process and only
    with a save directory: on any other process, or without
    [--save-dir], no run writes a file, however it ends. *)
Theorem checkpoints_only_when_configured w args :
  is_main_process w = false ∨ option_set args "save_dir" = false →
  never is_write (trace (main w args)).
Proof.
  intros Hcase.
  apply (never_main _ _ (λ a, is_main_process w = false
                              ∨ option_set a "save_dir" = false)).
  - intros a peers dl m o epoch _. split.
    + apply never_train; try done.
      intros. split; [by apply never_batch_telemetry
                     |by apply never_epoch_telemetry].
    + apply never_valid; try done.
      intros. split; [by apply never_batch_telemetry
                     |by apply never_epoch_telemetry].
  - intros a ck name Ha. apply never_save_if_configured.
    destruct Ha; [by left|by right; left].
  - done.
  - intros run Hrun. destruct Hcase as [?|Hsd]; [by left|right].
    unfold option_set in *.
    by rewrite (setup_args_other _ _ _ "save_dir" Hrun).
Qed.

Lemma checkpoints_only_when_configured_witness :
  let w := worker_process rising ReturnZero ∅ in
  (is_main_process w = false ∨ option_set one_epoch_args "save_dir" = false)
  ∧ never is_write (trace (main w one_epoch_args)).
Proof.
  intros w.
  assert (H : is_main_process w = false
              ∨ option_set one_epoch_args "save_dir" = false)
    by (left; reflexivity).
  split; [exact H|].
  exact (checkpoints_only_when_configured w one_epoch_args H).
Defined.

(** X4. The valid pass never resets a gradient, never propagates one
    and never steps the optimizer, whatever its inputs and however it
    ends. *)
Theorem valid_never_updates w peers dl m epoch args :
  never is_gradient_operation (trace (valid w peers dl m epoch args)).
Proof.
  apply never_valid; [|done].
  intros. split; [by apply never_batch_telemetry
                 |by apply never_epoch_telemetry].
Qed.

(** ** Runs that cannot train *)

Lemma run_epoch_needs_writer w run e :
  run_args run !! "writer" = None → returned (run_epoch w run e) = false.
Proof.
  intros Hw. destruct (returned (run_epoch w run e)) eqn:Hr; [|done].
  apply returned_Ok in Hr as [run' Hok]. unfold run_epoch in Hok.
  bind_Ok Hok as d Hd. bind_Ok Hok as u Hu. bind_Ok Hok as mo Htrain.
  destruct (passes_need_writer w (peer_train w e) (train_batches w e)
              (run_model run) (run_optimizer run) e _ Hw) as [Ht _].
  unfold returned in Ht. by rewrite Htrain in Ht.
Qed.

Lemma bind_unchanged {A : Type} (m : M A) (f : A → M A) (a : A) :
  outcome m = Ok a → f a = mret a → (m ≫= f) = m.
Proof.
  intros Ha Hf. unfold mbind, M_mbind, M_bind. rewrite Ha, Hf. simpl.
  rewrite app_nil_r, <- Ha. symmetry. apply M_eta.
Qed.

Lemma epoch_loop_nothing_to_do w run start epochs :
  attr_int (run_args run) "start_epoch" = Ok start →
  attr_int (run_args run) "epochs" = Ok epochs →
  epochs ≤ start →
  epoch_loop w run = mret run.
Proof.
  unfold epoch_loop, attr_int. intros -> -> Hle.
  rewrite !bind_lift_Ok. by rewrite range_nil.
Qed.

(** X5. A namespace from the parser has no [writer], and without a log
    directory [main] binds none: such a run returns only when there is
    no epoch left to run, and then it is [setup] alone; with an epoch to
    run it raises. *)
Theorem training_needs_tensorboard_dir cv w argv args :
  parse_args cv init_parser argv = Some args →
  option_set args "tensorboard_dir" = false →
  returned (main w args) = true →
  ∃ run start epochs,
    outcome (main w args) = Ok run
    ∧ main w args = setup w args
    ∧ attr_int (run_args run) "start_epoch" = Ok start
    ∧ attr_int (run_args run) "epochs" = Ok epochs
    ∧ epochs ≤ start.
Proof.
  intros Hparse Htd [run' Hmain]%returned_Ok.
  assert (Hmain0 := Hmain).
  apply main_Ok in Hmain as (run & Hsetup & Hloop & _).
  assert (Hw : run_args run !! "writer" = None).
  { destruct (setup_writer_lookup _ _ _ Hsetup) as (td & Htd' & Hrun).
    unfold option_set in Htd. rewrite Htd' in Htd. rewrite Htd in Hrun.
    rewrite Hrun. by apply (parse_args_writer cv argv). }
  assert (Hloop0 := Hloop).
  apply epoch_loop_Ok in Hloop as (start & epochs & Hs & He & Hfor & _).
  destruct (decide (start < epochs)) as [Hlt|Hge].
  { rewrite range_cons in Hfor by done. simpl in Hfor.
    bind_Ok Hfor as r1 Hr1.
    pose proof (run_epoch_needs_writer w run start Hw) as Hno.
    unfold returned in Hno. by rewrite Hr1 in Hno. }
  assert (Heq : epoch_loop w run = mret run)
    by (apply (epoch_loop_nothing_to_do w run start epochs); [done|done|lia]).
  rewrite Heq in Hloop0. injection Hloop0 as <-.
  exists run, start, epochs.
  split; [done|]. split; [|split; [done|split; [done|lia]]].
  unfold main. by apply bind_unchanged with run.
Qed.

Lemma training_needs_tensorboard_dir_witness :
  let w := single_process rising ReturnZero ∅ in
  let argv := ["/data"; "--epochs"; "0"] in
  parse_args demo_cv init_parser argv = Some no_epoch_args
  ∧ option_set no_epoch_args "tensorboard_dir" = false
  ∧ returned (main w no_epoch_args) = true
  ∧ ∃ run start epochs,
      outcome (main w no_epoch_args) = Ok run
      ∧ main w no_epoch_args = setup w no_epoch_args
      ∧ attr_int (run_args run) "start_epoch" = Ok start
      ∧ attr_int (run_args run) "epochs" = Ok epochs
      ∧ epochs ≤ start.
Proof.
  intros w argv.
  assert (H1 : parse_args demo_cv init_parser argv = Some no_epoch_args)
    by (vm_compute; reflexivity).
  assert (H2 : option_set no_epoch_args "tensorboard_dir" = false)
    by (vm_compute; reflexivity).
  assert (H3 : returned (main w no_epoch_args) = true)
    by (vm_compute; reflexivity).
  split; [exact H1|]. split; [exact H2|]. split; [exact H3|].
  exact (training_needs_tensorboard_dir demo_cv w argv no_epoch_args H1 H2 H3).
Defined.

(** ** Resuming *)

Lemma fails_silently_lift_bind {A B : Type} (r : result A) (f : A → M B) :
  (∀ a, r = Ok a → fails_silently (f a)) → fails_silently (lift r ≫= f).
Proof.
  destruct r as [a|e]; intros H.
  - rewrite bind_lift_Ok. by apply H.
  - by split.
Qed.

Lemma fails_silently_bind {A B : Type} (m : M A) (f : A → M B) :
  fails_silently m → fails_silently (m ≫= f).
Proof.
  intros [Hr Ht]. unfold returned in Hr.
  destruct (outcome m) as [a|e] eqn:Ho; [done|].
  destruct (M_bind_Raise m f e Ho) as [Ht' Ho'].
  split; [unfold returned; by rewrite Ho'|by rewrite Ht'].
Qed.

Lemma resume_load_error w args m o s path e :
  args !! "resume" = Some (VStr path) → path ≠ "" →
  load_error w path = Some e →
  resume w args m o s = raise e.
Proof.
  intros Hr Hpath Hload. unfold resume, getattr. rewrite Hr.
  cbv beta iota. rewrite bind_lift_Ok. unfold truthy.
  destruct (String.eqb_spec path "") as [->|_]; [done|].
  cbv beta iota delta [negb as_str]. rewrite bind_lift_Ok.
  unfold load_error in Hload.
  destruct (files w !! path) as [ck|].
  - rewrite bind_lift_Ok. destruct (ck_model ck); [done|].
    by injection Hload as <-.
  - by injection Hload as <-.
Qed.

(** X6. [--resume path] with no checkpoint file under [path], or with
    one that has no ['model'] key: the resume block raises
    [FileNotFoundError], respectively [KeyError], and [main] ends there
    before anything is trained, stepped or written. *)
Theorem resume_unreadable_checkpoint w args path e :
  args !! "resume" = Some (VStr path) → path ≠ "" →
  load_error w path = Some e →
  (∀ m o s, resume w (initialize_distributed_mode w args) m o s = raise e)
  ∧ returned (main w args) = false
  ∧ trace (main w args) = [].
Proof.
  intros Hr Hpath Hload.
  assert (Hres : ∀ m o s,
            resume w (initialize_distributed_mode w args) m o s = raise e).
  { intros. apply resume_load_error with path; [|done|done].
    by rewrite initialize_distributed_mode_other. }
  split; [done|].
  assert (H : fails_silently (main w args)); [|by destruct H].
  unfold main. apply fails_silently_bind. unfold setup.
  apply fails_silently_lift_bind. intros _ _.
  apply fails_silently_lift_bind. intros d _.
  apply fails_silently_lift_bind. intros _ _.
  assert (Hrest : ∀ (X : M value) (f : value → M Run),
            (∀ v, fails_silently (f v)) →
            X = (if truthy d
                 then lift (getattr (initialize_distributed_mode w args) "gpu")
                 else mret VNone) →
            fails_silently (X ≫= f)).
  { intros X f Hf ->. destruct (truthy d).
    - apply fails_silently_lift_bind. intros. apply Hf.
    - rewrite bind_ret. apply Hf. }
  eapply Hrest; [|reflexivity]. intros _.
  apply fails_silently_lift_bind. intros _ _.
  apply fails_silently_lift_bind. intros lr _.
  apply fails_silently_lift_bind. intros ss _.
  apply fails_silently_lift_bind. intros g _.
  apply fails_silently_bind. rewrite Hres. by split.
Qed.

Lemma resume_unreadable_checkpoint_witness :
  let w := single_process rising ReturnZero ∅ in
  completed_args !! "resume" = Some (VStr "out/checkpoint.pth")
  ∧ "out/checkpoint.pth" ≠ ""
  ∧ load_error w "out/checkpoint.pth"
    = Some (FileNotFoundError "out/checkpoint.pth")
  ∧ (∀ m o s, resume w (initialize_distributed_mode w completed_args) m o s
              = raise (FileNotFoundError "out/checkpoint.pth"))
  ∧ returned (main w completed_args) = false
  ∧ trace (main w completed_args) = [].
Proof.
  intros w.
  assert (H1 : completed_args !! "resume" = Some (VStr "out/checkpoint.pth"))
    by (vm_compute; reflexivity).
  assert (H2 : "out/checkpoint.pth" ≠ "") by discriminate.
  assert (H3 : load_error w "out/checkpoint.pth"
               = Some (FileNotFoundError "out/checkpoint.pth"))
    by (vm_compute; reflexivity).
  split; [exact H1|]. split; [exact H2|]. split; [exact H3|].
  exact (resume_unreadable_checkpoint w completed_args "out/checkpoint.pth"
           (FileNotFoundError "out/checkpoint.pth") H1 H2 H3).
Defined.

(** X7. Resuming from the checkpoint of the last epoch of a finished
    run, with the same [--epochs]: the start epoch is no longer below the
    number of epochs, the loop body never runs, and [main] is [setup]
    alone: nothing is trained and no file is written again. *)
Theorem resume_completed_run w args path ck o s e n :
  returned (setup w args) = true →
  args !! "resume" = Some (VStr path) → path ≠ "" →
  files w !! path = Some ck →
  ck_optimizer ck = Some o → ck_scheduler ck = Some s →
  ck_epoch ck = Some e →
  attr_int args "epochs" = Ok n → n ≤ e + 1 →
  main w args = setup w args
  ∧ writes_to path (trace (main w args)) = [].
Proof.
  intros [run Hsetup]%returned_Ok Hr Hpath Hfile Ho Hs He Hn Hle.
  destruct (setup_resumed w args run path ck o s e) as (Hstart & _); try done.
  assert (Hepochs : attr_int (run_args run) "epochs" = Ok n).
  { rewrite <- Hn. apply attr_int_ext.
    by apply (setup_args_other w args run "epochs"). }
  assert (Heq : main w args = setup w args).
  { unfold main. apply bind_unchanged with run; [done|].
    by apply (epoch_loop_nothing_to_do w run (e + 1) n). }
  split; [done|]. rewrite Heq. by apply writes_to_setup with run.
Qed.

Lemma resume_completed_run_witness :
  let w := resumable_world in
  let path := "out/checkpoint.pth" in
  returned (setup w completed_args) = true
  ∧ completed_args !! "resume" = Some (VStr path) ∧ path ≠ ""
  ∧ files w !! path = Some checkpoint_after_epoch_0
  ∧ ck_optimizer checkpoint_after_epoch_0
    = Some {| opt_lr := fmul (binary64 (1 # 1000)) (binary64 (1 # 10));
              opt_step := 1 |}
  ∧ ck_scheduler checkpoint_after_epoch_0
    = Some {| step_size := 1; gamma := binary64 (1 # 10);
              base_lr := binary64 (1 # 1000); last_epoch := 1 |}
  ∧ ck_epoch checkpoint_after_epoch_0 = Some 0
  ∧ attr_int completed_args "epochs" = Ok 1 ∧ 1 ≤ 0 + 1
  ∧ main w completed_args = setup w completed_args
  ∧ writes_to path (trace (main w completed_args)) = [].
Proof.
  intros w path.
  assert (H1 : returned (setup w completed_args) = true)
    by (vm_compute; reflexivity).
  assert (H2 : completed_args !! "resume" = Some (VStr path))
    by (vm_compute; reflexivity).
  assert (H3 : path ≠ "") by discriminate.
  assert (H4 : files w !! path = Some checkpoint_after_epoch_0)
    by (vm_compute; reflexivity).
  assert (H5 : attr_int completed_args "epochs" = Ok 1)
    by (vm_compute; reflexivity).
  assert (H6 : 1 ≤ 0 + 1) by lia.
  do 9 (split; [first [assumption | reflexivity]|]).
  exact (resume_completed_run w completed_args path checkpoint_after_epoch_0
           _ _ 0 1 H1 H2 H3 H4 eq_refl eq_refl eq_refl H5 H6).
Defined.

(** X8. Without [--resume] (or with an empty one) the resume block is
    skipped as a whole, its [scheduler.step(args.start_epoch)] included:
    [--start-epoch] then only moves the first epoch of the loop, while
    the model, the optimizer and the scheduler are the fresh ones, the
    scheduler at epoch 0. *)
Theorem start_epoch_without_resume w args r :
  returned (setup w args) = true →
  args !! "resume" = Some r → truthy r = false →
  ∃ run lr ss g,
    outcome (setup w args) = Ok run
    ∧ attr_float args "lr" = Ok lr
    ∧ attr_int args "step_size" = Ok ss
    ∧ attr_float args "gamma" = Ok g
    ∧ run_model run = {| weights := 0 |}
    ∧ run_optimizer run = AdamW lr
    ∧ run_scheduler run
      = {| step_size := ss; gamma := g; base_lr := lr; last_epoch := 0 |}
    ∧ run_args run !! "start_epoch" = args !! "start_epoch".
Proof.
  intros [run Hsetup]%returned_Ok Hr Htr.
  destruct (setup_fresh _ _ _ _ Hsetup Hr Htr) as (Ho & Hs & Hst).
  rewrite (fresh_scheduler_ext args) in Hs
    by (by apply initialize_distributed_mode_other).
  unfold fresh_optimizer in Ho.
  rewrite (attr_float_ext args) in Ho
    by (by apply initialize_distributed_mode_other).
  apply fresh_scheduler_Ok in Hs as (lr & ss & g & Hlr & Hss & Hg & Heq).
  rewrite Hlr in Ho. simpl in Ho. injection Ho as Ho.
  exists run, lr, ss, g.
  split; [done|]. split; [done|]. split; [done|]. split; [done|].
  split; [|by split].
  apply setup_Ok in Hsetup
    as (o0 & s0 & args1 & m1 & o1 & s1 & _ & _ & Hres & _ & <- & _).
  apply resume_Ok in Hres as (r' & Hr' & Hcase).
  rewrite initialize_distributed_mode_other in Hr' by done.
  rewrite Hr in Hr'. injection Hr' as <-. rewrite Htr in Hcase.
  destruct Hcase as [Hcase _]. by injection Hcase.
Qed.

Lemma start_epoch_without_resume_witness :
  let w := single_process rising ReturnZero ∅ in
  returned (setup w late_start_args) = true
  ∧ late_start_args !! "resume" = Some VNone
  ∧ truthy VNone = false
  ∧ ∃ run lr ss g,
      outcome (setup w late_start_args) = Ok run
      ∧ attr_float late_start_args "lr" = Ok lr
      ∧ attr_int late_start_args "step_size" = Ok ss
      ∧ attr_float late_start_args "gamma" = Ok g
      ∧ run_model run = {| weights := 0 |}
      ∧ run_optimizer run = AdamW lr
      ∧ run_scheduler run
        = {| step_size := ss; gamma := g; base_lr := lr; last_epoch := 0 |}
      ∧ run_args run !! "start_epoch" = late_start_args !! "start_epoch".
Proof.
  intros w.
  assert (H1 : returned (setup w late_start_args) = true)
    by (vm_compute; reflexivity).
  assert (H2 : late_start_args !! "resume" = Some VNone)
    by (vm_compute; reflexivity).
  split; [exact H1|]. split; [exact H2|]. split; [reflexivity|].
  exact (start_epoch_without_resume w late_start_args VNone H1 H2 eq_refl).
Defined.

(** ** The schedule and the checkpoints of a run *)

(** X9. A run from scratch over the epochs [0 .. n - 1], stepping the
    scheduler once per epoch, ends with the scheduler at epoch [n] and
    the learning rate decayed [n // step_size] times, one float product
    with [gamma] per decay. *)
Theorem fresh_run_learning_rate w args n ss :
  0 ≤ n →
  args !! "resume" = Some VNone →
  args !! "start_epoch" = Some (VInt 0) →
  args !! "epochs" = Some (VInt n) →
  attr_int args "step_size" = Ok ss → 0 < ss →
  returned (main w args) = true →
  ∃ run lr g,
    outcome (main w args) = Ok run
    ∧ attr_float args "lr" = Ok lr
    ∧ attr_float args "gamma" = Ok g
    ∧ run_scheduler run
      = {| step_size := ss; gamma := g; base_lr := lr; last_epoch := n |}
    ∧ opt_lr (run_optimizer run) = chained lr g (Z.to_nat (n / ss)).
Proof.
  intros Hn Hres Hstart Hepochs Hss Hpos [run Hok]%returned_Ok.
  destruct (uninterrupted_schedule w args n run ss)
    as (s0 & Hs0 & Hsched & Hon); try done.
  apply fresh_scheduler_Ok in Hs0 as (lr & ss' & g & Hlr & Hss' & Hg & ->).
  rewrite Hss in Hss'. injection Hss' as <-.
  exists run, lr, g.
  split; [done|]. split; [done|]. split; [done|]. split; [done|].
  destruct Hon as (_ & _ & Hrate). by rewrite Hsched in Hrate.
Qed.

Lemma fresh_run_learning_rate_witness :
  let w := single_process rising ReturnZero ∅ in
  0 ≤ 2
  ∧ two_decays_args !! "resume" = Some VNone
  ∧ two_decays_args !! "start_epoch" = Some (VInt 0)
  ∧ two_decays_args !! "epochs" = Some (VInt 2)
  ∧ attr_int two_decays_args "step_size" = Ok 1 ∧ 0 < 1
  ∧ returned (main w two_decays_args) = true
  ∧ ∃ run lr g,
      outcome (main w two_decays_args) = Ok run
      ∧ attr_float two_decays_args "lr" = Ok lr
      ∧ attr_float two_decays_args "gamma" = Ok g
      ∧ run_scheduler run
        = {| step_size := 1; gamma := g; base_lr := lr; last_epoch := 2 |}
      ∧ opt_lr (run_optimizer run) = chained lr g (Z.to_nat (2 / 1)).
Proof.
  intros w.
  assert (H1 : 0 ≤ 2) by lia.
  assert (H2 : two_decays_args !! "resume" = Some VNone)
    by (vm_compute; reflexivity).
  assert (H3 : two_decays_args !! "start_epoch" = Some (VInt 0))
    by (vm_compute; reflexivity).
  assert (H4 : two_decays_args !! "epochs" = Some (VInt 2))
    by (vm_compute; reflexivity).
  assert (H5 : attr_int two_decays_args "step_size" = Ok 1)
    by (vm_compute; reflexivity).
  assert (H6 : 0 < 1) by lia.
  assert (H7 : returned (main w two_decays_args) = true)
    by (vm_compute; reflexivity).
  do 7 (split; [assumption|]).
  exact (fresh_run_learning_rate w two_decays_args 2 1 H1 H2 H3 H4 H5 H6 H7).
Defined.

Lemma disk_after_snoc t e fs :
  disk_after (t ++ [e]) fs
  = match e with
    | EvWrite path ck => <[path := ck]> (disk_after t fs)
    | _ => disk_after t fs
    end.
Proof. unfold disk_after. by rewrite fold_left_app. Qed.

(** The file under [path] after a trace: the last record written to it,
    or what was there before. *)
Lemma disk_after_lookup t fs path :
  disk_after t fs !! path
  = match last (writes_to path t) with
    | Some ck => Some ck
    | None => fs !! path
    end.
Proof.
  induction t as [|e t IH] using rev_ind; [done|].
  rewrite disk_after_snoc, writes_to_app.
  destruct e; try (simpl; by rewrite app_nil_r).
  unfold writes_to at 2. simpl.
  destruct (String.eqb_spec path0 path) as [->|Hne]; simpl.
  - by rewrite last_snoc, lookup_insert_eq.
  - by rewrite app_nil_r, lookup_insert_ne.
Qed.

(** X10. With a save directory, on the main process, an epoch loop that
    returns has written the rolling checkpoint once per epoch, in the
    order of the epochs; the file then holds the record of the last
    epoch with the final model, optimizer and scheduler, and is
    untouched when no epoch ran. *)
Theorem rolling_checkpoint_per_epoch w run cp fs :
  returned (epoch_loop w run) = true →
  save_path (run_args run) "checkpoint.pth" = Some cp →
  is_main_process w = true →
  ∃ start epochs run',
    attr_int (run_args run) "start_epoch" = Ok start
    ∧ attr_int (run_args run) "epochs" = Ok epochs
    ∧ outcome (epoch_loop w run) = Ok run'
    ∧ map ck_epoch (writes_to cp (trace (epoch_loop w run)))
      = map Some (range start epochs)
    ∧ disk_after (trace (epoch_loop w run)) fs !! cp
      = if decide (start < epochs)
        then Some (checkpoint_of (epochs - 1) (run_model run')
                     (run_optimizer run') (run_scheduler run'))
        else fs !! cp.
Proof.
  intros [run' Hok]%returned_Ok Hcp Hmain.
  assert (Hok0 := Hok).
  apply epoch_loop_Ok in Hok as (start & epochs & Hs & He & Hfor & Htr).
  exists start, epochs, run'.
  split; [done|]. split; [done|]. split; [done|].
  rewrite Htr.
  pose (I := λ (seen : list Z) (s : Run) (t : list event),
          run_args s = run_args run
          ∧ map ck_epoch (writes_to cp t) = map Some seen).
  assert (HI : I ([] ++ range start epochs)%list run'
                 ([] ++ trace (for_each (run_epoch w) (range start epochs)
                                 run))%list).
  { apply (for_each_invariant (run_epoch w) I); [|by split|done].
    intros seen s x s' t [Hargs Hmap] Hx. unfold I.
    split; [by rewrite (run_epoch_args _ _ _ _ Hx)|].
    apply run_epoch_Ok in Hx as (sc & sched & opt & _ & _ & -> & _).
    rewrite writes_to_app, writes_to_rolling_epoch_events
      by (by rewrite ?Hargs).
    by rewrite !map_app, Hmap. }
  destruct HI as [_ Hmap]. simpl in Hmap. split; [done|].
  rewrite disk_after_lookup.
  destruct (decide (start < epochs)) as [Hlt|Hge].
  - rewrite (last_rolling_checkpoint w (range start epochs) run run' cp
               (epochs - 1)); [done|done|done|done|].
    replace epochs with (epochs - 1 + 1) at 1 by lia.
    rewrite range_snoc by lia. apply last_snoc.
  - rewrite range_nil by lia. done.
Qed.

Lemma rolling_checkpoint_per_epoch_witness :
  let w := single_process rising ReturnZero ∅ in
  let cp := "out/checkpoint.pth" in
  let fs : gmap string Checkpoint := ∅ in
  returned (epoch_loop w two_epoch_run) = true
  ∧ save_path (run_args two_epoch_run) "checkpoint.pth" = Some cp
  ∧ is_main_process w = true
  ∧ ∃ start epochs run',
      attr_int (run_args two_epoch_run) "start_epoch" = Ok start
      ∧ attr_int (run_args two_epoch_run) "epochs" = Ok epochs
      ∧ outcome (epoch_loop w two_epoch_run) = Ok run'
      ∧ map ck_epoch (writes_to cp (trace (epoch_loop w two_epoch_run)))
        = map Some (range start epochs)
      ∧ disk_after (trace (epoch_loop w two_epoch_run)) fs !! cp
        = if decide (start < epochs)
          then Some (checkpoint_of (epochs - 1) (run_model run')
                       (run_optimizer run') (run_scheduler run'))
          else fs !! cp.
Proof.
  intros w cp fs.
  assert (H1 : returned (epoch_loop w two_epoch_run) = true)
    by (vm_compute; reflexivity).
  assert (H2 : save_path (run_args two_epoch_run) "checkpoint.pth" = Some cp)
    by (vm_compute; reflexivity).
  assert (H3 : is_main_process w = true) by reflexivity.
  do 3 (split; [assumption|]).
  exact (rolling_checkpoint_per_epoch w two_epoch_run cp fs H1 H2 H3).
Defined.

Lemma set_epoch_pass_events w p peers dl epoch args :
  List.filter is_set_epoch (pass_events w p peers dl epoch args) = [].
Proof.
  unfold pass_events. rewrite !List.filter_app, filter_enum_flat.
  rewrite enum_flat_nil.
  2: { intros i b. by destruct p, (writer_on args). }
  rewrite (filter_scalars_only is_set_epoch);
    [done|done|apply scalars_only_epoch_telemetry].
Qed.

(** X11. An epoch that returns begins with [trainsampler.set_epoch(epoch)]
    in distributed mode, and with the train pass otherwise; the sampler's
    epoch is set at no other point. *)
Theorem set_epoch_iff_distributed w run e :
  returned (run_epoch w run e) = true →
  ∃ d, run_args run !! "distributed" = Some d
    ∧ List.filter is_set_epoch (trace (run_epoch w run e))
      = (if truthy d then [EvSetEpoch e] else [])
    ∧ head (trace (run_epoch w run e))
      = Some (if truthy d then EvSetEpoch e else EvMode TRAIN).
Proof.
  intros [run' Hok]%returned_Ok.
  assert (Hd : ∃ d, run_args run !! "distributed" = Some d).
  { unfold run_epoch, getattr in Hok.
    destruct (run_args run !! "distributed") as [d|]; [by exists d|done]. }
  destruct Hd as [d Hd]. exists d. split; [done|].
  apply run_epoch_Ok in Hok as (sc & sched & opt & _ & _ & -> & _).
  unfold epoch_events. rewrite Hd.
  rewrite !List.filter_app, !set_epoch_pass_events.
  rewrite !(filter_save_events is_set_epoch) by done.
  assert (Hbest : ∀ ck, List.filter is_set_epoch
            (if Qltb (best_accuracy run) sc
             then save_events w (run_args run) ck "best_checkpoint.pth"
             else []) = []).
  { intros ck. destruct (Qltb _ _); [|done]. by apply filter_save_events. }
  rewrite Hbest. by destruct (truthy d).
Qed.

Lemma set_epoch_iff_distributed_witness :
  let w := single_process rising ReturnZero ∅ in
  returned (run_epoch w two_epoch_run 0) = true
  ∧ ∃ d, run_args two_epoch_run !! "distributed" = Some d
      ∧ List.filter is_set_epoch (trace (run_epoch w two_epoch_run 0))
        = (if truthy d then [EvSetEpoch 0] else [])
      ∧ head (trace (run_epoch w two_epoch_run 0))
        = Some (if truthy d then EvSetEpoch 0 else EvMode TRAIN).
Proof.
  intros w.
  assert (H1 : returned (run_epoch w two_epoch_run 0) = true)
    by (vm_compute; reflexivity).
  split; [exact H1|].
  exact (set_epoch_iff_distributed w two_epoch_run 0 H1).
Defined.

(** ** The passes *)

(** X12. A train pass that returns has stepped the optimizer once per
    batch and updated the model as often, and has left the learning rate
    alone: only the scheduler changes it, between epochs. *)
Theorem train_pass_effect w peers dl m o epoch args :
  returned (train w peers dl m o epoch args) = true →
  ∃ m' o',
    outcome (train w peers dl m o epoch args) = Ok (m', o')
    ∧ weights m' = (weights m + length dl)%nat
    ∧ opt_step o' = (opt_step o + length dl)%nat
    ∧ opt_lr o' = opt_lr o.
Proof.
  intros [[m' o'] Hok]%returned_Ok. exists m', o'. split; [done|].
  apply train_Ok in Hok as [_ Heq]. unfold after_batches in Heq.
  by injection Heq as -> ->.
Qed.

Lemma train_pass_effect_witness :
  let w := single_process rising ReturnZero ∅ in
  let dl := [demo_batch 1 (1 # 2) 1; demo_batch (1 # 2) (3 # 4) 1] in
  let m := {| weights := 4 |} in
  let o := {| opt_lr := 1 # 1000; opt_step := 4 |} in
  returned (train w [] dl m o 2 demo_args) = true
  ∧ ∃ m' o',
      outcome (train w [] dl m o 2 demo_args) = Ok (m', o')
      ∧ weights m' = (weights m + length dl)%nat
      ∧ opt_step o' = (opt_step o + length dl)%nat
      ∧ opt_lr o' = opt_lr o.
Proof.
  intros w dl m o.
  assert (H : returned (train w [] dl m o 2 demo_args) = true)
    by (vm_compute; reflexivity).
  split; [exact H|].
  exact (train_pass_effect w [] dl m o 2 demo_args H).
Defined.



(** ** The global step of the batch-level telemetry *)

Lemma scalar_steps_app tg t1 t2 :
  scalar_steps tg (t1 ++ t2) = (scalar_steps tg t1 ++ scalar_steps tg t2)%list.
Proof. apply omap_app. Qed.

Lemma scalar_steps_batch p p' metric epoch len idx b :
  In metric ["loss"; "acc1"; "acc5"] →
  scalar_steps (batch_tag p metric) (batch_events p' true epoch len idx b)
  = if same_pass p p' then [epoch * Z.of_nat len + Z.of_nat idx] else [].
Proof.
  intros [<-|[<-|[<-|[]]]]; by destruct p, p'.
Qed.

Lemma scalar_steps_batches p p' metric epoch len dl :
  In metric ["loss"; "acc1"; "acc5"] →
  ∀ idx,
  scalar_steps (batch_tag p metric)
    (enum_flat (batch_events p' true epoch len) idx dl)
  = if same_pass p p'
    then map (λ i, epoch * Z.of_nat len + Z.of_nat i) (seq idx (length dl))
    else [].
Proof.
  intros Hin. induction dl as [|b dl IH]; intros idx.
  - by destruct (same_pass p p').
  - cbn [enum_flat]. rewrite scalar_steps_app, IH, scalar_steps_batch by done.
    by destruct (same_pass p p').
Qed.

Lemma scalar_steps_add_scalar tg writer tg' v s :
  String.eqb tg' tg = false →
  scalar_steps tg (trace (add_scalar writer tg' v s)) = [].
Proof.
  intros Hne. unfold add_scalar. destruct writer; try done.
  destruct v as [x|e]; [|done]. rewrite bind_lift_Ok.
  unfold scalar_steps. simpl. by rewrite Hne.
Qed.

Lemma scalar_steps_bind {A B : Type} tg (m : M A) (f : A → M B) :
  scalar_steps tg (trace m) = [] →
  (∀ a, scalar_steps tg (trace (f a)) = []) →
  scalar_steps tg (trace (m ≫= f)) = [].
Proof.
  intros Hm Hf. unfold mbind, M_mbind, M_bind.
  destruct (outcome m) as [a|e]; simpl; [|done].
  by rewrite scalar_steps_app, Hm, Hf.
Qed.

(** The epoch-level block writes no batch-level scalar. *)
Lemma scalar_steps_epoch_telemetry p p' metric w args t epoch :
  In metric ["loss"; "acc1"; "acc5"] →
  scalar_steps (batch_tag p metric)
    (trace (epoch_telemetry w p' args t epoch)) = [].
Proof.
  intros Hin. unfold epoch_telemetry.
  apply scalar_steps_bind; [done|]. intros writer.
  destruct (truthy writer); [|done].
  repeat (apply scalar_steps_bind; [|intros _]);
    apply scalar_steps_add_scalar;
    destruct Hin as [<-|[<-|[<-|[]]]]; by destruct p, p'.
Qed.

Lemma scalar_steps_pass_events p p' metric w peers dl epoch args :
  In metric ["loss"; "acc1"; "acc5"] →
  has_writer args = true →
  scalar_steps (batch_tag p metric) (pass_events w p' peers dl epoch args)
  = if same_pass p p' then global_steps_of epoch (length dl) else [].
Proof.
  intros Hin Hw. unfold pass_events.
  assert (Hon : writer_on args = true).
  { unfold has_writer, writer_on in *.
    destruct (args !! "writer") as [[]|]; done. }
  rewrite Hon, !scalar_steps_app, scalar_steps_batches,
    scalar_steps_epoch_telemetry by done.
  unfold global_steps_of. simpl.
  destruct (same_pass p p'); by rewrite ?app_nil_r.
Qed.

Lemma scalar_steps_save_events tg w args ck name :
  scalar_steps tg (save_events w args ck name) = [].
Proof.
  unfold save_events. destruct (save_path args name); [|done].
  by destruct (is_main_process w).
Qed.

(** X14. With a telemetry writer, an epoch that returns has written each
    batch-level scalar of a pass once per batch, at the global steps
    [epoch * len(dataloader) + idx] for [idx = 0, 1, ...] in this order,
    where [dataloader] is the loader of that pass. *)
Theorem batch_scalar_steps w run e p metric :
  returned (run_epoch w run e) = true →
  has_writer (run_args run) = true →
  In metric ["loss"; "acc1"; "acc5"] →
  scalar_steps (batch_tag p metric) (trace (run_epoch w run e))
  = global_steps_of e
      (length match p with
              | TRAIN => train_batches w e
              | EVAL => valid_batches w e
              end).
Proof.
  intros [run' Hok]%returned_Ok Hw Hin.
  apply run_epoch_Ok in Hok as (sc & sched & opt & _ & _ & -> & _).
  unfold epoch_events.
  rewrite !scalar_steps_app, !scalar_steps_pass_events,
    !scalar_steps_save_events by done.
  assert (Hd : scalar_steps (batch_tag p metric)
                 match run_args run !! "distributed" with
                 | Some d => if truthy d then [EvSetEpoch e] else []
                 | None => []
                 end = []).
  { by destruct (run_args run !! "distributed") as [d|];
      [destruct (truthy d)|]. }
  assert (Hbest : ∀ ck, scalar_steps (batch_tag p metric)
            (if Qltb (best_accuracy run) sc
             then save_events w (run_args run) ck "best_checkpoint.pth"
             else []) = []).
  { intros ck. destruct (Qltb _ _); [|done]. apply scalar_steps_save_events. }
  rewrite Hd, Hbest. destruct p; simpl; by rewrite ?app_nil_r.
Qed.

Lemma batch_scalar_steps_witness :
  let w := single_process rising ReturnZero ∅ in
  returned (run_epoch w two_epoch_run 1) = true
  ∧ has_writer (run_args two_epoch_run) = true
  ∧ In "acc1" ["loss"; "acc1"; "acc5"]
  ∧ scalar_steps (batch_tag EVAL "acc1") (trace (run_epoch w two_epoch_run 1))
    = global_steps_of 1 (length (valid_batches w 1)).
Proof.
  intros w.
  assert (H1 : returned (run_epoch w two_epoch_run 1) = true)
    by (vm_compute; reflexivity).
  assert (H2 : has_writer (run_args two_epoch_run) = true)
    by (vm_compute; reflexivity).
  assert (H3 : In "acc1" ["loss"; "acc1"; "acc5"]) by (right; left; reflexivity).
  split; [exact H1|]. split; [exact H2|]. split; [exact H3|].
  exact (batch_scalar_steps w two_epoch_run 1 EVAL "acc1" H1 H2 H3).
Defined.

(** ** The parser: types and the required positional *)











(** Every argument that writes [data] stores a string: the only one is
    the positional. *)
Lemma init_parser_data_writers a :
  In a (actions init_parser) → dest a = "data" → action a = store type_str.
Proof.
  vm_compute. intros Hin Hd.
  repeat (destruct Hin as [<-|Hin]; [first [done | discriminate Hd]|]).
  destruct Hin.
Qed.

Section DataRequired.

Variable cv : Coercions.

Lemma positionals_init_parser :
  ∃ a0, positionals init_parser = [a0] ∧ dest a0 = "data"
        ∧ action a0 = store type_str.
Proof. eexists. split; [vm_compute; reflexivity|]. by split. Qed.

Lemma take_action_data a arg ns ns' :
  In a (actions init_parser) → data_bound ns →
  take_action cv a arg ns = Some ns' → data_bound ns'.
Proof.
  intros Ha [d Hd]. unfold take_action, setattr.
  destruct (decide (dest a = "data")) as [He|Hne].
  - rewrite (init_parser_data_writers a Ha He), He.
    destruct arg as [s|]; [|done]. simpl. intros [= <-].
    exists s. by rewrite lookup_insert_eq.
  - destruct (action a), arg; try done.
    + destruct (get_value cv type s); [|done]. simpl. intros [= <-].
      exists d. by rewrite lookup_insert_ne.
    + intros [= <-]. exists d. by rewrite lookup_insert_ne.
    + intros [= <-]. exists d. by rewrite lookup_insert_ne.
Qed.

Lemma take_action_positional a0 t ns ns' :
  dest a0 = "data" → action a0 = store type_str →
  take_action cv a0 (Some t) ns = Some ns' → data_bound ns'.
Proof.
  intros Hd Hty. unfold take_action, setattr. rewrite Hty, Hd. simpl.
  intros [= <-]. exists t. by rewrite lookup_insert_eq.
Qed.

Lemma consume_positionals_data pos toks ns ns' :
  pending_positionals pos ns →
  consume_positionals cv pos toks ns = Some ns' → data_bound ns'.
Proof.
  destruct positionals_init_parser as (a0 & Hpos & Hd0 & Hty0).
  intros [->|[-> Hb]]; rewrite ?Hpos.
  - destruct toks as [|t toks]; simpl; [done|].
    destruct (take_action cv a0 (Some t) ns) as [ns1|] eqn:Ht; [|done].
    simpl. destruct toks; [|done]. intros [= <-].
    by apply (take_action_positional a0 t ns).
  - destruct toks; simpl; [|done]. by intros [= <-].
Qed.

Lemma consume_data n : ∀ pos toks ns ns',
  (length toks ≤ n)%nat → pending_positionals pos ns →
  consume cv init_parser pos toks ns = Some ns' → data_bound ns'.
Proof.
  destruct positionals_init_parser as (a0 & Hpos & Hd0 & Hty0).
  induction n as [|n IH]; intros pos [|t toks] ns ns' Hlen Hpend;
    simpl in *; try lia.
  - destruct Hpend as [->|[-> Hb]]; [by rewrite Hpos|by intros [= <-]].
  - destruct Hpend as [->|[-> Hb]]; [by rewrite Hpos|by intros [= <-]].
  - destruct (String.eqb t "--").
    { by apply consume_positionals_data. }
    assert (Hopt : ∀ a arg ns1, In a (actions init_parser) →
              take_action cv a arg ns = Some ns1 →
              pending_positionals pos ns1).
    { intros a arg ns1 Ha Ht. destruct Hpend as [->|[-> Hb]]; [by left|].
      right. split; [done|]. by apply (take_action_data a arg ns). }
    destruct (parse_optional init_parser t) as [|a [e|]|] eqn:Hpo;
      [| | |done].
    + destruct Hpend as [->|[-> Hb]]; [|done]. rewrite Hpos.
      destruct (take_action cv a0 (Some t) ns) as [ns1|] eqn:Ht; [|done].
      simpl. apply IH; [lia|]. right. split; [done|].
      by apply (take_action_positional a0 t ns).
    + apply parse_optional_In in Hpo.
      destruct (take_action cv a (Some e) ns) as [ns1|] eqn:Ht; [|done].
      simpl. apply IH; [lia|]. by apply (Hopt a (Some e)).
    + apply parse_optional_In in Hpo.
      assert (Hflag : (ns1 ← take_action cv a None ns;
                       consume cv init_parser pos toks ns1) = Some ns' →
                      data_bound ns').
      { destruct (take_action cv a None ns) as [ns1|] eqn:Ht; [|done].
        simpl. apply IH; [lia|]. by apply (Hopt a None). }
      destruct (action a); [|done|done].
      destruct toks as [|v toks]; [done|].
      destruct (parse_optional init_parser v); [|done|done].
      destruct (String.eqb v "--"); [done|].
      destruct (take_action cv a (Some v) ns) as [ns1|] eqn:Ht; [|done].
      simpl in *. apply IH; [lia|]. by apply (Hopt a (Some v)).
Qed.

End DataRequired.

(** X16. The positional [data] is required: every command line the
    parser accepts binds [data] to a string, the one token that is read
    as a positional. *)
Theorem data_required cv argv ns :
  parse_args cv init_parser argv = Some ns →
  ∃ d, ns !! "data" = Some (VStr d).
Proof.
  unfold parse_args. apply (consume_data cv (length argv)); [lia|by left].
Qed.

Lemma data_required_witness :
  let argv := ["/data"; "--epochs"; "0"] in
  parse_args demo_cv init_parser argv = Some no_epoch_args
  ∧ ∃ d, no_epoch_args !! "data" = Some (VStr d).
Proof.
  intros argv.
  assert (H : parse_args demo_cv init_parser argv = Some no_epoch_args)
    by (vm_compute; reflexivity).
  split; [exact H|]. exact (data_required demo_cv argv no_epoch_args H).
Defined.
